(** * Acacia kernel: access control, service registry, event bus and
      lifecycle coordinator

    A shallow embedding of the Go packages [core/auth], [core/registry],
    [core/events] and [core/kernel], with the properties of the
    specification stated over it.

    Conventions.
    - A Go [string] is a Rocq [string] (a sequence of bytes); slicing
      [s[i:j]] is [substring i (j - i) s].
    - A Go [map] is a [gmap].  Where the result of a [range] over a map
      depends on the iteration order, the order is supplied by an explicit
      parameter that enumerates the map (see [Kernel]).
    - An interface value is a record of its methods.
    - A component callback is described by what it returns, see
      [Kernel.CallResult]. *)

From Stdlib Require Import String Ascii ZArith List Lia Relations.
From stdpp Require Import gmap strings list fin_maps sorting.

(** ** Results of running Go code

    A call returns, panics, blocks forever, or (for the one loop of the
    embedding that recurses on a counter) uses up its counter.  The state
    reached is kept with a panic, since a deferred [recover] observes it. *)

Module Go.

Inductive Outcome (S A : Type) : Type :=
| Ret (a : A) (s : S)
| Panic (v : string) (s : S)
| Hang
| OutOfFuel.

Arguments Ret {S A} a s.
Arguments Panic {S A} v s.
Arguments Hang {S A}.
Arguments OutOfFuel {S A}.

(** [error] values: [errors.New] and [fmt.Errorf] with one [%w] operand;
    [msg] is the text around the wrapped error. *)
Inductive error : Type :=
| Errorf (msg : string)
| Errorw (msg : string) (cause : error).

(** [time.Duration]: a signed 64-bit count of nanoseconds. *)
Definition Duration := Z.

Definition wrap64 (z : Z) : Z := ((z + 2 ^ 63) mod 2 ^ 64 - 2 ^ 63)%Z.

Definition Second : Duration := 1000000000%Z.

(** [time.Duration(n) * time.Second] *)
Definition seconds (n : Z) : Duration := wrap64 (n * Second).

End Go.

(** ** core/auth *)

Module Auth.

Definition Permission := string.

Record Role := { RoleName : string; Permissions : list Permission }.

(** [Principal] interface, as implemented by [DefaultPrincipal]. *)
Record Principal := NewDefaultPrincipal {
  ID : string;
  Type_ : string;
  Roles : list string
}.

(** The part of [context.Context] the program reads: the value stored
    under [principalContextKey] and the cancellation signal. *)
Record Context := {
  ctxPrincipal : option Principal;
  ctxDone : bool
}.

Definition Background : Context := {| ctxPrincipal := None; ctxDone := false |}.

Definition PrincipalFromContext (ctx : Context) : option Principal :=
  ctxPrincipal ctx.

Definition ContextWithPrincipal (ctx : Context) (p : Principal) : Context :=
  {| ctxPrincipal := Some p; ctxDone := ctxDone ctx |}.

(** [RBACProvider] interface: the single method [GetRole]. *)
Definition RBACProvider := string -> option Role.

(** [NewConfigRBACProvider]: a later role of the same name overwrites an
    earlier one in [roleMap]. *)
Definition NewConfigRBACProvider (roles : list Role) : RBACProvider :=
  let roleMap : gmap string Role :=
    foldl (fun acc role => <[RoleName role := role]> acc) ∅ roles in
  fun name => roleMap !! name.

(** *** permissionSanitizer

    [regexp.MustCompile(`[^a-zA-Z0-9.-]+`)]: the class of one byte. Every
    byte of a multi-byte or invalid UTF-8 sequence is at least 0x80 and
    so lies outside the allowed set, hence a maximal run of disallowed
    runes is a maximal run of disallowed bytes. *)
Definition allowedChar (c : ascii) : bool :=
  let n := N_of_ascii c in
  ((97 <=? n) && (n <=? 122) || (65 <=? n) && (n <=? 90) ||
   (48 <=? n) && (n <=? 57) || (n =? 46) || (n =? 45))%N.

(** [ReplaceAllString(component, "_")] for the pattern above: each
    maximal run of disallowed bytes becomes one underscore.  [inRun]
    records that the previous byte belonged to the current match. *)
Fixpoint replaceRuns (inRun : bool) (s : string) : string :=
  match s with
  | EmptyString => EmptyString
  | String c rest =>
      if allowedChar c then String c (replaceRuns false rest)
      else if inRun then replaceRuns true rest
      else String "_" (replaceRuns true rest)
  end.

Definition sanitizePermissionComponent (component : string) : string :=
  replaceRuns false component.

(** *** HasPermission *)

(** [len(s) > 2 && s[len(s)-2:] == ".*"] *)
Definition isWildcard (s : string) : bool :=
  (2 <? String.length s) &&
  String.eqb (substring (String.length s - 2) 2 s) ".*".

(** The wildcard test the source writes out twice, once for role names
    and once for role permissions:
    [prefix := s[:len(s)-2]; len(perm) > len(prefix) && perm[:len(prefix)] == prefix]. *)
Definition wildcardGrants (s : string) (perm : Permission) : bool :=
  isWildcard s &&
  (let prefix := substring 0 (String.length s - 2) s in
   (String.length prefix <? String.length perm) &&
   String.eqb (substring 0 (String.length prefix) perm) prefix).

(** First loop of [HasPermission]: role names used as permissions. *)
Fixpoint roleNamesGrant (roles : list string) (perm : Permission) : bool :=
  match roles with
  | [] => false
  | roleName :: rest =>
      if String.eqb roleName perm then true
      else if wildcardGrants roleName perm then true
      else roleNamesGrant rest perm
  end.

(** Inner loop over [role.Permissions]. *)
Fixpoint permissionsGrant (perms : list Permission) (perm : Permission) : bool :=
  match perms with
  | [] => false
  | rolePerm :: rest =>
      if String.eqb rolePerm perm then true
      else if wildcardGrants rolePerm perm then true
      else permissionsGrant rest perm
  end.

(** Second loop of [HasPermission]: roles resolved by the provider. *)
Fixpoint providerGrants (provider : RBACProvider) (roles : list string)
    (perm : Permission) : bool :=
  match roles with
  | [] => false
  | roleName :: rest =>
      match provider roleName with
      | Some role =>
          if permissionsGrant (Permissions role) perm then true
          else providerGrants provider rest perm
      | None => providerGrants provider rest perm
      end
  end.

Definition DefaultAccessController_HasPermission
    (rbacProvider : option RBACProvider) (p : Principal) (perm : Permission) : bool :=
  if roleNamesGrant (Roles p) perm then true
  else match rbacProvider with
       | None => false
       | Some provider => providerGrants provider (Roles p) perm
       end.

(** [AccessController] interface. *)
Record AccessController := {
  CanLog : Context -> Principal -> bool;
  CanAccessMetrics : Context -> Principal -> bool;
  CanPublishEvent : Context -> Principal -> string -> bool;
  CanSubscribeEvent : Context -> Principal -> string -> bool;
  CanAccessConfig : Context -> Principal -> string -> bool;
  CanReloadModule : Context -> Principal -> string -> bool;
  HasPermission : Principal -> Permission -> bool
}.

Definition allowAllAccessController : AccessController := {|
  CanLog := fun _ _ => true;
  CanAccessMetrics := fun _ _ => true;
  CanPublishEvent := fun _ _ _ => true;
  CanSubscribeEvent := fun _ _ _ => true;
  CanAccessConfig := fun _ _ _ => true;
  CanReloadModule := fun _ _ _ => true;
  HasPermission := fun _ _ => true
|}.

Definition DefaultAccessController (rbacProvider : option RBACProvider)
    : AccessController :=
  let has := DefaultAccessController_HasPermission rbacProvider in {|
  CanLog := fun _ p => has p "core.log";
  CanAccessMetrics := fun _ p => has p "core.metrics.access";
  CanPublishEvent := fun _ p eventType =>
    has p ("core.events.publish." +:+ sanitizePermissionComponent eventType);
  CanSubscribeEvent := fun _ p eventType =>
    has p ("core.events.subscribe." +:+ sanitizePermissionComponent eventType);
  CanAccessConfig := fun _ p configKey =>
    has p ("core.config.access." +:+ sanitizePermissionComponent configKey);
  CanReloadModule := fun _ p moduleToReload =>
    has p ("core.module.reload." +:+ sanitizePermissionComponent moduleToReload);
  HasPermission := has
|}.

Definition NewDefaultAccessController (provider : option RBACProvider)
    : AccessController :=
  match provider with
  | None => allowAllAccessController
  | Some _ => DefaultAccessController provider
  end.

(** *** The specification's reading of a grant

    Written from the specification's words, to be compared with
    [DefaultAccessController_HasPermission]: a wildcard [X.*] matches the
    permissions that begin with [X] followed by a dot. *)
Definition specWildcardGrants (s : string) (perm : Permission) : bool :=
  (2 <=? String.length s) &&
  String.eqb (substring (String.length s - 2) 2 s) ".*" &&
  String.prefix (substring 0 (String.length s - 1) s) perm.

Definition specHasPermission (provider : RBACProvider) (p : Principal)
    (perm : Permission) : bool :=
  existsb (fun r => String.eqb r perm) (Roles p) ||
  existsb (fun r => specWildcardGrants r perm) (Roles p) ||
  existsb (fun r =>
    match provider r with
    | Some role =>
        existsb (fun q => String.eqb q perm || specWildcardGrants q perm)
                (Permissions role)
    | None => false
    end) (Roles p).

(** Replacement of every single disallowed byte, as the specification
    words the sanitizer. *)
Fixpoint replaceEach (s : string) : string :=
  match s with
  | EmptyString => EmptyString
  | String c rest =>
      String (if allowedChar c then c else "_"%char) (replaceEach rest)
  end.

(** Every byte of [chunk] lies outside the allowed set. *)
Fixpoint allDisallowed (chunk : string) : bool :=
  match chunk with
  | EmptyString => true
  | String c rest => negb (allowedChar c) && allDisallowed rest
  end.

(** [replacedCharwise s s']: [s'] is [s] with every character outside the
    allowed set replaced by one underscore, where such a character is a
    non-empty sequence of disallowed bytes: one byte, or the bytes of one
    multi-byte rune.  [replaceEach] is the reading with one byte each. *)
Inductive replacedCharwise : string -> string -> Prop :=
| replaced_nil : replacedCharwise "" ""
| replaced_keep c s s' :
    allowedChar c = true -> replacedCharwise s s' ->
    replacedCharwise (String c s) (String c s')
| replaced_char chunk s s' :
    chunk <> "" -> allDisallowed chunk = true -> replacedCharwise s s' ->
    replacedCharwise (chunk +:+ s) (String "_" s').

(** The UTF-8 bytes of U+00E9, and a component that ends with that rune. *)
Definition eAcute : string :=
  String (ascii_of_nat 195) (String (ascii_of_nat 169) EmptyString).

Definition accented : string := "caf" +:+ eAcute.

(** The four helpers that derive a permission from a dynamic component
    decide alike on [s1] and [s2]. *)
Definition sameDecisions (ac : AccessController) (s1 s2 : string) : Prop :=
  forall (ctx : Context) (p : Principal),
    CanPublishEvent ac ctx p s1 = CanPublishEvent ac ctx p s2 /\
    CanSubscribeEvent ac ctx p s1 = CanSubscribeEvent ac ctx p s2 /\
    CanAccessConfig ac ctx p s1 = CanAccessConfig ac ctx p s2 /\
    CanReloadModule ac ctx p s1 = CanReloadModule ac ctx p s2.

(** A principal whose only role is a wildcard. *)
Definition moduleAdmin : Principal := NewDefaultPrincipal "u" "user" ["kernel.module.*"].

(** *** What a grant is, and what a sanitized component is made of *)

(** What one role name or role permission [s] grants, as [HasPermission]
    tests it: [perm] itself, or, when [s] is [X.*] with [X] not empty, every
    [perm] that is [X] followed by at least one more byte. *)
Definition grants (s : string) (perm : Permission) : Prop :=
  s = perm \/
  exists X rest, X <> "" /\ rest <> "" /\ s = X +:+ ".*" /\ perm = X +:+ rest.

(** Every byte of [s] satisfies [P]. *)
Fixpoint allBytes (P : ascii -> bool) (s : string) : bool :=
  match s with
  | EmptyString => true
  | String c rest => P c && allBytes P rest
  end.

(** A byte [sanitizePermissionComponent] may return. *)
Definition safeByte (c : ascii) : bool := allowedChar c || Ascii.eqb c "_".

Definition auditor : Principal :=
  NewDefaultPrincipal "a" "user" ["core.log"].
Definition operator : Principal :=
  NewDefaultPrincipal "o" "user" ["kernel.module.*"; "core.log"].

(** [s] holds two underscores side by side. *)
Fixpoint doubledUnderscore (s : string) : bool :=
  match s with
  | String a (String b _ as rest) =>
      (Ascii.eqb a "_" && Ascii.eqb b "_") || doubledUnderscore rest
  | _ => false
  end.

End Auth.

(** ** core/registry *)

Module Registry.

(** The [interface{}] a registry entry holds: a handle on a service a module
    published, or on a gateway the kernel registered. *)
Inductive Value : Type :=
| ServiceValue (ref : string)
| GatewayValue (name : string).

Record serviceEntry := {
  service : Value;
  moduleName : string
}.

Record DefaultRegistry := {
  services : gmap string serviceEntry;
  accessController : Auth.AccessController;
  gateways : gmap string serviceEntry
}.

Definition NewDefaultRegistry (ac : option Auth.AccessController) : DefaultRegistry := {|
  services := ∅;
  gateways := ∅;
  accessController :=
    match ac with
    | None => Auth.NewDefaultAccessController None
    | Some ac => ac
    end
|}.

Definition withServices (r : DefaultRegistry) (s : gmap string serviceEntry) : DefaultRegistry :=
  {| services := s; accessController := accessController r; gateways := gateways r |}.

Definition withGateways (r : DefaultRegistry) (g : gmap string serviceEntry) : DefaultRegistry :=
  {| services := services r; accessController := accessController r; gateways := g |}.

(** The errors of the package, each a [fmt.Errorf] without [%w]. *)
Definition errServiceExists (name : string) : Go.error :=
  Go.Errorf ("service with name '" +:+ name +:+ "' already registered").

Definition errGatewayExists (name : string) : Go.error :=
  Go.Errorf ("gateway with name '" +:+ name +:+ "' already registered").

Definition errServiceNotFound (name : string) : Go.error :=
  Go.Errorf ("service with name '" +:+ name +:+ "' not found").

Definition errNoPrincipal (name : string) : Go.error :=
  Go.Errorf ("no principal found in context for service access check for '" +:+ name +:+ "'").

Definition errNotAuthorized (p : Auth.Principal) (name : string)
    (permission : Auth.Permission) : Go.error :=
  Go.Errorf ("principal " +:+ Auth.ID p +:+ " (type: " +:+ Auth.Type_ p +:+
          ") is not authorized to access service '" +:+ name +:+
          "' (missing permission: " +:+ permission +:+ ")").

Definition errGatewayNotFound (name : string) : Go.error :=
  Go.Errorf ("gateway with name '" +:+ name +:+ "' not found").

Definition errNoPrincipalGateway (name : string) : Go.error :=
  Go.Errorf ("no principal found in context for gateway access check for '" +:+ name +:+ "'").

Definition errGatewayNotAuthorized (p : Auth.Principal) (name : string)
    (permission : Auth.Permission) : Go.error :=
  Go.Errorf ("principal " +:+ Auth.ID p +:+ " (type: " +:+ Auth.Type_ p +:+
          ") is not authorized to access gateway '" +:+ name +:+
          "' (missing permission: " +:+ permission +:+ ")").

(** Every method takes the registry and returns it with its result. *)
Definition RegisterService (name : string) (svc : Value) (owner : string)
    (r : DefaultRegistry) : option Go.error * DefaultRegistry :=
  match services r !! name with
  | Some _ => (Some (errServiceExists name), r)
  | None =>
      (None, withServices r (<[name := {| service := svc; moduleName := owner |}]> (services r)))
  end.

Definition RegisterGateway (name : string) (gateway : Value)
    (r : DefaultRegistry) : option Go.error * DefaultRegistry :=
  match gateways r !! name with
  | Some _ => (Some (errGatewayExists name), r)
  | None =>
      (None, withGateways r (<[name := {| service := gateway; moduleName := name |}]> (gateways r)))
  end.

Definition UnregisterGateway (name : string) (r : DefaultRegistry) : DefaultRegistry :=
  withGateways r (delete name (gateways r)).

(** [fmt.Sprintf("service.%s.%s.access", entry.moduleName, name)] *)
Definition servicePermission (owner name : string) : Auth.Permission :=
  "service." +:+ owner +:+ "." +:+ name +:+ ".access".

Definition GetService (ctx : Auth.Context) (name : string) (r : DefaultRegistry)
    : (Go.error + Value) * DefaultRegistry :=
  match services r !! name with
  | None => (inl (errServiceNotFound name), r)
  | Some entry =>
      match Auth.PrincipalFromContext ctx with
      | None => (inl (errNoPrincipal name), r)
      | Some p =>
          let permission := servicePermission (moduleName entry) name in
          if negb (Auth.HasPermission (accessController r) p permission)
          then (inl (errNotAuthorized p name permission), r)
          else (inr (service entry), r)
      end
  end.

Definition UnregisterService (name : string) (r : DefaultRegistry) : DefaultRegistry :=
  withServices r (delete name (services r)).

(** [UnregisterServicesByModule] holds [r.mu] for writing while it calls
    [r.UnregisterGateway], which locks [r.mu] again: with a gateway entry
    of that [moduleName] the call never returns. *)
Definition UnregisterServicesByModule (owner : string) (r : DefaultRegistry)
    : Go.Outcome DefaultRegistry unit :=
  let r1 := withServices r (filter (fun '(_, entry) => moduleName entry <> owner) (services r)) in
  if decide (map_Exists (fun _ entry => moduleName entry = owner) (gateways r))
  then Go.Hang
  else Go.Ret tt r1.

(** [fmt.Sprintf("gateway.%s.access", name)] *)
Definition gatewayPermission (name : string) : Auth.Permission :=
  "gateway." +:+ name +:+ ".access".

Definition GetGateway (ctx : Auth.Context) (name : string) (r : DefaultRegistry)
    : (Go.error + Value) * DefaultRegistry :=
  match gateways r !! name with
  | None => (inl (errGatewayNotFound name), r)
  | Some entry =>
      match Auth.PrincipalFromContext ctx with
      | None => (inl (errNoPrincipalGateway name), r)
      | Some p =>
          let permission := gatewayPermission name in
          if negb (Auth.HasPermission (accessController r) p permission)
          then (inl (errGatewayNotAuthorized p name permission), r)
          else (inr (service entry), r)
      end
  end.

(** A registry with one service of module [billing], and a caller holding
    the permission for it. *)
Definition oneService : DefaultRegistry :=
  (RegisterService "invoices" (ServiceValue "invoices-v1") "billing"
     (NewDefaultRegistry (Some (Auth.DefaultAccessController None)))).2.

Definition reader : Auth.Principal :=
  Auth.NewDefaultPrincipal "r" "module" ["service.billing.invoices.access"].

End Registry.

(** ** core/events *)

Module Events.

(** [TypedEvent] interface: [EventType] and whatever else the payload carries. *)
Record TypedEvent := {
  EventType : string;
  Payload : string
}.

(** A buffered channel of [TypedEvent]. *)
Record Chan := {
  buffer : list TypedEvent;
  capacity : nat;
  chanClosed : bool
}.

(** A channel value is a reference: the position of the channel among the
    channels created so far. *)
Abbreviation ChanId := nat.

(** The [bus] struct, and [chans], the channels [Subscribe] has made. *)
Record bus := {
  topics : gmap string (gset ChanId);
  closed : bool;
  chans : list Chan
}.

(** What the scheduler and the runtime choose: the order of each [range]
    over a map, and for a [select] with both the send and [ctx.Done()]
    ready, whether the [ctx.Done()] case is taken. *)
Record Schedule := {
  rangeTopics : gmap string (gset ChanId) -> list (string * gset ChanId);
  rangeSubs : gset ChanId -> list ChanId;
  pickDone : ChanId -> bool
}.

(** Each [range] visits every entry of its map once. *)
Record ScheduleLaws (sched : Schedule) : Prop := {
  rangeTopics_perm : forall m, rangeTopics sched m ≡ₚ map_to_list m;
  rangeSubs_perm : forall s, rangeSubs sched s ≡ₚ elements s
}.

Definition New : bus := {| topics := ∅; closed := false; chans := [] |}.

Definition withTopics (b : bus) (t : gmap string (gset ChanId)) : bus :=
  {| topics := t; closed := closed b; chans := chans b |}.

Definition withChans (b : bus) (c : list Chan) : bus :=
  {| topics := topics b; closed := closed b; chans := c |}.

Definition withClosed (b : bus) (c : bool) : bus :=
  {| topics := topics b; closed := c; chans := chans b |}.

(** [make(chan TypedEvent, 16)] *)
Definition makeChan (b : bus) : ChanId * bus :=
  (length (chans b),
   withChans b (chans b ++ [{| buffer := []; capacity := 16; chanClosed := false |}])).

(** [close(ch)]: closing a closed channel panics. *)
Definition closeChan (ch : ChanId) (b : bus) : Go.Outcome bus unit :=
  match chans b !! ch with
  | None => Go.Panic "close of nil channel" b
  | Some c =>
      if chanClosed c then Go.Panic "close of closed channel" b
      else Go.Ret tt (withChans b
             (<[ch := {| buffer := buffer c; capacity := capacity c; chanClosed := true |}]>
                (chans b)))
  end.

(** [Subscribe]: the sink, and the state; the error is always [nil].  The
    cancel function it returns is [cancel topic ch]. *)
Definition Subscribe (topic : string) (b : bus) : Go.Outcome bus ChanId :=
  let '(ch, b1) := makeChan b in
  if closed b1 then
    match closeChan ch b1 with
    | Go.Ret _ b2 => Go.Ret ch b2
    | Go.Panic v b2 => Go.Panic v b2
    | Go.Hang => Go.Hang
    | Go.OutOfFuel => Go.OutOfFuel
    end
  else
    let subs := default ∅ (topics b1 !! topic) in
    Go.Ret ch (withTopics b1 (<[topic := subs ∪ {[ch]}]> (topics b1))).

Definition cancel (topic : string) (ch : ChanId) (b : bus) : Go.Outcome bus unit :=
  match topics b !! topic with
  | Some subs =>
      if decide (ch ∈ subs) then
        let subs' := subs ∖ {[ch]} in
        match closeChan ch (withTopics b (<[topic := subs']> (topics b))) with
        | Go.Ret _ b1 =>
            if Nat.eqb (size subs') 0
            then Go.Ret tt (withTopics b1 (delete topic (topics b1)))
            else Go.Ret tt b1
        | o => o
        end
      else Go.Ret tt b
  | None => Go.Ret tt b
  end.

(** One iteration of the delivery loop of [Publish]; the result [true]
    stands for the [return] of the [ctx.Done()] case. *)
Definition deliver (sched : Schedule) (ctx : Auth.Context) (payload : TypedEvent)
    (ch : ChanId) (b : bus) : Go.Outcome bus bool :=
  match chans b !! ch with
  | None => Go.Ret (Auth.ctxDone ctx) b
  | Some c =>
      let sendReady := chanClosed c || (length (buffer c) <? capacity c) in
      let send :=
        if chanClosed c then Go.Panic "send on closed channel" b
        else Go.Ret false (withChans b
               (<[ch := {| buffer := buffer c ++ [payload]; capacity := capacity c;
                           chanClosed := false |}]> (chans b))) in
      if sendReady && Auth.ctxDone ctx then
        (if pickDone sched ch then Go.Ret true b else send)
      else if sendReady then send
      else if Auth.ctxDone ctx then Go.Ret true b
      else Go.Ret false b
  end.

Fixpoint deliverAll (sched : Schedule) (ctx : Auth.Context) (payload : TypedEvent)
    (chs : list ChanId) (b : bus) : Go.Outcome bus unit :=
  match chs with
  | [] => Go.Ret tt b
  | ch :: rest =>
      match deliver sched ctx payload ch b with
      | Go.Ret true b1 => Go.Ret tt b1
      | Go.Ret false b1 => deliverAll sched ctx payload rest b1
      | Go.Panic v b1 => Go.Panic v b1
      | Go.Hang => Go.Hang
      | Go.OutOfFuel => Go.OutOfFuel
      end
  end.

Definition Publish (sched : Schedule) (ctx : Auth.Context) (topic : string)
    (payload : TypedEvent) (b : bus) : Go.Outcome bus unit :=
  let subs := default ∅ (topics b !! topic) in
  let chs := rangeSubs sched subs in
  deliverAll sched ctx payload chs b.

(** The inner loop of [Close]. *)
Fixpoint closeChans (chs : list ChanId) (b : bus) : Go.Outcome bus unit :=
  match chs with
  | [] => Go.Ret tt b
  | ch :: rest =>
      match closeChan ch b with
      | Go.Ret _ b1 => closeChans rest b1
      | o => o
      end
  end.

(** The outer loop of [Close]. *)
Fixpoint closeTopics (sched : Schedule) (entries : list (string * gset ChanId))
    (b : bus) : Go.Outcome bus unit :=
  match entries with
  | [] => Go.Ret tt b
  | (topic, subs) :: rest =>
      match closeChans (rangeSubs sched subs) b with
      | Go.Ret _ b1 => closeTopics sched rest (withTopics b1 (delete topic (topics b1)))
      | o => o
      end
  end.

Definition Close (sched : Schedule) (b : bus) : Go.Outcome bus unit :=
  if closed b then Go.Ret tt b
  else
    let b1 := withClosed b true in
    closeTopics sched (rangeTopics sched (topics b1)) b1.

(** A subscriber's receive from its sink, [<-ch]: the oldest buffered
    event, if any. *)
Definition receive (ch : ChanId) (b : bus) : option TypedEvent * bus :=
  match chans b !! ch with
  | Some c =>
      match buffer c with
      | ev :: rest =>
          (Some ev, withChans b
             (<[ch := {| buffer := rest; capacity := capacity c; chanClosed := chanClosed c |}]>
                (chans b)))
      | [] => (None, b)
      end
  | None => (None, b)
  end.

(** A bus in use: its state, and the sinks [Subscribe] has returned so
    far, each with the topic it was asked for.  The cancel function
    returned with the sink [ch] for [topic] is [cancel topic ch]. *)
Definition Usage : Type := bus * list (string * ChanId).

(** One call on the bus that returns: [Subscribe], a cancel function,
    [Publish], [Close], or a subscriber receiving from its sink. *)
Inductive step (sched : Schedule) : Usage -> Usage -> Prop :=
| step_subscribe topic b sinks ch b' :
    Subscribe topic b = Go.Ret ch b' ->
    step sched (b, sinks) (b', sinks ++ [(topic, ch)])
| step_cancel topic ch b sinks b' :
    (topic, ch) ∈ sinks ->
    cancel topic ch b = Go.Ret tt b' ->
    step sched (b, sinks) (b', sinks)
| step_publish ctx topic payload b sinks b' :
    Publish sched ctx topic payload b = Go.Ret tt b' ->
    step sched (b, sinks) (b', sinks)
| step_close b sinks b' :
    Close sched b = Go.Ret tt b' ->
    step sched (b, sinks) (b', sinks)
| step_receive topic ch b sinks :
    (topic, ch) ∈ sinks ->
    step sched (b, sinks) ((receive ch b).2, sinks).

(** The usages a bus made by [New] reaches. *)
Definition reachable (sched : Schedule) (u : Usage) : Prop :=
  rtc (step sched) (New, []) u.

(** The sink [ch] is closed. *)
Definition sinkClosed (b : bus) (ch : ChanId) : Prop :=
  exists c, chans b !! ch = Some c /\ chanClosed c = true.

(** The closed flags of the channels made so far. *)
Definition flags (b : bus) : list bool := chanClosed <$> chans b.

(** What holds of every reachable usage: the sinks returned exist; a
    subscribed channel is open; an open channel is subscribed; no channel is
    subscribed under two topics; a closed bus has no topic. *)
Record wellFormed (u : Usage) : Prop := {
  wf_sinks : forall topic ch, (topic, ch) ∈ u.2 -> ch < length (flags u.1);
  wf_open : forall topic subs ch,
    topics u.1 !! topic = Some subs -> ch ∈ subs -> flags u.1 !! ch = Some false;
  wf_subscribed : forall ch,
    flags u.1 !! ch = Some false ->
    exists topic subs, topics u.1 !! topic = Some subs /\ ch ∈ subs;
  wf_disjoint : forall t1 t2 s1 s2 ch,
    topics u.1 !! t1 = Some s1 -> topics u.1 !! t2 = Some s2 ->
    ch ∈ s1 -> ch ∈ s2 -> t1 = t2;
  wf_closed : closed u.1 = true -> topics u.1 = ∅
}.

(** The channels [closeTopics] closes, in order. *)
Definition allChans (sched : Schedule) (entries : list (string * gset ChanId)) : list ChanId :=
  entries ≫= fun entry => rangeSubs sched entry.2.

(** [b'] differs from [b] in the buffers of its channels at most. *)
Definition sameShape (b b' : bus) : Prop :=
  topics b' = topics b /\ closed b' = closed b /\ flags b' = flags b.

(** **** A bus with two subscribers *)

(** The schedule that follows the maps' own enumeration and sends when it can. *)
Definition plainSchedule : Schedule := {|
  rangeTopics := map_to_list;
  rangeSubs := elements;
  pickDone := fun _ => false
|}.

(** The usage after one more [Subscribe]. *)
Definition afterSubscribe (topic : string) (u : Usage) : Usage :=
  match Subscribe topic u.1 with
  | Go.Ret ch b' => (b', u.2 ++ [(topic, ch)])
  | _ => u
  end.

Definition twoSubscribers : Usage :=
  afterSubscribe "t" (afterSubscribe "t" (New, [])).

Definition hello : TypedEvent := {| EventType := "test"; Payload := "hello" |}.

(** *** What a sink holds *)

(** [ch <- payload] with [default]: the payload joins the buffer when there
    is room, and is dropped when there is none. *)
Definition offer (payload : TypedEvent) (c : Chan) : Chan :=
  if length (buffer c) <? capacity c
  then {| buffer := buffer c ++ [payload]; capacity := capacity c; chanClosed := chanClosed c |}
  else c.

(** What the channels hold, whether closed or not. *)
Definition contents (b : bus) : list (list TypedEvent * nat) :=
  (fun c => (buffer c, capacity c)) <$> chans b.

(** What more holds of every reachable usage: a sink is subscribed under
    the topic it was asked for, if at all; every channel has room for 16
    events and holds no more. *)
Record tracked (u : Usage) : Prop := {
  tr_topic : forall topic ch t subs,
    (topic, ch) ∈ u.2 -> topics u.1 !! t = Some subs -> ch ∈ subs -> t = topic;
  tr_bounded : forall ch evs cap,
    contents u.1 !! ch = Some (evs, cap) -> cap = 16 /\ length evs <= 16
}.

(** [Publish] takes its snapshot of the subscribers under the read lock,
    releases the lock, and sends afterwards.  When another call runs in
    between, the snapshot is of the bus [b] as it was and the sends meet
    the bus [b1] as that call left it. *)
Definition PublishOverlapped (sched : Schedule) (ctx : Auth.Context) (topic : string)
    (payload : TypedEvent) (b b1 : bus) : Go.Outcome bus unit :=
  let subs := default ∅ (topics b !! topic) in
  let chs := rangeSubs sched subs in
  deliverAll sched ctx payload chs b1.

End Events.

(** ** core/kernel *)

Module Kernel.

Export Go.

(** *** Components

    Modules and gateways are code outside the kernel.  The embedding
    describes a component by its identity and by what each lifecycle
    method does when the kernel calls it: it returns [nil] or an error, or
    it panics.  [RegisterServices] also acts on the registry it is given. *)
Inductive CallResult : Type :=
| Returns (err : option error)
| Panics (v : string).

(** A per-component configuration value, [map[string]interface{}]. *)
Definition ConfigValue := gmap string string.

(** Fields of the [Module] interface. *)
Module Mod.
Record t := {
  Name : string;
  Version : string;
  Dependencies : gmap string string;
  OnLoad : CallResult;
  Configure : ConfigValue -> CallResult;
  Start : CallResult;
  OnReady : CallResult;
  RegisterServices : Registry.DefaultRegistry -> Registry.DefaultRegistry * CallResult;
  Stop : CallResult;
  OnConfigChanged : CallResult;
  ShutdownTimeout : Duration
}.
End Mod.

(** Fields of the [Gateway] interface. *)
Module Gw.
Record t := {
  Name : string;
  Start : CallResult;
  Stop : CallResult;
  Configure : ConfigValue -> CallResult;
  ShutdownTimeout : Duration
}.
End Gw.

Abbreviation Module := Mod.t.
Abbreviation Gateway := Gw.t.

(** *** Configuration ([config.Config], the fields the kernel reads) *)
Record TimeoutsConfig := {
  ConfigChange : Z;
  ModuleOperation : Z;
  GatewayOperation : Z
}.

Record Config := {
  Modules : gmap string ConfigValue;
  Gateways : gmap string ConfigValue;
  Timeouts : TimeoutsConfig
}.

(** *** What the kernel does to the outside

    The calls the kernel makes into components and the events it publishes
    on its bus, in order.  A call is recorded with the context it is given:
    the parent it derives from and the timeout put on it. *)
Inductive Parent : Type := FromCaller | FromBackground.

Record CallCtx := {
  parent : Parent;
  timeout : option Duration
}.

Inductive Operation : Type :=
| OpSetEventBus | OpSetRegistry | OpOnLoad | OpConfigure | OpStart
| OpRegisterServices | OpOnReady | OpStop.

Inductive ComponentType : Type := IsModule | IsGateway.

Inductive Event : Type :=
| Called (ctype : ComponentType) (name : string) (op : Operation) (ctx : option CallCtx)
| Published (topic : string) (name : string).

#[export] Instance Operation_eq_dec : EqDecision Operation.
Proof. solve_decision. Defined.

#[export] Instance ComponentType_eq_dec : EqDecision ComponentType.
Proof. solve_decision. Defined.

(** *** Predefined errors and event types *)
Definition errDuplicate : error := Errorf "duplicate name".
Definition errNotFound : error := Errorf "not found".
Definition errAlreadyRunning : error := Errorf "kernel already running".
Definition errNotRunning : error := Errorf "kernel not running".
Definition errVersion : error := Errorf "version conflict".
Definition errCircular : error := Errorf "circular dependency detected among modules".

Definition moduleOperationTimeout : Duration := wrap64 (30 * Second).

Definition GatewayStartedEventType : string := "gateway.started".

(** *** github.com/Masterminds/semver/v3

    The library is not part of the repository; the kernel uses these three
    functions of it. *)
Class Semver := {
  SemVersion : Type;
  SemConstraints : Type;
  NewVersion : string -> error + SemVersion;
  NewConstraint : string -> error + SemConstraints;
  Check : SemConstraints -> SemVersion -> bool
}.

(** *** Iteration order of [range] over a map

    Go leaves the order of each [range] over a map open.  Each [range]
    whose order shows in the result takes it from [rangeOrder], at its own
    site. *)
Inductive RangeSite : Type :=
| AtGraphBuild
| AtDependencies (name : string)
| AtQueueSeed
| AtGatewaysStart
| AtGatewaysStop.

Class MapOrder := {
  rangeOrder : forall {A : Type}, RangeSite -> gmap string A -> list (string * A)
}.

(** Each [range] visits every entry of its map once. *)
Class MapOrderLaws `{MapOrder} : Prop := {
  rangeOrder_perm : forall (A : Type) (site : RangeSite) (m : gmap string A),
    rangeOrder site m ≡ₚ map_to_list m
}.

(** *** The kernel *)
Record kernel := {
  config : Config;
  modules : gmap string Module;
  gateways : gmap string Gateway;
  moduleStates : gmap string bool;
  running : bool;
  accessController : Auth.AccessController;
  registry : Registry.DefaultRegistry;
  (** not a field of the struct: the record of what the kernel did outside *)
  trace : list Event
}.

Definition New (cfg : Config) (ac : option Auth.AccessController) : kernel :=
  let ac :=
    match ac with
    | None => Auth.NewDefaultAccessController None
    | Some ac => ac
    end in {|
  config := cfg;
  modules := ∅;
  gateways := ∅;
  moduleStates := ∅;
  running := false;
  accessController := ac;
  registry := Registry.NewDefaultRegistry (Some ac);
  trace := []
|}.

Definition setModules (f : gmap string Module -> gmap string Module) (k : kernel) : kernel :=
  {| config := config k; modules := f (modules k); gateways := gateways k;
     moduleStates := moduleStates k; running := running k;
     accessController := accessController k; registry := registry k; trace := trace k |}.

Definition setModuleStates (f : gmap string bool -> gmap string bool) (k : kernel) : kernel :=
  {| config := config k; modules := modules k; gateways := gateways k;
     moduleStates := f (moduleStates k); running := running k;
     accessController := accessController k; registry := registry k; trace := trace k |}.

Definition setRunning (b : bool) (k : kernel) : kernel :=
  {| config := config k; modules := modules k; gateways := gateways k;
     moduleStates := moduleStates k; running := b;
     accessController := accessController k; registry := registry k; trace := trace k |}.

Definition setRegistry (r : Registry.DefaultRegistry) (k : kernel) : kernel :=
  {| config := config k; modules := modules k; gateways := gateways k;
     moduleStates := moduleStates k; running := running k;
     accessController := accessController k; registry := r; trace := trace k |}.

Definition record (e : Event) (k : kernel) : kernel :=
  {| config := config k; modules := modules k; gateways := gateways k;
     moduleStates := moduleStates k; running := running k;
     accessController := accessController k; registry := registry k;
     trace := trace k ++ [e] |}.

(** *** Kernel methods as state transformers *)
Definition M (A : Type) : Type := kernel -> Outcome kernel A.

Definition ret {A : Type} (a : A) : M A := fun k => Ret a k.

Definition bind {A B : Type} (c : M A) (f : A -> M B) : M B :=
  fun k =>
    match c k with
    | Ret a k' => f a k'
    | Panic v k' => Panic v k'
    | Hang => Hang
    | OutOfFuel => OutOfFuel
    end.

Declare Scope kernel_scope.
Delimit Scope kernel_scope with kernel.
Notation "'let*' x ':=' c 'in' f" := (bind c (fun x => f))
  (at level 10, x name, c at level 100, f at level 200) : kernel_scope.
Notation "c ';;' f" := (bind c (fun _ => f))
  (at level 100, f at level 200, right associativity) : kernel_scope.
Local Open Scope kernel_scope.

Definition get : M kernel := fun k => Ret k k.

Definition modify (f : kernel -> kernel) : M unit := fun k => Ret tt (f k).

(** A call of a component method: it is recorded, then returns or panics. *)
Definition call (ctype : ComponentType) (name : string) (op : Operation)
    (ctx : option CallCtx) (r : CallResult) : M (option error) :=
  fun k =>
    let k' := record (Called ctype name op ctx) k in
    match r with
    | Returns err => Ret err k'
    | Panics v => Panic v k'
    end.

(** [componentType] as [safelyExecute] prints it. *)
Definition typeName (ctype : ComponentType) : string :=
  match ctype with IsModule => "module" | IsGateway => "gateway" end.

(** [safelyExecute]: a panic of [fn] becomes an error. *)
Definition safelyExecute (componentName : string) (componentType : ComponentType)
    (operation : string) (fn : M (option error)) : M (option error) :=
  fun k =>
    match fn k with
    | Panic v k' =>
        Ret (Some (Errorf ("panic in " +:+ typeName componentType +:+ " " +:+ componentName +:+
                        " during " +:+ operation +:+ ": " +:+ v))) k'
    | o => o
    end.

(** What a finished call shows: its result, the calls made outside and
    the [running] flag. *)
Definition observe {A : Type} (o : Outcome kernel A) : option (A * list Event * bool) :=
  match o with
  | Ret a k => Some (a, trace k, running k)
  | _ => None
  end.

(** [time.Duration(k.config.Timeouts.ModuleOperation) * time.Second] *)
Definition moduleOperation (k : kernel) : Duration :=
  seconds (ModuleOperation (Timeouts (config k))).

Definition gatewayOperation (k : kernel) : Duration :=
  seconds (GatewayOperation (Timeouts (config k))).

Definition withTimeout (p : Parent) (d : Duration) : option CallCtx :=
  Some {| parent := p; timeout := Some d |}.

Definition plainCtx (p : Parent) : option CallCtx :=
  Some {| parent := p; timeout := None |}.

(** [m.RegisterServices(k.registry)] *)
Definition callRegisterServices (m : Module) : M (option error) :=
  fun k =>
    let '(reg, r) := Mod.RegisterServices m (registry k) in
    call IsModule (Mod.Name m) OpRegisterServices None r (setRegistry reg k).

(** [es] recorded after what [k] has recorded. *)
Definition recordAll (es : list Event) (k : kernel) : kernel :=
  {| config := config k; modules := modules k; gateways := gateways k;
     moduleStates := moduleStates k; running := running k;
     accessController := accessController k; registry := registry k;
     trace := trace k ++ es |}.

(** The calls [Start] makes on a module. *)
Definition startCall (m : Module) : Event :=
  Called IsModule (Mod.Name m) OpStart (plainCtx FromCaller).

Definition stopCall (m : Module) : Event :=
  Called IsModule (Mod.Name m) OpStop (plainCtx FromBackground).

Definition onReadyCall (m : Module) : Event :=
  Called IsModule (Mod.Name m) OpOnReady (plainCtx FromCaller).

Definition boundedStopCall (m : Module) : Event :=
  Called IsModule (Mod.Name m) OpStop (withTimeout FromBackground (Mod.ShutdownTimeout m)).

(** [%q] of a string without characters to escape. *)
Definition quoted (s : string) : string :=
  String (ascii_of_nat 34) s +:+ String (ascii_of_nat 34) EmptyString.

Section Methods.

Context `{Semver} `{MapOrder}.

(** *** getModuleStartupOrder *)

(** [enabledModules]: the modules whose [moduleStates] entry is [true]. *)
Definition enabledModules (k : kernel) : gmap string Module :=
  filter (fun entry => default false (moduleStates k !! entry.1) = true) (modules k).

(** [graph] and [inDegree] of the function. *)
Record Graph := {
  graph : gmap string (list string);
  inDegree : gmap string Z
}.

(** Body of the loop over [m.Dependencies()]. *)
Definition addDependency (enabled : gmap string Module) (name : string)
    (g : Graph) (d : string * string) : error + Graph :=
  let '(depName, constraintStr) := d in
  match enabled !! depName with
  | None =>
      inl (Errorf ("module " +:+ quoted name +:+
                   " depends on non-existent or disabled module " +:+ quoted depName))
  | Some dep =>
      match NewConstraint constraintStr with
      | inl err =>
          inl (Errorw ("module " +:+ quoted name +:+
                       " has invalid version constraint for dependency " +:+ quoted depName) err)
      | inr c =>
          match NewVersion (Mod.Version dep) with
          | inl err =>
              inl (Errorw ("dependency module " +:+ quoted depName +:+
                           " has invalid version " +:+ quoted (Mod.Version dep)) err)
          | inr depVersion =>
              if negb (Check c depVersion) then
                inl (Errorw ("module " +:+ quoted name +:+ " requires version " +:+
                             quoted constraintStr +:+ " of " +:+ quoted depName +:+
                             ", but found version " +:+ quoted (Mod.Version dep)) errVersion)
              else
                inr {| graph := <[depName := default [] (graph g !! depName) ++ [name]]> (graph g);
                       inDegree := <[name := (default 0 (inDegree g !! name) + 1)%Z]> (inDegree g) |}
          end
      end
  end.

Fixpoint addDependencies (enabled : gmap string Module) (name : string)
    (deps : list (string * string)) (g : Graph) : error + Graph :=
  match deps with
  | [] => inr g
  | d :: rest =>
      match addDependency enabled name g d with
      | inl err => inl err
      | inr g' => addDependencies enabled name rest g'
      end
  end.

(** Body of the loop that builds the graph. *)
Definition addModuleEdges (enabled : gmap string Module) (g : Graph)
    (entry : string * Module) : error + Graph :=
  let '(name, m) := entry in
  match NewVersion (Mod.Version m) with
  | inl err =>
      inl (Errorw ("module " +:+ quoted name +:+ " has invalid version " +:+
                   quoted (Mod.Version m)) err)
  | inr _ =>
      addDependencies enabled name (rangeOrder (AtDependencies name) (Mod.Dependencies m)) g
  end.

Fixpoint buildGraph (enabled : gmap string Module) (entries : list (string * Module))
    (g : Graph) : error + Graph :=
  match entries with
  | [] => inr g
  | entry :: rest =>
      match addModuleEdges enabled g entry with
      | inl err => inl err
      | inr g' => buildGraph enabled rest g'
      end
  end.

(** The queue holds interface values: [None] is the [nil] that
    [enabledModules[dependentName]] gives for a missing key. *)
Definition seedQueue (inDeg : gmap string Z) (entries : list (string * Module))
    : list (option Module) :=
  omap (fun entry : string * Module =>
          if (default 0 (inDeg !! entry.1) =? 0)%Z then Some (Some entry.2) else None)
       entries.

(** Body of the loop over [graph[m.Name()]]. *)
Definition relax (enabled : gmap string Module)
    (st : gmap string Z * list (option Module)) (dependentName : string)
    : gmap string Z * list (option Module) :=
  let '(inDeg, queue) := st in
  let d := (default 0 (inDeg !! dependentName) - 1)%Z in
  let inDeg' := <[dependentName := d]> inDeg in
  if (d =? 0)%Z then (inDeg', queue ++ [enabled !! dependentName]) else (inDeg', queue).

(** The loop [for len(queue) > 0], at most [fuel] times round. *)
Fixpoint kahn (fuel : nat) (enabled : gmap string Module) (gr : gmap string (list string))
    (inDeg : gmap string Z) (queue : list (option Module)) (orderedModules : list Module)
    : M (list Module) :=
  match queue with
  | [] => ret orderedModules
  | m :: queue' =>
      match fuel with
      | O => fun _ => OutOfFuel
      | S fuel' =>
          match m with
          | None => fun k => Panic "invalid memory address or nil pointer dereference" k
          | Some m =>
              let '(inDeg', queue'') :=
                foldl (relax enabled) (inDeg, queue') (default [] (gr !! Mod.Name m)) in
              kahn fuel' enabled gr inDeg' queue'' (orderedModules ++ [m])
          end
      end
  end.

Definition getModuleStartupOrder : M (error + list Module) :=
  let* k := get in
  let enabled := enabledModules k in
  let g0 := {| graph := ∅; inDegree := (fun _ => 0%Z) <$> enabled |} in
  match buildGraph enabled (rangeOrder AtGraphBuild enabled) g0 with
  | inl err => ret (inl err)
  | inr g =>
      let queue := seedQueue (inDegree g) (rangeOrder AtQueueSeed enabled) in
      let* orderedModules := kahn (size enabled) enabled (graph g) (inDegree g) queue [] in
      if negb (length orderedModules =? size enabled)
      then ret (inl errCircular)
      else ret (inr orderedModules)
  end.

Definition getModuleShutdownOrder : M (error + list Module) :=
  let* r := getModuleStartupOrder in
  match r with
  | inl err => ret (inl err)
  | inr startupOrder => ret (inr (reverse startupOrder))
  end.

(** *** AddModule and RemoveModule *)

Definition AddModule (ctx : Auth.Context) (m : option Module) : M (option error) :=
  match m with
  | None => ret (Some (Errorf "module is nil"))
  | Some m =>
  let name := Mod.Name m in
  if String.eqb name "" then ret (Some (Errorf "module name is empty")) else
  match Auth.PrincipalFromContext ctx with
  | None =>
      ret (Some (Errorf ("security violation: no principal in context for AddModule " +:+ name)))
  | Some principal =>
  let* k := get in
  if negb (Auth.HasPermission (accessController k) principal "kernel.module.add") then
    ret (Some (Errorf ("access denied: principal " +:+ Auth.ID principal +:+
                       " cannot add module " +:+ name)))
  else
  match modules k !! name with
  | Some _ => ret (Some (Errorw ("module " +:+ name) errDuplicate))
  | None =>
  modify (setModules (insert name m));;
  modify (setModuleStates (insert name true));;
  let running := running k in
  call IsModule name OpSetEventBus None (Returns None);;
  call IsModule name OpSetRegistry None (Returns None);;
  let* err := safelyExecute (Mod.Name m) IsModule "OnLoad"
                (call IsModule name OpOnLoad (withTimeout FromCaller (moduleOperation k))
                      (Mod.OnLoad m)) in
  match err with
  | Some err =>
      modify (setModules (delete name));;
      ret (Some (Errorw ("module " +:+ name +:+ " OnLoad") err))
  | None =>
  let* err :=
    match Modules (config k) !! name with
    | Some moduleConfig =>
        safelyExecute (Mod.Name m) IsModule "Configure"
          (call IsModule name OpConfigure None (Mod.Configure m moduleConfig))
    | None => ret None
    end in
  match err with
  | Some err => ret (Some (Errorw ("configure module " +:+ name) err))
  | None =>
  if running then
    let* err := safelyExecute (Mod.Name m) IsModule "Start"
                  (call IsModule name OpStart (withTimeout FromCaller (moduleOperation k))
                        (Mod.Start m)) in
    match err with
    | Some err =>
        modify (setModules (delete name));;
        ret (Some (Errorw ("start module " +:+ name) err))
    | None =>
        safelyExecute (Mod.Name m) IsModule "RegisterServices" (callRegisterServices m);;
        safelyExecute (Mod.Name m) IsModule "OnReady"
          (call IsModule name OpOnReady (withTimeout FromCaller (moduleOperation k))
                (Mod.OnReady m));;
        ret None
    end
  else ret None
  end end end end end.

(** [k.registry.UnregisterServicesByModule(name)] *)
Definition unregisterServicesByModule (name : string) : M unit :=
  fun k =>
    match Registry.UnregisterServicesByModule name (registry k) with
    | Ret _ reg => Ret tt (setRegistry reg k)
    | Panic v _ => Panic v k
    | Hang => Hang
    | OutOfFuel => OutOfFuel
    end.

Definition RemoveModule (ctx : Auth.Context) (name : string) : M (option error) :=
  if String.eqb name "" then ret (Some (Errorf "module name is empty")) else
  match Auth.PrincipalFromContext ctx with
  | None =>
      ret (Some (Errorf ("security violation: no principal in context for RemoveModule " +:+ name)))
  | Some principal =>
  let* k := get in
  if negb (Auth.HasPermission (accessController k) principal "kernel.module.remove") then
    ret (Some (Errorf ("access denied: principal " +:+ Auth.ID principal +:+
                       " cannot remove module " +:+ name)))
  else
  match modules k !! name with
  | None => ret (Some (Errorw ("module " +:+ name) errNotFound))
  | Some m =>
  let running := running k in
  modify (setModules (delete name));;
  modify (setModuleStates (delete name));;
  unregisterServicesByModule name;;
  if running then
    let* err := safelyExecute (Mod.Name m) IsModule "Stop"
                  (call IsModule (Mod.Name m) OpStop
                        (withTimeout FromCaller (moduleOperation k)) (Mod.Stop m)) in
    match err with
    | Some err =>
        modify (setModules (insert name m));;
        modify (setModuleStates (insert name true));;
        ret (Some (Errorw ("stop module " +:+ name) err))
    | None => ret None
    end
  else ret None
  end end.

(** *** EnableModule and DisableModule *)

Definition EnableModule (ctx : Auth.Context) (name : string) : M (option error) :=
  match Auth.PrincipalFromContext ctx with
  | None =>
      ret (Some (Errorf ("security violation: no principal in context for EnableModule " +:+ name)))
  | Some principal =>
  let* k := get in
  if negb (Auth.HasPermission (accessController k) principal "kernel.module.enable") then
    ret (Some (Errorf ("access denied: principal " +:+ Auth.ID principal +:+
                       " cannot enable module " +:+ name)))
  else
  match modules k !! name with
  | None => ret (Some (Errorw ("module " +:+ name) errNotFound))
  | Some m =>
  modify (setModuleStates (insert name true));;
  if running k then
    let* err := call IsModule (Mod.Name m) OpStart
                     (withTimeout FromCaller (moduleOperation k)) (Mod.Start m) in
    match err with
    | Some err => ret (Some (Errorw ("start enabled module " +:+ name) err))
    | None => ret None
    end
  else ret None
  end end.

Definition DisableModule (ctx : Auth.Context) (name : string) : M (option error) :=
  match Auth.PrincipalFromContext ctx with
  | None =>
      ret (Some (Errorf ("security violation: no principal in context for DisableModule " +:+ name)))
  | Some principal =>
  let* k := get in
  if negb (Auth.HasPermission (accessController k) principal "kernel.module.disable") then
    ret (Some (Errorf ("access denied: principal " +:+ Auth.ID principal +:+
                       " cannot disable module " +:+ name)))
  else
  match modules k !! name with
  | None => ret (Some (Errorw ("module " +:+ name) errNotFound))
  | Some m =>
  modify (setModuleStates (insert name false));;
  if running k then
    let* err := call IsModule (Mod.Name m) OpStop
                     (withTimeout FromCaller (moduleOperation k)) (Mod.Stop m) in
    match err with
    | Some err => ret (Some (Errorw ("stop disabled module " +:+ name) err))
    | None => ret None
    end
  else ret None
  end end.

(** *** Start *)

(** [_ = m.Stop(context.Background())]: the error is dropped, a panic is not
    caught. *)
Definition stopBestEffort (m : Module) : M unit :=
  call IsModule (Mod.Name m) OpStop (plainCtx FromBackground) (Mod.Stop m);; ret tt.

(** The loop [for i := len(orderedModules) - 1; i >= 0; i--] that follows a
    failed [Start] of the module named [failed]: [reversed] is
    [orderedModules] from its last element down. *)
Fixpoint stopDownTo (failed : string) (reversed : list Module) : M unit :=
  match reversed with
  | [] => ret tt
  | m :: rest =>
      if String.eqb (Mod.Name m) failed then ret tt
      else stopBestEffort m;; stopDownTo failed rest
  end.

(** The same loop without the [break]: every module, last to first. *)
Fixpoint stopAllModules (reversed : list Module) : M unit :=
  match reversed with
  | [] => ret tt
  | m :: rest => stopBestEffort m;; stopAllModules rest
  end.

(** "Start modules in dependency order": [Some err] is the [return] of the
    failure branch, [None] means the loop ran to its end. *)
Fixpoint startModules (orderedModules rest : list Module) : M (option error) :=
  match rest with
  | [] => ret None
  | m :: rest' =>
      let* err := safelyExecute (Mod.Name m) IsModule "Start"
                    (call IsModule (Mod.Name m) OpStart (plainCtx FromCaller) (Mod.Start m)) in
      match err with
      | Some err =>
          modify (setRunning false);;
          stopDownTo (Mod.Name m) (reverse orderedModules);;
          ret (Some (Errorw ("start module " +:+ Mod.Name m) err))
      | None => startModules orderedModules rest'
      end
  end.

(** "Call RegisterServices for all started modules". *)
Fixpoint registerServices (orderedModules rest : list Module) : M (option error) :=
  match rest with
  | [] => ret None
  | m :: rest' =>
      let* err := safelyExecute (Mod.Name m) IsModule "RegisterServices"
                    (callRegisterServices m) in
      match err with
      | Some err =>
          stopAllModules (reverse orderedModules);;
          ret (Some (Errorw ("module " +:+ Mod.Name m +:+ " RegisterServices") err))
      | None => registerServices orderedModules rest'
      end
  end.

(** "Call OnReady for all started modules". *)
Fixpoint onReadyModules (rest : list Module) : M (option error) :=
  match rest with
  | [] => ret None
  | m :: rest' =>
      let* err := safelyExecute (Mod.Name m) IsModule "OnReady"
                    (call IsModule (Mod.Name m) OpOnReady (plainCtx FromCaller) (Mod.OnReady m)) in
      match err with
      | Some err =>
          call IsModule (Mod.Name m) OpStop
               (withTimeout FromBackground (Mod.ShutdownTimeout m)) (Mod.Stop m);;
          ret (Some (Errorw ("module " +:+ Mod.Name m +:+ " OnReady") err))
      | None => onReadyModules rest'
      end
  end.

(** [for _, started := range gatewaysToStart { if started == g { break } ... }] *)
Fixpoint stopGatewaysBefore (failed : string) (gatewaysToStart : list Gateway) : M unit :=
  match gatewaysToStart with
  | [] => ret tt
  | started :: rest =>
      if String.eqb (Gw.Name started) failed then ret tt
      else
        call IsGateway (Gw.Name started) OpStop (plainCtx FromBackground) (Gw.Stop started);;
        stopGatewaysBefore failed rest
  end.

(** "Then gateways". *)
Fixpoint startGateways (gatewayStartTimeout : Duration) (orderedModules : list Module)
    (gatewaysToStart rest : list Gateway) : M (option error) :=
  match rest with
  | [] => ret None
  | g :: rest' =>
      let* err := safelyExecute (Gw.Name g) IsGateway "Start"
                    (call IsGateway (Gw.Name g) OpStart
                          (withTimeout FromCaller gatewayStartTimeout) (Gw.Start g)) in
      match err with
      | Some err =>
          modify (setRunning false);;
          stopGatewaysBefore (Gw.Name g) gatewaysToStart;;
          stopAllModules (reverse orderedModules);;
          ret (Some (Errorw ("start gateway " +:+ Gw.Name g) err))
      | None =>
          modify (record (Published GatewayStartedEventType (Gw.Name g)));;
          startGateways gatewayStartTimeout orderedModules gatewaysToStart rest'
      end
  end.

(** [modulesToStart], the snapshot [Start] takes under the lock. *)
Definition modulesToStart (k : kernel) : list Module :=
  (map_to_list (enabledModules k)).*2.

Definition Start (ctx : Auth.Context) : M (option error) :=
  let* k := get in
  if running k then ret (Some errAlreadyRunning) else
  modify (setRunning true);;
  let gatewaysToStart := (rangeOrder AtGatewaysStart (gateways k)).*2 in
  let* order := getModuleStartupOrder in
  match order with
  | inl err =>
      modify (setRunning false);;
      ret (Some (Errorw "module startup order" err))
  | inr orderedModules =>
  let* err := startModules orderedModules orderedModules in
  match err with Some err => ret (Some err) | None =>
  let* err := registerServices orderedModules orderedModules in
  match err with Some err => ret (Some err) | None =>
  let* err := onReadyModules orderedModules in
  match err with Some err => ret (Some err) | None =>
  let* err := startGateways (gatewayOperation k) orderedModules gatewaysToStart gatewaysToStart in
  match err with Some err => ret (Some err) | None =>
  ret None
  end end end end end.

(** *** Stop *)

(** [timeout := c.ShutdownTimeout(); if timeout <= 0 { timeout = fallback }] *)
Definition stopTimeout (own fallback : Duration) : Duration :=
  if (own <=? 0)%Z then fallback else own.

Fixpoint stopGateways (gatewayStopTimeout : Duration) (gatewaysToStop : list Gateway)
    (firstErr : option error) : M (option error) :=
  match gatewaysToStop with
  | [] => ret firstErr
  | g :: rest =>
      let timeout := stopTimeout (Gw.ShutdownTimeout g) gatewayStopTimeout in
      let* err := safelyExecute (Gw.Name g) IsGateway "Stop"
                    (call IsGateway (Gw.Name g) OpStop (withTimeout FromCaller timeout)
                          (Gw.Stop g)) in
      match err, firstErr with
      | Some err, None =>
          stopGateways gatewayStopTimeout rest (Some (Errorw ("stop gateway " +:+ Gw.Name g) err))
      | _, _ => stopGateways gatewayStopTimeout rest firstErr
      end
  end.

Fixpoint stopModules (moduleStopTimeout : Duration) (orderedModulesToStop : list Module)
    (firstErr : option error) : M (option error) :=
  match orderedModulesToStop with
  | [] => ret firstErr
  | m :: rest =>
      let timeout := stopTimeout (Mod.ShutdownTimeout m) moduleStopTimeout in
      let* err := safelyExecute (Mod.Name m) IsModule "Stop"
                    (call IsModule (Mod.Name m) OpStop (withTimeout FromCaller timeout)
                          (Mod.Stop m)) in
      match err, firstErr with
      | Some err, None =>
          stopModules moduleStopTimeout rest (Some (Errorw ("stop module " +:+ Mod.Name m) err))
      | _, _ => stopModules moduleStopTimeout rest firstErr
      end
  end.

Definition Stop (ctx : Auth.Context) : M (option error) :=
  let* k := get in
  if negb (running k) then ret (Some errNotRunning) else
  modify (setRunning false);;
  let* order := getModuleShutdownOrder in
  let orderedModulesToStop :=
    match order with
    | inl _ => []
    | inr orderedModulesToStop => orderedModulesToStop
    end in
  let gatewaysToStop := (rangeOrder AtGatewaysStop (gateways k)).*2 in
  let* firstErr := stopGateways (gatewayOperation k) gatewaysToStop None in
  stopModules (moduleOperation k) orderedModulesToStop firstErr.

Definition Running : M bool :=
  let* k := get in ret (running k).

End Methods.

(** *** The dependency graph of the enabled modules *)

(** The enabled module [n] declares a dependency on [d]. *)
Definition dependsOn (enabled : gmap string Module) (n d : string) : Prop :=
  exists m, enabled !! n = Some m /\ is_Some (Mod.Dependencies m !! d).

(** An edge of the graph: dependency [d], dependent [n]. *)
Definition edge (enabled : gmap string Module) (d n : string) : Prop :=
  dependsOn enabled n d.

(** The graph has a cycle: some module reaches itself along edges. *)
Definition hasCycle (enabled : gmap string Module) : Prop :=
  exists n, tc (edge enabled) n n.

(** The version of [m] parses, and each dependency [m] declares is an
    enabled module whose version parses and satisfies the constraint,
    which parses too. *)
Definition satisfiable `{Semver} (enabled : gmap string Module) (m : Module) : Prop :=
  (exists v, NewVersion (Mod.Version m) = inr v) /\
  forall d c, Mod.Dependencies m !! d = Some c ->
    exists dep cs v, enabled !! d = Some dep /\ NewConstraint c = inr cs /\
      NewVersion (Mod.Version dep) = inr v /\ Check cs v = true.

Definition wellVersioned `{Semver} (enabled : gmap string Module) : Prop :=
  forall n m, enabled !! n = Some m -> satisfiable enabled m.

(** Every module is stored under its own name, as [AddModule] stores it. *)
Definition keyedByName (ms : gmap string Module) : Prop :=
  forall n m, ms !! n = Some m -> Mod.Name m = n.

(** Every declared dependency of a module of [order] stands before it. *)
Definition topological (order : list Module) : Prop :=
  forall j m d, order !! j = Some m -> is_Some (Mod.Dependencies m !! d) ->
    exists i dep, i < j /\ order !! i = Some dep /\ Mod.Name dep = d.

(** *** What a call leaves alone *)

(** [k'] has the module map and the enabled-state map of [k]. *)
Definition sameMaps (k k' : kernel) : Prop :=
  modules k' = modules k /\ moduleStates k' = moduleStates k.

(** The same, but for the entries of the name [n]. *)
Definition sameMapsBut (n : string) (k k' : kernel) : Prop :=
  forall x, x <> n ->
    modules k' !! x = modules k !! x /\ moduleStates k' !! x = moduleStates k !! x.

(** Whenever [c] returns or panics, [R] relates the state before to the
    state after. *)
Definition always {A : Type} (R : kernel -> kernel -> Prop) (c : M A) : Prop :=
  forall k,
    match c k with
    | Ret _ k' | Panic _ k' => R k k'
    | Hang | OutOfFuel => True
    end.

(** [m] is registered under its name and marked enabled. *)
Definition enabledAs (m : Module) (k : kernel) : Prop :=
  modules k !! Mod.Name m = Some m /\ moduleStates k !! Mod.Name m = Some true.

(** *** Gateways, lookups and listings *)

Definition setGateways (f : gmap string Gateway -> gmap string Gateway) (k : kernel) : kernel :=
  {| config := config k; modules := modules k; gateways := f (gateways k);
     moduleStates := moduleStates k; running := running k;
     accessController := accessController k; registry := registry k; trace := trace k |}.

(** [k.registry.RegisterGateway(name, g)]: the registry keeps a handle on
    the gateway. *)
Definition registerGateway (name : string) (g : Gateway) : M (option error) :=
  fun k =>
    let '(err, reg) := Registry.RegisterGateway name (Registry.GatewayValue (Gw.Name g))
                         (registry k) in
    Ret err (setRegistry reg k).

(** [k.registry.UnregisterGateway(name)] *)
Definition unregisterGateway (name : string) : M unit :=
  modify (fun k => setRegistry (Registry.UnregisterGateway name (registry k)) k).

(** *** AddGateway and RemoveGateway

    Neither takes a context: there is no principal to check.  [Configure],
    [Start] and [Stop] of the gateway are called without [safelyExecute]. *)
Definition AddGateway (g : option Gateway) : M (option error) :=
  match g with
  | None => ret (Some (Errorf "gateway is nil"))
  | Some g =>
  let name := Gw.Name g in
  if String.eqb name "" then ret (Some (Errorf "gateway name is empty")) else
  let* k := get in
  match gateways k !! name with
  | Some _ => ret (Some (Errorw ("gateway " +:+ name) errDuplicate))
  | None =>
  let* err :=
    match Gateways (config k) !! name with
    | Some gatewayConfig =>
        call IsGateway name OpConfigure None (Gw.Configure g gatewayConfig)
    | None => ret None
    end in
  match err with
  | Some err => ret (Some (Errorw ("configure gateway " +:+ name) err))
  | None =>
  modify (setGateways (insert name g));;
  let running := running k in
  call IsGateway name OpSetEventBus None (Returns None);;
  let* err := registerGateway name g in
  match err with
  | Some err => ret (Some (Errorw ("register gateway " +:+ name +:+ " with registry") err))
  | None =>
  if running then
    let* err := call IsGateway name OpStart
                     (withTimeout FromBackground (gatewayOperation k)) (Gw.Start g) in
    match err with
    | Some err =>
        modify (setGateways (delete name));;
        unregisterGateway name;;
        ret (Some (Errorw ("start gateway " +:+ name) err))
    | None => ret None
    end
  else ret None
  end end end end.

Definition RemoveGateway (name : string) : M (option error) :=
  if String.eqb name "" then ret (Some (Errorf "gateway name is empty")) else
  let* k := get in
  match gateways k !! name with
  | None => ret (Some (Errorw ("gateway " +:+ name) errNotFound))
  | Some g =>
  let running := running k in
  modify (setGateways (delete name));;
  unregisterGateway name;;
  if running then
    let* err := call IsGateway (Gw.Name g) OpStop
                     (withTimeout FromBackground (gatewayOperation k)) (Gw.Stop g) in
    match err with
    | Some err =>
        modify (setGateways (insert name g));;
        registerGateway name g;;
        ret (Some (Errorw ("stop gateway " +:+ name) err))
    | None => ret None
    end
  else ret None
  end.

(** *** GetModule, GetGateway, ListModules, ListGateways *)

Definition GetModule (name : string) : M (option Module) :=
  let* k := get in ret (modules k !! name).

Definition GetGateway (name : string) : M (option Gateway) :=
  let* k := get in ret (gateways k !! name).

(** The [range] loops of the two listings, each with an iteration order of
    its own. *)
Inductive ListingSite : Type :=
| AtListModules | AtListGateways.

Class ListingOrder := {
  listingOrder : forall {A : Type}, ListingSite -> gmap string A -> list (string * A)
}.

Class ListingOrderLaws `{ListingOrder} : Prop := {
  listingOrder_perm : forall (A : Type) (site : ListingSite) (m : gmap string A),
    listingOrder site m ≡ₚ map_to_list m
}.

(** [sort.Strings]: the names in increasing order, byte by byte.  The
    library is not part of the repository; equal strings cannot be told
    apart, so what it returns is fixed by its input, and a merge sort
    returns the same. *)
Definition sortStrings (names : list string) : list string := merge_sort String.le names.

Definition ListModules `{ListingOrder} : M (list string) :=
  let* k := get in ret (sortStrings (listingOrder AtListModules (modules k)).*1).

Definition ListGateways `{ListingOrder} : M (list string) :=
  let* k := get in ret (sortStrings (listingOrder AtListGateways (gateways k)).*1).

(** *** ReloadModule

    What [ReloadModule] returns: an [error] as elsewhere, or the one error
    of the package made with two [%w] operands, which wraps the error of the
    new module and the error of the rollback. *)
Inductive ReloadError : Type :=
| Reload (err : error)
| RollbackFailed (msg : string) (err rollbackErr : error).

(** "Rollback: try to restore and start the old module", written out twice
    in the source. *)
Definition rollback (name : string) (oldModule : Module) (stopTimeout : Duration)
    (msg : string) (err : error) : M (option ReloadError) :=
  modify (setModules (insert name oldModule));;
  let* rollbackErr := call IsModule (Mod.Name oldModule) OpStart
                           (withTimeout FromBackground stopTimeout) (Mod.Start oldModule) in
  match rollbackErr with
  | Some rollbackErr => ret (Some (RollbackFailed msg err rollbackErr))
  | None => ret (Some (Reload (Errorw msg err)))
  end.

Definition ReloadModule (m : option Module) : M (option ReloadError) :=
  match m with
  | None => ret (Some (Reload (Errorf "module is nil")))
  | Some m =>
  let name := Mod.Name m in
  if String.eqb name "" then ret (Some (Reload (Errorf "module name is empty"))) else
  let* k := get in
  match modules k !! name with
  | None => ret (Some (Reload (Errorw ("module " +:+ name) errNotFound)))
  | Some oldModule =>
  let stopTimeout := moduleOperation k in
  let* err := safelyExecute (Mod.Name oldModule) IsModule "Stop"
                (call IsModule (Mod.Name oldModule) OpStop
                      (withTimeout FromBackground stopTimeout) (Mod.Stop oldModule)) in
  match err with
  | Some err => ret (Some (Reload (Errorw ("stop old module " +:+ name) err)))
  | None =>
  modify (setModules (insert name m));;
  let* err :=
    match Modules (config k) !! name with
    | Some moduleConfig =>
        safelyExecute (Mod.Name m) IsModule "Configure"
          (call IsModule (Mod.Name m) OpConfigure None (Mod.Configure m moduleConfig))
    | None => ret None
    end in
  match err with
  | Some err => rollback name oldModule stopTimeout ("configure new module " +:+ name) err
  | None =>
  let* err := safelyExecute (Mod.Name m) IsModule "Start"
                (call IsModule (Mod.Name m) OpStart
                      (withTimeout FromBackground (moduleOperation k)) (Mod.Start m)) in
  match err with
  | Some err => rollback name oldModule stopTimeout ("start new module " +:+ name) err
  | None =>
  safelyExecute (Mod.Name m) IsModule "OnReady"
    (call IsModule (Mod.Name m) OpOnReady
          (withTimeout FromBackground (moduleOperation k)) (Mod.OnReady m));;
  ret None
  end end end end end.

(** *** What a call is allowed, what it reports and what it calls

    The vocabulary of the statements about the calls above. *)

(** The context carries no principal, or one the kernel's access controller
    does not grant [perm]. *)
Definition unauthorized (ctx : Auth.Context) (k : kernel) (perm : Auth.Permission) : Prop :=
  match Auth.PrincipalFromContext ctx with
  | None => True
  | Some p => Auth.HasPermission (accessController k) p perm = false
  end.

(** The context carries a principal that is granted [perm]. *)
Definition authorized (ctx : Auth.Context) (k : kernel) (perm : Auth.Permission) : Prop :=
  exists p, Auth.PrincipalFromContext ctx = Some p /\
    Auth.HasPermission (accessController k) p perm = true.

(** What [safelyExecute] returns for what the component's method did. *)
Definition reported (ctype : ComponentType) (name operation : string) (r : CallResult)
    : option error :=
  match r with
  | Returns err => err
  | Panics v =>
      Some (Errorf ("panic in " +:+ typeName ctype +:+ " " +:+ name +:+
                    " during " +:+ operation +:+ ": " +:+ v))
  end.

(** [fmt.Errorf(msg + ": %w", err)] when [err] is not [nil]. *)
Definition wrapped (msg : string) (err : option error) : option error :=
  match err with
  | Some err => Some (Errorw msg err)
  | None => None
  end.

(** The calls [AddModule] makes on the module it adds. *)
Definition addModuleCalls (k : kernel) (m : Module) : list Event :=
  [Called IsModule (Mod.Name m) OpSetEventBus None;
   Called IsModule (Mod.Name m) OpSetRegistry None;
   Called IsModule (Mod.Name m) OpOnLoad (withTimeout FromCaller (moduleOperation k))] ++
  (if Modules (config k) !! Mod.Name m is Some _
   then [Called IsModule (Mod.Name m) OpConfigure None] else []) ++
  (if running k
   then [Called IsModule (Mod.Name m) OpStart (withTimeout FromCaller (moduleOperation k));
         Called IsModule (Mod.Name m) OpRegisterServices None;
         Called IsModule (Mod.Name m) OpOnReady (withTimeout FromCaller (moduleOperation k))]
   else []).

(** The first error of a list of results, as [firstErr] keeps it. *)
Fixpoint firstError (errs : list (option error)) : option error :=
  match errs with
  | [] => None
  | Some err :: _ => Some err
  | None :: rest => firstError rest
  end.

(** What [Stop] does with one gateway and with one module: the call, and
    the error it records. *)
Definition gatewayStopCall (fallback : Duration) (g : Gateway) : Event :=
  Called IsGateway (Gw.Name g) OpStop
    (withTimeout FromCaller (stopTimeout (Gw.ShutdownTimeout g) fallback)).

Definition gatewayStopError (g : Gateway) : option error :=
  wrapped ("stop gateway " +:+ Gw.Name g) (reported IsGateway (Gw.Name g) "Stop" (Gw.Stop g)).

Definition moduleStopCall (fallback : Duration) (m : Module) : Event :=
  Called IsModule (Mod.Name m) OpStop
    (withTimeout FromCaller (stopTimeout (Mod.ShutdownTimeout m) fallback)).

Definition moduleStopError (m : Module) : option error :=
  wrapped ("stop module " +:+ Mod.Name m) (reported IsModule (Mod.Name m) "Stop" (Mod.Stop m)).

(** What [Start] does with one module and with one gateway, when all goes
    well. *)
Definition registerCall (m : Module) : Event :=
  Called IsModule (Mod.Name m) OpRegisterServices None.

Definition gatewayStartEvents (gatewayStartTimeout : Duration) (g : Gateway) : list Event :=
  [Called IsGateway (Gw.Name g) OpStart (withTimeout FromCaller gatewayStartTimeout);
   Published GatewayStartedEventType (Gw.Name g)].

(** The registry after the modules of [order] have registered their
    services, one after the other. *)
Definition registeredBy (order : list Module) (reg : Registry.DefaultRegistry)
    : Registry.DefaultRegistry :=
  foldl (fun reg m => (Mod.RegisterServices m reg).1) reg order.

(** Each module of [order], in turn, registers its services without error,
    the first on [reg] and each next one on the registry the one before
    left. *)
Fixpoint registersCleanly (order : list Module) (reg : Registry.DefaultRegistry) : Prop :=
  match order with
  | [] => True
  | m :: rest =>
      reported IsModule (Mod.Name m) "RegisterServices" (Mod.RegisterServices m reg).2 = None /\
      registersCleanly rest (Mod.RegisterServices m reg).1
  end.

(** The best-effort stop of a gateway after a failed [Start]. *)
Definition gatewayRollbackCall (g : Gateway) : Event :=
  Called IsGateway (Gw.Name g) OpStop (plainCtx FromBackground).

(** In [order] every module stands before the modules it depends on. *)
Definition dependentsFirst (order : list Module) : Prop :=
  forall i m d, order !! i = Some m -> is_Some (Mod.Dependencies m !! d) ->
    exists j dep, i < j /\ order !! j = Some dep /\ Mod.Name dep = d.

(** The gateway entry the kernel has the registry record for a gateway
    stored under [name]. *)
Definition gatewayEntry (name : string) (g : Gateway) : Registry.serviceEntry :=
  {| Registry.service := Registry.GatewayValue (Gw.Name g); Registry.moduleName := name |}.

(** The registry records a gateway entry for exactly the gateways the
    kernel holds. *)
Definition gatewaysRegistered (k : kernel) : Prop :=
  forall name, Registry.gateways (registry k) !! name = gatewayEntry name <$> gateways k !! name.

(** The calls [AddGateway] makes on the gateway it adds. *)
Definition addGatewayCalls (k : kernel) (g : Gateway) : list Event :=
  (if Gateways (config k) !! Gw.Name g is Some _
   then [Called IsGateway (Gw.Name g) OpConfigure None] else []) ++
  [Called IsGateway (Gw.Name g) OpSetEventBus None] ++
  (if running k
   then [Called IsGateway (Gw.Name g) OpStart
           (withTimeout FromBackground (gatewayOperation k))]
   else []).

(** The calls of a reload that goes through, and of one that is rolled back
    after [failed], the calls on the new module so far. *)
Definition reloadStopCall (k : kernel) (oldModule : Module) : Event :=
  Called IsModule (Mod.Name oldModule) OpStop (withTimeout FromBackground (moduleOperation k)).

Definition reloadConfigureCalls (k : kernel) (m : Module) : list Event :=
  if Modules (config k) !! Mod.Name m is Some _
  then [Called IsModule (Mod.Name m) OpConfigure None] else [].

Definition reloadStartCall (k : kernel) (m : Module) : Event :=
  Called IsModule (Mod.Name m) OpStart (withTimeout FromBackground (moduleOperation k)).

Definition reloadOnReadyCall (k : kernel) (m : Module) : Event :=
  Called IsModule (Mod.Name m) OpOnReady (withTimeout FromBackground (moduleOperation k)).

(** What a rollback returns. *)
Definition rolledBack (msg : string) (err : error) (restarted : option error) : ReloadError :=
  match restarted with
  | Some rollbackErr => RollbackFailed msg err rollbackErr
  | None => Reload (Errorw msg err)
  end.

End Kernel.

(** ** Sequences of kernel calls and concrete scenarios *)

Module Scenarios.

Import Kernel.
Local Open Scope kernel_scope.

(** Stands in for the semver library where a scenario is run: every
    non-empty string is a version, every string a constraint, and a
    constraint admits the version it spells, [*] admits all. *)
#[export] Instance plainSemver : Semver := {|
  SemVersion := string;
  SemConstraints := string;
  NewVersion v := if String.eqb v "" then inl (Errorf "Invalid Semantic Version") else inr v;
  NewConstraint c := inr c;
  Check c v := String.eqb c "*" || String.eqb c v
|}.

(** The iteration order that follows the map's own enumeration. *)
#[export] Instance keyOrder : MapOrder := {|
  rangeOrder A _ m := map_to_list m
|}.

(** A module that succeeds at everything and publishes no service. *)
Definition plainModule (name : string) (deps : gmap string string) : Module := {|
  Mod.Name := name;
  Mod.Version := "1.0.0";
  Mod.Dependencies := deps;
  Mod.OnLoad := Returns None;
  Mod.Configure := fun _ => Returns None;
  Mod.Start := Returns None;
  Mod.OnReady := Returns None;
  Mod.RegisterServices := fun reg => (reg, Returns None);
  Mod.Stop := Returns None;
  Mod.OnConfigChanged := Returns None;
  Mod.ShutdownTimeout := (5 * Second)%Z
|}.

Definition failing (what : string) : CallResult := Returns (Some (Errorf what)).

Definition withStart (r : CallResult) (m : Module) : Module := {|
  Mod.Name := Mod.Name m; Mod.Version := Mod.Version m;
  Mod.Dependencies := Mod.Dependencies m; Mod.OnLoad := Mod.OnLoad m;
  Mod.Configure := Mod.Configure m; Mod.Start := r; Mod.OnReady := Mod.OnReady m;
  Mod.RegisterServices := Mod.RegisterServices m; Mod.Stop := Mod.Stop m;
  Mod.OnConfigChanged := Mod.OnConfigChanged m; Mod.ShutdownTimeout := Mod.ShutdownTimeout m
|}.

Definition withOnReady (r : CallResult) (m : Module) : Module := {|
  Mod.Name := Mod.Name m; Mod.Version := Mod.Version m;
  Mod.Dependencies := Mod.Dependencies m; Mod.OnLoad := Mod.OnLoad m;
  Mod.Configure := Mod.Configure m; Mod.Start := Mod.Start m; Mod.OnReady := r;
  Mod.RegisterServices := Mod.RegisterServices m; Mod.Stop := Mod.Stop m;
  Mod.OnConfigChanged := Mod.OnConfigChanged m; Mod.ShutdownTimeout := Mod.ShutdownTimeout m
|}.

Definition withOnLoad (r : CallResult) (m : Module) : Module := {|
  Mod.Name := Mod.Name m; Mod.Version := Mod.Version m;
  Mod.Dependencies := Mod.Dependencies m; Mod.OnLoad := r;
  Mod.Configure := Mod.Configure m; Mod.Start := Mod.Start m; Mod.OnReady := Mod.OnReady m;
  Mod.RegisterServices := Mod.RegisterServices m; Mod.Stop := Mod.Stop m;
  Mod.OnConfigChanged := Mod.OnConfigChanged m; Mod.ShutdownTimeout := Mod.ShutdownTimeout m
|}.

Definition withConfigure (r : CallResult) (m : Module) : Module := {|
  Mod.Name := Mod.Name m; Mod.Version := Mod.Version m;
  Mod.Dependencies := Mod.Dependencies m; Mod.OnLoad := Mod.OnLoad m;
  Mod.Configure := fun _ => r; Mod.Start := Mod.Start m; Mod.OnReady := Mod.OnReady m;
  Mod.RegisterServices := Mod.RegisterServices m; Mod.Stop := Mod.Stop m;
  Mod.OnConfigChanged := Mod.OnConfigChanged m; Mod.ShutdownTimeout := Mod.ShutdownTimeout m
|}.

Definition withStop (r : CallResult) (m : Module) : Module := {|
  Mod.Name := Mod.Name m; Mod.Version := Mod.Version m;
  Mod.Dependencies := Mod.Dependencies m; Mod.OnLoad := Mod.OnLoad m;
  Mod.Configure := Mod.Configure m; Mod.Start := Mod.Start m; Mod.OnReady := Mod.OnReady m;
  Mod.RegisterServices := Mod.RegisterServices m; Mod.Stop := r;
  Mod.OnConfigChanged := Mod.OnConfigChanged m; Mod.ShutdownTimeout := Mod.ShutdownTimeout m
|}.

(** [RegisterServices] as the test module of the repository writes it:
    [return reg.RegisterService(m.name+"Service", m.serviceInstance, m.name)]. *)
Definition withService (m : Module) : Module := {|
  Mod.Name := Mod.Name m; Mod.Version := Mod.Version m;
  Mod.Dependencies := Mod.Dependencies m; Mod.OnLoad := Mod.OnLoad m;
  Mod.Configure := Mod.Configure m; Mod.Start := Mod.Start m; Mod.OnReady := Mod.OnReady m;
  Mod.RegisterServices := fun reg =>
    let '(err, reg') :=
      Registry.RegisterService (Mod.Name m +:+ "Service")
        (Registry.ServiceValue (Mod.Name m)) (Mod.Name m) reg in
    (reg', Returns err);
  Mod.Stop := Mod.Stop m;
  Mod.OnConfigChanged := Mod.OnConfigChanged m; Mod.ShutdownTimeout := Mod.ShutdownTimeout m
|}.

Definition plainGateway (name : string) : Gateway := {|
  Gw.Name := name;
  Gw.Start := Returns None;
  Gw.Stop := Returns None;
  Gw.Configure := fun _ => Returns None;
  Gw.ShutdownTimeout := (5 * Second)%Z
|}.

Definition defaultConfig : Config := {|
  Modules := ∅;
  Gateways := ∅;
  Timeouts := {| ConfigChange := 5; ModuleOperation := 10; GatewayOperation := 10 |}
|}.

(** The system principal of the tests, with role [kernel.module.*]. *)
Definition admin : Auth.Principal :=
  Auth.NewDefaultPrincipal "test-kernel" "system" ["kernel.module.*"].

Definition adminCtx : Auth.Context :=
  Auth.ContextWithPrincipal Auth.Background admin.

(** The calls of the module-management and lifecycle interface. *)
Inductive KernelCall : Type :=
| CallAddModule (ctx : Auth.Context) (m : option Module)
| CallRemoveModule (ctx : Auth.Context) (name : string)
| CallEnableModule (ctx : Auth.Context) (name : string)
| CallDisableModule (ctx : Auth.Context) (name : string)
| CallStart (ctx : Auth.Context)
| CallStop (ctx : Auth.Context).

Definition perform `{Semver} `{MapOrder} (c : KernelCall) : M (option error) :=
  match c with
  | CallAddModule ctx m => AddModule ctx m
  | CallRemoveModule ctx name => RemoveModule ctx name
  | CallEnableModule ctx name => EnableModule ctx name
  | CallDisableModule ctx name => DisableModule ctx name
  | CallStart ctx => Start ctx
  | CallStop ctx => Stop ctx
  end.

(** [c] disables or removes the module [name]. *)
Definition disables (name : string) (c : KernelCall) : bool :=
  match c with
  | CallRemoveModule _ n | CallDisableModule _ n => String.eqb n name
  | _ => false
  end.

(** [calls] run one after the other from [k], each returning, and leave [k']. *)
Inductive runs `{Semver} `{MapOrder} : kernel -> list KernelCall -> kernel -> Prop :=
| runs_nil k : runs k [] k
| runs_cons k c err k1 calls k2 :
    perform c k = Ret err k1 -> runs k1 calls k2 -> runs k (c :: calls) k2.

(** The final state of a list of calls, when each returns. *)
Fixpoint after `{Semver} `{MapOrder} (calls : list KernelCall) (k : kernel) : option kernel :=
  match calls with
  | [] => Some k
  | c :: rest =>
      match perform c k with
      | Ret _ k1 => after rest k1
      | _ => None
      end
  end.

(** **** A failing [Start] in the middle of the order

    [a], then [b] which needs [a], then [c] which needs [b]; [b] fails to start. *)
Definition modA : Module := plainModule "a" ∅.
Definition modB : Module :=
  withStart (failing "boom") (plainModule "b" {["a" := "*"]}).
Definition modC : Module := plainModule "c" {["b" := "*"]}.

Definition threeModules : kernel :=
  setModuleStates (fun _ => {["a" := true; "b" := true; "c" := true]})
    (setModules (fun _ => {["a" := modA; "b" := modB; "c" := modC]})
       (New defaultConfig None)).

(** **** A failing [OnReady]

    [p] fails in [OnReady]; [q] needs [p]; one gateway. *)
Definition modP : Module := withOnReady (failing "not ready") (plainModule "p" ∅).
Definition modQ : Module := plainModule "q" {["p" := "*"]}.

Definition twoModulesOneGateway : kernel :=
  let k := setModuleStates (fun _ => {["p" := true; "q" := true]})
             (setModules (fun _ => {["p" := modP; "q" := modQ]})
                (New defaultConfig None)) in
  {| config := config k; modules := modules k;
     gateways := {["gw" := plainGateway "gw"]};
     moduleStates := moduleStates k; running := running k;
     accessController := accessController k; registry := registry k; trace := trace k |}.

(** **** Failures inside [AddModule] and [RemoveModule] *)
Definition configWithM : Config := {|
  Modules := {["m" := ∅]};
  Gateways := ∅;
  Timeouts := {| ConfigChange := 5; ModuleOperation := 10; GatewayOperation := 10 |}
|}.

Definition modBadConfigure : Module :=
  withConfigure (failing "bad config") (plainModule "m" ∅).

Definition modBadOnLoad : Module :=
  withOnLoad (failing "cannot load") (plainModule "m" ∅).

Definition modBadStop : Module :=
  withStop (failing "cannot stop") (withService (plainModule "m" ∅)).

(** **** A cycle: [x] needs [y] and [y] needs [x] *)
Definition modX : Module := plainModule "x" {["y" := "*"]}.
Definition modY : Module := plainModule "y" {["x" := "*"]}.

Definition cyclicPair : kernel :=
  setModuleStates (fun _ => {["x" := true; "y" := true]})
    (setModules (fun _ => {["x" := modX; "y" := modY]}) (New defaultConfig None)).

(** **** Calls that follow the registration of [a]

    Another module is added and removed, [a] is enabled again, the kernel
    is started and stopped. *)
Definition laterCalls : list KernelCall :=
  [CallAddModule adminCtx (Some modC); CallRemoveModule adminCtx "c";
   CallEnableModule adminCtx "a"; CallStart Auth.Background; CallStop Auth.Background].

(** **** What a call shows and leaves behind *)

(** The startup order of a kernel state, by module name. *)
Definition startupNames `{Semver} `{MapOrder} (k : kernel) : option (list string) :=
  match getModuleStartupOrder k with
  | Ret (inr order) _ => Some (Mod.Name <$> order)
  | _ => None
  end.

(** What is left of module [name] in a kernel state: whether it is in the
    module map, its enabled-state entry, and the owners of the registered
    services. *)
Definition leftOf (name : string) (k : kernel)
    : bool * option bool * list (string * string) :=
  (bool_decide (is_Some (modules k !! name)),
   moduleStates k !! name,
   (fun entry : string * Registry.serviceEntry =>
      (entry.1, Registry.moduleName entry.2)) <$>
     map_to_list (Registry.services (registry k))).

Definition leftAfter {A : Type} (name : string) (o : Outcome kernel A)
    : option (A * (bool * option bool * list (string * string))) :=
  match o with
  | Ret a k => Some (a, leftOf name k)
  | _ => None
  end.

(** The kernel after [AddModule] of [modBadStop] and [Start]. *)
Definition runningWithService : option kernel :=
  after [CallAddModule adminCtx (Some modBadStop); CallStart Auth.Background]
        (New defaultConfig None).

(** The listing order that follows the map's own enumeration. *)
#[export] Instance keyListing : ListingOrder := {|
  listingOrder A _ m := map_to_list m
|}.

Definition withRegisterServices (r : CallResult) (m : Module) : Module := {|
  Mod.Name := Mod.Name m; Mod.Version := Mod.Version m;
  Mod.Dependencies := Mod.Dependencies m; Mod.OnLoad := Mod.OnLoad m;
  Mod.Configure := Mod.Configure m; Mod.Start := Mod.Start m; Mod.OnReady := Mod.OnReady m;
  Mod.RegisterServices := fun reg => (reg, r); Mod.Stop := Mod.Stop m;
  Mod.OnConfigChanged := Mod.OnConfigChanged m; Mod.ShutdownTimeout := Mod.ShutdownTimeout m
|}.

(** **** A kernel that starts: [a], and [d] which needs [a] and publishes a
    service; one gateway. *)
Definition modM : Module := withService (plainModule "m" ∅).
Definition modD : Module := withService (plainModule "d" {["a" := "*"]}).

Definition startable : kernel :=
  setGateways (fun _ => {["gw" := plainGateway "gw"]})
    (setModuleStates (fun _ => {["a" := true; "d" := true]})
       (setModules (fun _ => {["a" := modA; "d" := modD]}) (New defaultConfig None))).

(** **** A module that cannot register its services *)
Definition modR : Module :=
  withRegisterServices (failing "no registry") (plainModule "r" {["a" := "*"]}).

Definition unregistrable : kernel :=
  setModuleStates (fun _ => {["a" := true; "r" := true]})
    (setModules (fun _ => {["a" := modA; "r" := modR]}) (New defaultConfig None)).

(** **** A gateway that neither starts nor stops *)
Definition gwStuck : Gateway := {|
  Gw.Name := "stuck";
  Gw.Start := failing "stuck";
  Gw.Stop := failing "stuck";
  Gw.Configure := fun _ => Returns None;
  Gw.ShutdownTimeout := (5 * Second)%Z
|}.

Definition stuckGateway : kernel :=
  setGateways (fun _ => {["gw" := plainGateway "gw"; "stuck" := gwStuck]}) startable.

(** A running kernel that holds [gwStuck], registered. *)
Definition holdsStuck : kernel :=
  setRegistry (Registry.withGateways (registry (New defaultConfig None))
                 {["stuck" := gatewayEntry "stuck" gwStuck]})
    (setGateways (fun _ => {["stuck" := gwStuck]}) (setRunning true (New defaultConfig None))).

(** **** A module and a gateway entry of the same name *)
Definition sharedName : kernel :=
  setRegistry (Registry.withGateways (registry threeModules)
                 {["a" := gatewayEntry "a" (plainGateway "a")]})
    (setGateways (fun _ => {["a" := plainGateway "a"]}) threeModules).

(** **** A module whose dependency is not there *)
Definition orphan : kernel :=
  setModuleStates (fun _ => {["c" := true]})
    (setModules (fun _ => {["c" := modC]}) (New defaultConfig None)).

(** **** Reloading [b] *)
Definition newB : Module := plainModule "b" {["a" := "*"]}.

Definition reloadable : kernel :=
  setModules (fun _ => {["a" := modA; "b" := newB; "c" := modC]}) threeModules.

End Scenarios.

(** ** Notions used in the proof of the startup order *)

Module Kahn.

Import Kernel.

(** [graph[d]] and [inDegree[n]], with Go's zero value for a missing key. *)
Definition adj (gr : gmap string (list string)) (d : string) : list string :=
  default [] (gr !! d).

Definition indeg (inDeg : gmap string Z) (n : string) : Z :=
  default 0%Z (inDeg !! n).

(** Among the entries [es], in order: the names of those that depend on
    [d], and the number of dependencies of the one named [n]. *)
Definition dependents (d : string) (es : list (string * Module)) : list string :=
  (filter (fun e : string * Module => is_Some (Mod.Dependencies e.2 !! d)) es).*1.

Definition degreeOf (n : string) (es : list (string * Module)) : nat :=
  sum_list ((fun e : string * Module =>
               if decide (e.1 = n) then size (Mod.Dependencies e.2) else 0) <$> es).

(** The number of dependencies of [m] not yet among [emitted]. *)
Definition pending (emitted : list string) (m : Module) : nat :=
  size (filter (fun d => d ∉ emitted) (dom (Mod.Dependencies m) : gset string)).

(** [a] stands before [b] in [names]. *)
Definition before (names : list string) (a b : string) : Prop :=
  exists i j, i < j /\ names !! i = Some a /\ names !! j = Some b.

(** Each element of [l] is [R]-related to the next. *)
Fixpoint isChain (R : relation string) (l : list string) : Prop :=
  match l with
  | a :: (b :: _) as t => R a b /\ isChain R t
  | _ => True
  end.

(** The invariant of the loop [for len(queue) > 0]: [qs] is the queue,
    [ordered] is [orderedModules]. *)
Record KahnInv (E : gmap string Module) (inDeg : gmap string Z)
    (qs ordered : list Module) : Prop := {
  inv_members : forall m, m ∈ ordered ++ qs -> E !! Mod.Name m = Some m;
  inv_nodup : NoDup (Mod.Name <$> (ordered ++ qs));
  inv_pending : forall n m, E !! n = Some m ->
    indeg inDeg n = Z.of_nat (pending (Mod.Name <$> ordered) m);
  inv_zero : forall n, is_Some (E !! n) ->
    (n ∈ Mod.Name <$> (ordered ++ qs) <-> indeg inDeg n = 0%Z);
  inv_topo : topological ordered
}.

End Kahn.

(** * Properties *)

(** ** Access control *)

Module AuthFacts.

Import Auth.

Lemma underscore_not_allowed : allowedChar "_" = false.
Proof. reflexivity. Qed.

Lemma replaceRuns_replaceEach (inRun : bool) (s : string) :
  replaceRuns inRun (replaceEach s) = replaceRuns inRun s.
Proof.
  revert inRun. induction s as [|c s IH]; intros inRun;
    cbn [replaceRuns replaceEach]; [reflexivity|].
  destruct (allowedChar c) eqn:Hc.
  - rewrite Hc. f_equal. apply IH.
  - rewrite underscore_not_allowed. destruct inRun; [apply IH | f_equal; apply IH].
Qed.

(** What [replaceRuns] returns is left alone by a second pass, whether or
    not that pass starts inside a run. *)
Lemma replaceRuns_stable (s : string) :
  (forall b, replaceRuns b (replaceRuns true s) = replaceRuns true s) /\
  replaceRuns false (replaceRuns false s) = replaceRuns false s.
Proof.
  induction s as [|c s [IHt IHf]]; cbn [replaceRuns]; [split; reflexivity|].
  destruct (allowedChar c) eqn:Hc; cbn [replaceRuns].
  - rewrite Hc. split; [intros b|]; f_equal; apply IHf.
  - split; [exact IHt|]. rewrite underscore_not_allowed. f_equal. apply IHt.
Qed.

(** Inside a run, leading disallowed bytes leave no mark. *)
Lemma replaceRuns_skip (chunk s : string) :
  allDisallowed chunk = true -> replaceRuns true (chunk +:+ s) = replaceRuns true s.
Proof.
  induction chunk as [|c chunk IH]; [done|].
  change (String c chunk +:+ s) with (String c (chunk +:+ s)).
  cbn [allDisallowed replaceRuns].
  intros [Hc Hrest]%andb_prop. apply negb_true_iff in Hc. rewrite Hc. by apply IH.
Qed.

Lemma replaceRuns_chunk (inRun : bool) (chunk s : string) :
  chunk <> "" -> allDisallowed chunk = true ->
  replaceRuns inRun (chunk +:+ s) = replaceRuns inRun (String "_" s).
Proof.
  destruct chunk as [|c chunk]; [done|]. intros _.
  change (String c chunk +:+ s) with (String c (chunk +:+ s)).
  cbn [allDisallowed replaceRuns]. rewrite underscore_not_allowed.
  intros [Hc Hrest]%andb_prop. apply negb_true_iff in Hc. rewrite Hc.
  rewrite replaceRuns_skip by done. reflexivity.
Qed.

Lemma replaceRuns_charwise (s s' : string) :
  replacedCharwise s s' -> forall inRun, replaceRuns inRun s' = replaceRuns inRun s.
Proof.
  induction 1 as [|c s s' Hc _ IH|chunk s s' Hne Hchunk _ IH]; intros inRun.
  - reflexivity.
  - cbn [replaceRuns]. rewrite Hc. f_equal. apply IH.
  - rewrite replaceRuns_chunk by done. cbn [replaceRuns]. rewrite underscore_not_allowed.
    destruct inRun; [apply IH | f_equal; apply IH].
Qed.

Lemma replacedCharwise_replaceEach (s : string) : replacedCharwise s (replaceEach s).
Proof.
  induction s as [|c s IH]; cbn [replaceEach]; [constructor|].
  destruct (allowedChar c) eqn:Hc.
  - by constructor.
  - apply (replaced_char (String c "") s); [done| |done].
    cbn [allDisallowed]. by rewrite Hc.
Qed.

(** C7. Let [s'] be the dynamic component [s] with every character outside
    [A-Za-z0-9.-] replaced by an underscore.  The helpers that derive a
    permission from the component ([CanPublishEvent], [CanSubscribeEvent],
    [CanAccessConfig], [CanReloadModule]) decide on [s] as they decide on
    [s'], for every principal, with or without a role provider; and
    [sanitizePermissionComponent] is idempotent. *)
Theorem sanitized_component_same_decision (s s' : string) :
  replacedCharwise s s' ->
  (forall provider, sameDecisions (DefaultAccessController provider) s s') /\
  (forall provider, sameDecisions (NewDefaultAccessController provider) s s') /\
  sanitizePermissionComponent (sanitizePermissionComponent s) = sanitizePermissionComponent s.
Proof.
  intros Hrep.
  assert (Hs : sanitizePermissionComponent s' = sanitizePermissionComponent s).
  { by apply replaceRuns_charwise. }
  assert (Hd : forall provider, sameDecisions (DefaultAccessController provider) s s').
  { intros provider ctx p. simpl. rewrite Hs. repeat split. }
  split; [exact Hd|]. split.
  - intros [provider|]; [apply Hd|]. intros ctx p. repeat split.
  - apply replaceRuns_stable.
Qed.

(** The theorem at [user login!], byte by byte, and at a component with the
    two-byte rune U+00E9. *)
Lemma sanitized_component_same_decision_witness :
  sameDecisions (DefaultAccessController None) "user login!" "user_login_" /\
  sameDecisions (DefaultAccessController None) accented "caf_" /\
  sanitizePermissionComponent (sanitizePermissionComponent "user login!")
    = sanitizePermissionComponent "user login!".
Proof.
  destruct (sanitized_component_same_decision "user login!" "user_login_"
              (replacedCharwise_replaceEach "user login!")) as (Hd & _ & Hidem).
  destruct (sanitized_component_same_decision accented "caf_") as (Hd' & _ & _).
  { apply replaced_keep; [done|]. apply replaced_keep; [done|]. apply replaced_keep; [done|].
    apply (replaced_char eAcute "" ""); [done|done|constructor]. }
  split; [apply Hd|]. split; [apply Hd'|apply Hidem].
Defined.

(** *** Wildcards *)

Lemma length_app (X Y : string) :
  String.length (X +:+ Y) = String.length X + String.length Y.
Proof.
  induction X as [|c X IH]; [done|].
  change (String c X +:+ Y) with (String c (X +:+ Y)). cbn [String.length]. by rewrite IH.
Qed.

Lemma substring_nothing (Y : string) : substring 0 0 Y = "".
Proof. by destruct Y. Qed.

Lemma substring_take (X Y : string) : substring 0 (String.length X) (X +:+ Y) = X.
Proof.
  induction X as [|c X IH]; [apply substring_nothing|].
  change (String c X +:+ Y) with (String c (X +:+ Y)). cbn. by rewrite IH.
Qed.

Lemma substring_drop (X Y : string) (n : nat) :
  substring (String.length X) n (X +:+ Y) = substring 0 n Y.
Proof. induction X as [|c X IH]; [done|]. exact IH. Qed.

(** A wildcard [X.*] grants every permission that is longer than [X] and
    begins with [X], whatever comes next. *)
Lemma wildcardGrants_any_continuation (X rest : string) :
  X <> "" -> rest <> "" -> wildcardGrants (X +:+ ".*") (X +:+ rest) = true.
Proof.
  intros HX Hrest. unfold wildcardGrants, isWildcard.
  rewrite !length_app. change (String.length ".*") with 2.
  replace (String.length X + 2 - 2) with (String.length X) by lia.
  rewrite substring_drop, !substring_take, String.eqb_refl.
  change (substring 0 2 ".*") with ".*". rewrite String.eqb_refl.
  destruct X as [|c X]; [done|]. destruct rest as [|c' rest]; [done|].
  cbn [String.length]. rewrite !andb_true_r.
  apply andb_true_intro. split; apply Nat.ltb_lt; lia.
Qed.

Lemma roleNamesGrant_wildcard (roles : list string) (role : string) (perm : Permission) :
  role ∈ roles -> wildcardGrants role perm = true -> roleNamesGrant roles perm = true.
Proof.
  intros Hin Hgrant. induction roles as [|r roles IH]; [by apply elem_of_nil in Hin|].
  cbn [roleNamesGrant]. destruct (String.eqb r perm); [done|].
  apply elem_of_cons in Hin as [<-|Hin]; [by rewrite Hgrant|].
  destruct (wildcardGrants r perm); [done|by apply IH].
Qed.

(** So a principal with the role [X.*] is granted [X] followed by anything,
    with or without a provider. *)
Lemma HasPermission_any_continuation (provider : option RBACProvider) (p : Principal)
    (X rest : string) :
  X <> "" -> rest <> "" -> (X +:+ ".*") ∈ Roles p ->
  DefaultAccessController_HasPermission provider p (X +:+ rest) = true.
Proof.
  intros HX Hrest Hin. unfold DefaultAccessController_HasPermission.
  by rewrite (roleNamesGrant_wildcard _ (X +:+ ".*"))
    by (done || by apply wildcardGrants_any_continuation).
Qed.

(** C6 (evaluation). In provider mode a principal whose only role is
    [kernel.module.*] is granted [kernel.modulesX], which does not begin
    with [kernel.module.]; by the specification's reading it is not. *)
Theorem wildcard_grants_without_the_dot :
  DefaultAccessController_HasPermission (Some (NewConfigRBACProvider [])) moduleAdmin
    "kernel.modulesX" = true /\
  specHasPermission (NewConfigRBACProvider []) moduleAdmin "kernel.modulesX" = false.
Proof. split; reflexivity. Qed.

Lemma substring_all (s : string) : substring 0 (String.length s) s = s.
Proof. induction s as [|c s IH]; [done|]. cbn. by rewrite IH. Qed.

Lemma substring_split (n : nat) (s : string) :
  n <= String.length s ->
  s = substring 0 n s +:+ substring n (String.length s - n) s.
Proof.
  revert n. induction s as [|c s IH]; intros n Hn.
  - destruct n; [done|cbn in Hn; lia].
  - destruct n as [|n].
    + rewrite substring_nothing, Nat.sub_0_r. by rewrite substring_all.
    + cbn [String.length] in *. change (S (String.length s) - S n) with (String.length s - n).
      cbn [substring].
      change (String c ?a +:+ ?t) with (String c (a +:+ t)).
      f_equal. apply IH. lia.
Qed.

Lemma length_substring_prefix (n : nat) (s : string) :
  n <= String.length s -> String.length (substring 0 n s) = n.
Proof.
  revert n. induction s as [|c s IH]; intros n Hn.
  - destruct n; [done|cbn in Hn; lia].
  - destruct n as [|n]; [done|]. cbn [String.length substring] in *. f_equal. apply IH. lia.
Qed.

Lemma wildcardGrants_iff (s : string) (perm : Permission) :
  wildcardGrants s perm = true <->
  exists X rest, X <> "" /\ rest <> "" /\ s = X +:+ ".*" /\ perm = X +:+ rest.
Proof.
  split.
  - unfold wildcardGrants, isWildcard.
    intros [[Hlen Hstar%String.eqb_eq]%andb_prop [Hlt Hpre%String.eqb_eq]%andb_prop]%andb_prop.
    apply Nat.ltb_lt in Hlen. apply Nat.ltb_lt in Hlt.
    set (X := substring 0 (String.length s - 2) s) in *.
    assert (HX : String.length X = String.length s - 2).
    { apply length_substring_prefix. lia. }
    assert (Hs : s = X +:+ ".*").
    { rewrite (substring_split (String.length s - 2) s) at 1 by lia.
      replace (String.length s - (String.length s - 2)) with 2 by lia. by rewrite Hstar. }
    exists X, (substring (String.length X) (String.length perm - String.length X) perm).
    split; [|split; [|split]].
    + intros HX0. rewrite HX0 in HX. cbn in HX. lia.
    + intros Hrest.
      pose proof (substring_split (String.length X) perm ltac:(lia)) as Hperm.
      rewrite Hrest, Hpre in Hperm. apply (f_equal String.length) in Hperm.
      rewrite length_app in Hperm. cbn in Hperm. lia.
    + done.
    + rewrite <- Hpre at 1. apply substring_split. lia.
  - intros (X & rest & HX & Hrest & -> & ->). by apply wildcardGrants_any_continuation.
Qed.

Lemma grants_iff (s : string) (perm : Permission) :
  (if String.eqb s perm then true else wildcardGrants s perm) = true <-> grants s perm.
Proof.
  unfold grants. destruct (String.eqb_spec s perm) as [->|Hne].
  - split; auto.
  - rewrite wildcardGrants_iff. split; [auto|]. by intros [?|?].
Qed.

Lemma roleNamesGrant_iff (roles : list string) (perm : Permission) :
  roleNamesGrant roles perm = true <-> exists role, role ∈ roles /\ grants role perm.
Proof.
  induction roles as [|r roles IH]; cbn [roleNamesGrant].
  - split; [done|]. by intros (role & Hin%elem_of_nil & _).
  - pose proof (grants_iff r perm) as Hr.
    destruct (String.eqb r perm); [|destruct (wildcardGrants r perm)].
    + split; [|done]. intros _. exists r. split; [left|by apply Hr].
    + split; [|done]. intros _. exists r. split; [left|by apply Hr].
    + rewrite IH. split.
      * intros (role & Hin & Hg). exists role. split; [by right|done].
      * intros (role & [->|Hin]%elem_of_cons & Hg); [by apply Hr in Hg|eauto].
Qed.

Lemma permissionsGrant_iff (perms : list Permission) (perm : Permission) :
  permissionsGrant perms perm = true <-> exists q, q ∈ perms /\ grants q perm.
Proof.
  induction perms as [|r perms IH]; cbn [permissionsGrant].
  - split; [done|]. by intros (q & Hin%elem_of_nil & _).
  - pose proof (grants_iff r perm) as Hr.
    destruct (String.eqb r perm); [|destruct (wildcardGrants r perm)].
    + split; [|done]. intros _. exists r. split; [left|by apply Hr].
    + split; [|done]. intros _. exists r. split; [left|by apply Hr].
    + rewrite IH. split.
      * intros (q & Hin & Hg). exists q. split; [by right|done].
      * intros (q & [->|Hin]%elem_of_cons & Hg); [by apply Hr in Hg|eauto].
Qed.

Lemma providerGrants_iff (provider : RBACProvider) (roles : list string) (perm : Permission) :
  providerGrants provider roles perm = true <->
  exists role r q, role ∈ roles /\ provider role = Some r /\ q ∈ Permissions r /\ grants q perm.
Proof.
  induction roles as [|name roles IH]; cbn [providerGrants].
  - split; [done|]. by intros (role & r & q & Hin%elem_of_nil & _).
  - destruct (provider name) as [r|] eqn:Hr.
    + destruct (permissionsGrant (Permissions r) perm) eqn:Hp.
      * split; [|done]. intros _. apply permissionsGrant_iff in Hp as (q & Hq & Hg).
        exists name, r, q. split; [left|done].
      * rewrite IH. split.
        -- intros (role & r' & q & Hin & ?). exists role, r', q. split; [by right|done].
        -- intros (role & r' & q & [->|Hin]%elem_of_cons & Hrole & Hq & Hg).
           ++ rewrite Hr in Hrole. simplify_eq.
              assert (permissionsGrant (Permissions r') perm = true) as Hp'
                by (apply permissionsGrant_iff; eauto).
              congruence.
           ++ exists role, r', q. done.
    + rewrite IH. split.
      * intros (role & r' & q & Hin & ?). exists role, r', q. split; [by right|done].
      * intros (role & r' & q & [->|Hin]%elem_of_cons & Hrole & Hq & Hg); [congruence|].
        exists role, r', q. done.
Qed.

(** X1. [HasPermission] of a [DefaultAccessController] returns true exactly
    when some role name of the principal grants the permission, or a
    provider is set and resolves some role name of the principal to a role
    one of whose permissions grants it; where [s] grants [perm] when the two
    are equal or [s] is [X.*], [X] not empty, and [perm] is [X] followed by
    at least one more byte. *)
Theorem HasPermission_exactly (provider : option RBACProvider) (p : Principal)
    (perm : Permission) :
  DefaultAccessController_HasPermission provider p perm = true <->
  (exists role, role ∈ Roles p /\ grants role perm) \/
  (exists pr role r q, provider = Some pr /\ role ∈ Roles p /\ pr role = Some r /\
     q ∈ Permissions r /\ grants q perm).
Proof.
  unfold DefaultAccessController_HasPermission.
  destruct (roleNamesGrant (Roles p) perm) eqn:Hnames.
  - apply roleNamesGrant_iff in Hnames. split; auto.
  - assert (Hno : ~ exists role, role ∈ Roles p /\ grants role perm).
    { rewrite <- roleNamesGrant_iff. congruence. }
    destruct provider as [pr|].
    + rewrite providerGrants_iff. split.
      * intros (role & r & q & ?). right. exists pr, role, r, q. done.
      * intros [?|(pr' & role & r & q & [= <-] & ?)]; [done|]. exists role, r, q. done.
    + split; [done|]. intros [?|(pr' & role & r & q & [=] & _)]. done.
Qed.

(** X2. Granting is monotone: a principal holding every role name of another
    is granted whatever the other is granted, and what is granted without a
    provider is granted with any provider. *)
Theorem HasPermission_monotone (provider : option RBACProvider) (p q : Principal)
    (perm : Permission) :
  (forall role, role ∈ Roles p -> role ∈ Roles q) ->
  (DefaultAccessController_HasPermission provider p perm = true ->
   DefaultAccessController_HasPermission provider q perm = true) /\
  (DefaultAccessController_HasPermission None p perm = true ->
   DefaultAccessController_HasPermission provider q perm = true).
Proof.
  intros Hsub. unfold DefaultAccessController_HasPermission.
  assert (Hnames : roleNamesGrant (Roles p) perm = true -> roleNamesGrant (Roles q) perm = true).
  { rewrite !roleNamesGrant_iff. intros (role & Hin & Hg). eauto. }
  split.
  - destruct (roleNamesGrant (Roles p) perm); [by rewrite Hnames|].
    destruct (roleNamesGrant (Roles q) perm); [done|].
    destruct provider as [pr|]; [|done].
    rewrite !providerGrants_iff. intros (role & r & x & Hin & ?). exists role, r, x. auto.
  - destruct (roleNamesGrant (Roles p) perm); [by rewrite Hnames|done].
Qed.

Lemma HasPermission_monotone_witness :
  DefaultAccessController_HasPermission (Some (NewConfigRBACProvider [])) auditor "core.log" = true /\
  DefaultAccessController_HasPermission (Some (NewConfigRBACProvider [])) operator "core.log" = true.
Proof.
  split; [reflexivity|].
  apply (HasPermission_monotone (Some (NewConfigRBACProvider [])) auditor operator "core.log").
  - intros role Hin. apply list_elem_of_singleton in Hin as ->. right. left.
  - reflexivity.
Defined.

Lemma replaceRuns_safe (inRun : bool) (s : string) :
  allBytes safeByte (replaceRuns inRun s) = true.
Proof.
  revert inRun. induction s as [|c s IH]; intros inRun; cbn [replaceRuns]; [done|].
  destruct (allowedChar c) eqn:Hc.
  - cbn [allBytes]. unfold safeByte at 1. by rewrite Hc, IH.
  - destruct inRun; [apply IH|]. cbn [allBytes]. by rewrite IH.
Qed.

Lemma replaceRuns_length (inRun : bool) (s : string) :
  String.length (replaceRuns inRun s) <= String.length s.
Proof.
  revert inRun. induction s as [|c s IH]; intros inRun; cbn [replaceRuns]; [done|].
  destruct (allowedChar c).
  - cbn [String.length]. specialize (IH false). lia.
  - destruct inRun; cbn [String.length]; specialize (IH true); lia.
Qed.

Lemma replaceRuns_allowed (inRun : bool) (s : string) :
  allBytes allowedChar s = true -> replaceRuns inRun s = s.
Proof.
  revert inRun. induction s as [|c s IH]; intros inRun; cbn [allBytes replaceRuns]; [done|].
  intros [Hc Hs]%andb_prop. rewrite Hc. f_equal. by apply IH.
Qed.

(** After a run has begun, the result does not begin with an underscore. *)
Lemma replaceRuns_in_run (s : string) :
  match replaceRuns true s with
  | String a _ => Ascii.eqb a "_" = false
  | EmptyString => True
  end.
Proof.
  induction s as [|c s IH]; cbn [replaceRuns]; [done|].
  destruct (allowedChar c) eqn:Hc; [|done].
  destruct (Ascii.eqb_spec c "_") as [->|]; [|done]. by rewrite underscore_not_allowed in Hc.
Qed.

Lemma doubledUnderscore_cons (a b : ascii) (t : string) :
  doubledUnderscore (String a (String b t)) =
    (Ascii.eqb a "_" && Ascii.eqb b "_") || doubledUnderscore (String b t).
Proof. reflexivity. Qed.

Lemma replaceRuns_single (inRun : bool) (s : string) :
  doubledUnderscore (replaceRuns inRun s) = false.
Proof.
  revert inRun. induction s as [|c s IH]; intros inRun; cbn [replaceRuns]; [done|].
  destruct (allowedChar c) eqn:Hc.
  - specialize (IH false). destruct (replaceRuns false s) as [|b t] eqn:Ht; [done|].
    rewrite doubledUnderscore_cons, IH.
    destruct (Ascii.eqb_spec c "_") as [->|]; [|done]. by rewrite underscore_not_allowed in Hc.
  - destruct inRun; [apply IH|].
    pose proof (replaceRuns_in_run s) as Hrun. specialize (IH true).
    destruct (replaceRuns true s) as [|b t]; [done|].
    by rewrite doubledUnderscore_cons, IH, Hrun, andb_false_r.
Qed.

(** X3. What [sanitizePermissionComponent] returns is made of the bytes
    [A-Za-z0-9.-] and underscores, never two underscores side by side, and
    is no longer than the component; a component made of allowed bytes only
    is returned as it is. *)
Theorem sanitized_component_is_safe (component : string) :
  allBytes safeByte (sanitizePermissionComponent component) = true /\
  doubledUnderscore (sanitizePermissionComponent component) = false /\
  String.length (sanitizePermissionComponent component) <= String.length component /\
  (allBytes allowedChar component = true ->
   sanitizePermissionComponent component = component).
Proof.
  unfold sanitizePermissionComponent.
  split; [apply replaceRuns_safe|]. split; [apply replaceRuns_single|].
  split; [apply replaceRuns_length|apply replaceRuns_allowed].
Qed.

Lemma foldl_insert_role (roles : list Role) (acc : gmap string Role) (name : string) :
  foldl (fun acc role => <[RoleName role := role]> acc) acc roles !! name =
    match last (filter (fun role => RoleName role = name) roles) with
    | Some role => Some role
    | None => acc !! name
    end.
Proof.
  revert acc. induction roles as [|r roles IH]; intros acc; [done|].
  cbn [foldl]. rewrite IH, filter_cons.
  destruct (decide (RoleName r = name)) as [Hr|Hr].
  - rewrite last_cons. destruct (last _); [done|]. by rewrite <- Hr, lookup_insert_eq.
  - destruct (last _); [done|]. by rewrite lookup_insert_ne.
Qed.

(** X4. [GetRole] of the provider that [NewConfigRBACProvider] builds finds
    the last role of the list that bears the name, and nothing when no role
    of the list bears it. *)
Theorem NewConfigRBACProvider_last_wins (roles : list Role) (name : string) :
  NewConfigRBACProvider roles name = last (filter (fun role => RoleName role = name) roles) /\
  (NewConfigRBACProvider roles name = None <->
   forall role, role ∈ roles -> RoleName role <> name).
Proof.
  assert (Hlast : NewConfigRBACProvider roles name
                  = last (filter (fun role => RoleName role = name) roles)).
  { unfold NewConfigRBACProvider. rewrite foldl_insert_role, lookup_empty. by case_match. }
  split; [done|]. rewrite Hlast, last_None. split.
  - intros Hnil role Hin Hname.
    assert (role ∈ filter (fun role => RoleName role = name) roles) as Hf
      by (by apply list_elem_of_filter).
    rewrite Hnil in Hf. by apply elem_of_nil in Hf.
  - intros Hno. induction roles as [|r roles IH]; [done|].
    rewrite filter_cons, decide_False by (apply Hno; left).
    apply IH; [|intros role Hin; apply Hno; by right].
    unfold NewConfigRBACProvider. rewrite foldl_insert_role, lookup_empty. by case_match.
Qed.

End AuthFacts.

(** ** Service registry *)

Module RegistryFacts.

Import Registry.

(** C8. [GetService] returns the stored value exactly when the name is
    registered, the context carries a principal and the access controller
    grants that principal [service.<owningModule>.<name>.access]; it
    returns the not-found error when the name is absent, and a security
    error when the principal is missing or not authorized; in every case
    the registry is returned as it was. *)
Theorem GetService_authorized_lookup (ctx : Auth.Context) (name : string) (r : DefaultRegistry) :
  (GetService ctx name r).2 = r /\
  (forall v, (GetService ctx name r).1 = inr v <->
     exists entry p,
       services r !! name = Some entry /\ service entry = v /\
       Auth.PrincipalFromContext ctx = Some p /\
       Auth.HasPermission (accessController r) p
         ("service." +:+ moduleName entry +:+ "." +:+ name +:+ ".access") = true) /\
  (services r !! name = None ->
     (GetService ctx name r).1 = inl (errServiceNotFound name)) /\
  (forall entry, services r !! name = Some entry ->
     Auth.PrincipalFromContext ctx = None ->
     (GetService ctx name r).1 = inl (errNoPrincipal name)) /\
  (forall entry p, services r !! name = Some entry ->
     Auth.PrincipalFromContext ctx = Some p ->
     Auth.HasPermission (accessController r) p
       ("service." +:+ moduleName entry +:+ "." +:+ name +:+ ".access") = false ->
     (GetService ctx name r).1 =
       inl (errNotAuthorized p name
              ("service." +:+ moduleName entry +:+ "." +:+ name +:+ ".access"))).
Proof.
  unfold GetService, servicePermission.
  destruct (services r !! name) as [entry|] eqn:Hs.
  - destruct (Auth.PrincipalFromContext ctx) as [p|] eqn:Hp.
    + destruct (Auth.HasPermission (accessController r) p _) eqn:Hperm; simpl.
      * split; [reflexivity|]. split; [|split; [|split]].
        -- intros v. split.
           ++ intros [= <-]. exists entry, p. auto.
           ++ intros (entry' & p' & [= <-] & <- & [= <-] & _). reflexivity.
        -- discriminate.
        -- discriminate.
        -- intros entry' p' [= <-] [= <-]. congruence.
      * split; [reflexivity|]. split; [|split; [|split]].
        -- intros v. split; [discriminate|].
           intros (entry' & p' & [= <-] & _ & [= <-] & Hgrant). congruence.
        -- discriminate.
        -- discriminate.
        -- intros entry' p' [= <-] [= <-] _. reflexivity.
    + simpl. split; [reflexivity|]. split; [|split; [|split]].
      * intros v. split; [discriminate|].
        intros (entry' & p' & _ & _ & [=] & _).
      * discriminate.
      * reflexivity.
      * discriminate.
  - simpl. split; [reflexivity|]. split; [|split; [|split]].
    + intros v. split; [discriminate|]. intros (entry' & p' & [=] & _).
    + reflexivity.
    + discriminate.
    + discriminate.
Qed.

Lemma GetService_authorized_lookup_witness :
  (GetService (Auth.ContextWithPrincipal Auth.Background reader) "invoices" oneService).1
    = inr (ServiceValue "invoices-v1") /\
  (GetService Auth.Background "invoices" oneService).1 = inl (errNoPrincipal "invoices") /\
  (GetService Auth.Background "missing" oneService).1 = inl (errServiceNotFound "missing").
Proof.
  pose proof (GetService_authorized_lookup
                (Auth.ContextWithPrincipal Auth.Background reader) "invoices" oneService)
    as (_ & Hiff & _).
  pose proof (GetService_authorized_lookup Auth.Background "invoices" oneService)
    as (_ & _ & _ & Hnone & _).
  pose proof (GetService_authorized_lookup Auth.Background "missing" oneService)
    as (_ & _ & Hmiss & _).
  split; [|split].
  - apply Hiff. eexists _, reader. repeat split; reflexivity.
  - eapply Hnone; reflexivity.
  - apply Hmiss. reflexivity.
Defined.

(** X5. [RegisterService] under a free name returns no error and stores the
    service with its owner: [GetService] then returns it to every principal
    that holds [service.<owner>.<name>.access]; every other service entry
    and every gateway entry stays as it was.  Under a name that is taken
    it returns the already-registered error and leaves the registry as it
    was, the earlier entry included. *)
Theorem RegisterService_then_GetService (name : string) (svc : Value) (owner : string)
    (r : DefaultRegistry) :
  (services r !! name = None ->
   exists r', RegisterService name svc owner r = (None, r') /\
     services r' = <[name := {| service := svc; moduleName := owner |}]> (services r) /\
     gateways r' = gateways r /\ accessController r' = accessController r /\
     forall ctx p,
       Auth.PrincipalFromContext ctx = Some p ->
       Auth.HasPermission (accessController r) p
         ("service." +:+ owner +:+ "." +:+ name +:+ ".access") = true ->
       GetService ctx name r' = (inr svc, r')) /\
  (forall entry, services r !! name = Some entry ->
   RegisterService name svc owner r = (Some (errServiceExists name), r)).
Proof.
  unfold RegisterService. split.
  - intros Hfree. rewrite Hfree. eexists. split; [done|]. split; [done|].
    split; [done|]. split; [done|].
    intros ctx p Hp Hgrant. unfold GetService, servicePermission. cbn [services withServices].
    rewrite lookup_insert_eq, Hp. cbn [moduleName service accessController withServices].
    by rewrite Hgrant.
  - intros entry Htaken. by rewrite Htaken.
Qed.

(** [GetGateway] returns the stored gateway exactly when the name is
    registered as a gateway, the context carries a principal and the access
    controller grants that principal [gateway.<name>.access]; it returns the
    not-found error when the name is absent and an error when the principal
    is missing or not authorized; the registry is returned as it was, and
    service entries play no part. *)
Lemma GetGateway_authorized_lookup (ctx : Auth.Context) (name : string) (r : DefaultRegistry) :
  (GetGateway ctx name r).2 = r /\
  (forall v, (GetGateway ctx name r).1 = inr v <->
     exists entry p,
       gateways r !! name = Some entry /\ service entry = v /\
       Auth.PrincipalFromContext ctx = Some p /\
       Auth.HasPermission (accessController r) p ("gateway." +:+ name +:+ ".access") = true) /\
  (gateways r !! name = None ->
     (GetGateway ctx name r).1 = inl (errGatewayNotFound name)) /\
  (forall entry, gateways r !! name = Some entry ->
     Auth.PrincipalFromContext ctx = None ->
     (GetGateway ctx name r).1 = inl (errNoPrincipalGateway name)) /\
  (forall entry p, gateways r !! name = Some entry ->
     Auth.PrincipalFromContext ctx = Some p ->
     Auth.HasPermission (accessController r) p ("gateway." +:+ name +:+ ".access") = false ->
     (GetGateway ctx name r).1 =
       inl (errGatewayNotAuthorized p name ("gateway." +:+ name +:+ ".access"))).
Proof.
  unfold GetGateway, gatewayPermission.
  destruct (gateways r !! name) as [entry|] eqn:Hs.
  - destruct (Auth.PrincipalFromContext ctx) as [p|] eqn:Hp.
    + destruct (Auth.HasPermission (accessController r) p _) eqn:Hperm; simpl.
      * split; [reflexivity|]. split; [|split; [|split]].
        -- intros v. split.
           ++ intros [= <-]. exists entry, p. auto.
           ++ intros (entry' & p' & [= <-] & <- & [= <-] & _). reflexivity.
        -- discriminate.
        -- discriminate.
        -- intros entry' p' [= <-] [= <-]. congruence.
      * split; [reflexivity|]. split; [|split; [|split]].
        -- intros v. split; [discriminate|].
           intros (entry' & p' & [= <-] & _ & [= <-] & Hgrant). congruence.
        -- discriminate.
        -- discriminate.
        -- intros entry' p' [= <-] [= <-] _. reflexivity.
    + simpl. split; [reflexivity|]. split; [|split; [|split]].
      * intros v. split; [discriminate|].
        intros (entry' & p' & _ & _ & [=] & _).
      * discriminate.
      * reflexivity.
      * discriminate.
  - simpl. split; [reflexivity|]. split; [|split; [|split]].
    + intros v. split; [discriminate|]. intros (entry' & p' & [=] & _).
    + reflexivity.
    + discriminate.
    + discriminate.
Qed.

(** X6. [UnregisterServicesByModule] returns exactly when no gateway entry is
    recorded under the module name; it then has removed the services the
    module owns and nothing else.  When a gateway entry is recorded under
    the name, as [RegisterGateway] records a gateway of that name, the call
    blocks: it asks for the lock it already holds. *)
Theorem UnregisterServicesByModule_removes_owned (owner : string) (r : DefaultRegistry) :
  ((forall name entry, gateways r !! name = Some entry -> moduleName entry <> owner) ->
   exists r', UnregisterServicesByModule owner r = Go.Ret tt r' /\
     gateways r' = gateways r /\ accessController r' = accessController r /\
     forall name,
       services r' !! name =
         match services r !! name with
         | Some entry => if decide (moduleName entry = owner) then None else Some entry
         | None => None
         end) /\
  (forall name entry, gateways r !! name = Some entry -> moduleName entry = owner ->
   UnregisterServicesByModule owner r = Go.Hang) /\
  (forall gateway r', RegisterGateway owner gateway r = (None, r') ->
   UnregisterServicesByModule owner r' = Go.Hang).
Proof.
  assert (Hhang : forall r0 name entry, gateways r0 !! name = Some entry ->
            moduleName entry = owner -> UnregisterServicesByModule owner r0 = Go.Hang).
  { intros r0 name entry Hg Hm. unfold UnregisterServicesByModule.
    rewrite decide_True; [done|]. apply map_Exists_lookup. by exists name, entry. }
  split; [|split].
  - intros Hnone. unfold UnregisterServicesByModule. rewrite decide_False.
    + eexists. split; [done|]. split; [done|]. split; [done|].
      intros name. cbn [services withServices].
      destruct (services r !! name) as [entry|] eqn:Hs.
      * destruct (decide (moduleName entry = owner)) as [Ho|Ho].
        -- apply map_lookup_filter_None. right. intros entry' Hs' Hne. cbn in Hne.
           rewrite Hs in Hs'. by simplify_eq.
        -- apply map_lookup_filter_Some. done.
      * apply map_lookup_filter_None. by left.
    + intros (name & entry & Hg & Hm)%map_Exists_lookup. by apply (Hnone name entry).
  - intros name entry. apply Hhang.
  - intros gateway r'. unfold RegisterGateway.
    destruct (gateways r !! owner); [done|]. intros [= <-].
    apply (Hhang _ owner {| service := gateway; moduleName := owner |}); [|done].
    cbn. apply lookup_insert_eq.
Qed.

Lemma UnregisterServicesByModule_hangs (owner : string) (r : Registry.DefaultRegistry)
    (name : string) (entry : Registry.serviceEntry) :
  Registry.gateways r !! name = Some entry -> Registry.moduleName entry = owner ->
  Registry.UnregisterServicesByModule owner r = Go.Hang.
Proof.
  intros Hg Hm. unfold Registry.UnregisterServicesByModule.
  rewrite decide_True; [done|]. apply map_Exists_lookup. by exists name, entry.
Qed.

Lemma UnregisterServicesByModule_returns (owner : string) (r : Registry.DefaultRegistry) :
  (forall name entry, Registry.gateways r !! name = Some entry ->
     Registry.moduleName entry <> owner) ->
  exists r', Registry.UnregisterServicesByModule owner r = Go.Ret tt r' /\
    Registry.gateways r' = Registry.gateways r /\
    Registry.accessController r' = Registry.accessController r /\
    forall name,
      Registry.services r' !! name =
        match Registry.services r !! name with
        | Some entry => if decide (Registry.moduleName entry = owner) then None else Some entry
        | None => None
        end.
Proof.
  intros Hnone. unfold Registry.UnregisterServicesByModule. rewrite decide_False.
  - eexists. split; [done|]. split; [done|]. split; [done|].
    intros name. cbn [Registry.services Registry.withServices].
    destruct (Registry.services r !! name) as [entry|] eqn:Hs.
    + destruct (decide (Registry.moduleName entry = owner)) as [Ho|Ho].
      * apply map_lookup_filter_None. right. intros entry' Hs' Hne. cbn in Hne.
        rewrite Hs in Hs'. by simplify_eq.
      * apply map_lookup_filter_Some. done.
    + apply map_lookup_filter_None. by left.
  - intros (name & entry & Hg & Hm)%map_Exists_lookup. by apply (Hnone name entry).
Qed.

End RegistryFacts.

(** ** Kernel: calls in the wrong state, and the failure paths *)

Module KernelFacts.

Import Kernel Scenarios.
Local Open Scope kernel_scope.

(** C5. [Start] on a running kernel returns [errAlreadyRunning] and
    [Stop] on a kernel that is not running returns [errNotRunning]; either
    call leaves the whole kernel state (module, gateway and enabled-state
    maps, running flag, registry) as it was and calls no component. *)
Theorem wrong_state_calls_change_nothing `{Semver} `{MapOrder}
    (ctx : Auth.Context) (k : kernel) :
  (running k = true -> Start ctx k = Ret (Some errAlreadyRunning) k) /\
  (running k = false -> Stop ctx k = Ret (Some errNotRunning) k).
Proof.
  split; intros Hrun.
  - unfold Start, bind, get. rewrite Hrun. reflexivity.
  - unfold Stop, bind, get. rewrite Hrun. reflexivity.
Qed.

Lemma wrong_state_calls_change_nothing_witness :
  Start Auth.Background (setRunning true threeModules)
    = Ret (Some errAlreadyRunning) (setRunning true threeModules) /\
  Stop Auth.Background threeModules = Ret (Some errNotRunning) threeModules.
Proof.
  split.
  - apply (wrong_state_calls_change_nothing Auth.Background (setRunning true threeModules)).
    reflexivity.
  - apply (wrong_state_calls_change_nothing Auth.Background threeModules).
    reflexivity.
Defined.

(** *** What [Start] does when a module fails *)

Lemma recordAll_nil k : recordAll [] k = k.
Proof. destruct k. unfold recordAll. cbn. by rewrite app_nil_r. Qed.

Lemma recordAll_app es1 es2 k : recordAll es2 (recordAll es1 k) = recordAll (es1 ++ es2) k.
Proof. unfold recordAll. cbn. by rewrite app_assoc. Qed.

Lemma record_recordAll e es k : recordAll es (record e k) = recordAll (e :: es) k.
Proof. unfold recordAll, record. cbn. by rewrite <- app_assoc. Qed.

Lemma setRunning_recordAll b es k :
  recordAll es (setRunning b k) = setRunning b (recordAll es k).
Proof. reflexivity. Qed.

Lemma stopDownTo_break (failed : string) (post : list Module) (m : Module)
    (pre : list Module) (k : kernel) :
  Forall (fun x => Mod.Name x <> failed) post ->
  Forall (fun x => exists r, Mod.Stop x = Returns r) post ->
  Mod.Name m = failed ->
  stopDownTo failed (post ++ m :: pre) k = Ret tt (recordAll (stopCall <$> post) k).
Proof.
  intros Hne Hstop Hm. revert k.
  induction post as [|x post IH]; intros k; cbn [stopDownTo app fmap list_fmap].
  - rewrite Hm, String.eqb_refl. by rewrite recordAll_nil.
  - apply Forall_cons in Hne as [Hx Hne]. apply Forall_cons in Hstop as [[r Hr] Hstop].
    apply String.eqb_neq in Hx. rewrite Hx.
    unfold bind at 1. unfold stopBestEffort, bind, call, ret. rewrite Hr.
    rewrite (IH Hne Hstop). by rewrite record_recordAll.
Qed.

Lemma startModules_fails (orderedModules pre : list Module) (m : Module)
    (post : list Module) (e : error) (k : kernel) :
  Forall (fun x => Mod.Start x = Returns None) pre ->
  Mod.Start m = Returns (Some e) ->
  startModules orderedModules (pre ++ m :: post) k =
    (stopDownTo (Mod.Name m) (reverse orderedModules);;
     ret (Some (Errorw ("start module " +:+ Mod.Name m) e)))
      (setRunning false (recordAll (startCall <$> pre ++ [m]) k)).
Proof.
  intros Hpre Hm. revert k.
  induction pre as [|x pre IH]; intros k; cbn [startModules app].
  - unfold bind at 1. unfold safelyExecute, call. rewrite Hm.
    unfold bind at 1. unfold modify. unfold bind at 1. reflexivity.
  - apply Forall_cons in Hpre as [Hx Hpre].
    unfold bind at 1. unfold safelyExecute, call. rewrite Hx.
    rewrite (IH Hpre). cbn [fmap list_fmap app]. by rewrite record_recordAll.
Qed.

(** When the module [m] fails to start, the modules stopped are those
    after [m] in the startup order, none of which was started; the modules
    before [m], which were started, are left running. *)
Lemma failed_start_rollback (pre : list Module) (m : Module) (post : list Module)
    (e : error) (k : kernel) :
  NoDup (Mod.Name <$> pre ++ m :: post) ->
  Forall (fun x => Mod.Start x = Returns None) pre ->
  Mod.Start m = Returns (Some e) ->
  Forall (fun x => exists r, Mod.Stop x = Returns r) post ->
  startModules (pre ++ m :: post) (pre ++ m :: post) k =
    Ret (Some (Errorw ("start module " +:+ Mod.Name m) e))
        (setRunning false
           (recordAll ((startCall <$> pre ++ [m]) ++ (stopCall <$> reverse post)) k)).
Proof.
  intros Hnd Hpre Hm Hpost.
  rewrite (startModules_fails _ pre m post e) by done.
  rewrite reverse_app, reverse_cons, <- app_assoc. cbn [app].
  unfold bind. rewrite stopDownTo_break; [|..|done].
  - unfold ret. by rewrite setRunning_recordAll, recordAll_app.
  - rewrite fmap_app, fmap_cons in Hnd. apply NoDup_app in Hnd as (_ & _ & Hnd).
    apply NoDup_cons in Hnd as [Hnot _].
    apply Forall_forall. intros x Hx Heq. rewrite elem_of_reverse in Hx. apply Hnot.
    rewrite <- Heq. apply list_elem_of_fmap. eauto.
  - apply Forall_forall. intros x Hx. rewrite elem_of_reverse in Hx.
    by apply (proj1 (Forall_forall _ _) Hpost).
Qed.

(** The loop over [OnReady] returns at the first failure. *)
Lemma failed_onready_returns (pre : list Module) (m : Module) (post : list Module)
    (e : error) (r : option error) (k : kernel) :
  Forall (fun x => Mod.OnReady x = Returns None) pre ->
  Mod.OnReady m = Returns (Some e) ->
  Mod.Stop m = Returns r ->
  onReadyModules (pre ++ m :: post) k =
    Ret (Some (Errorw ("module " +:+ Mod.Name m +:+ " OnReady") e))
        (recordAll ((onReadyCall <$> pre) ++ [onReadyCall m; boundedStopCall m]) k).
Proof.
  intros Hpre Hm Hstop. revert k.
  induction pre as [|x pre IH]; intros k; cbn [onReadyModules app fmap list_fmap].
  - unfold bind at 1. unfold safelyExecute, call. rewrite Hm.
    unfold bind, call, ret. rewrite Hstop.
    unfold recordAll, record. cbn. by rewrite <- app_assoc.
  - apply Forall_cons in Hpre as [Hx Hpre].
    unfold bind at 1. unfold safelyExecute, call. rewrite Hx.
    rewrite (IH Hpre). by rewrite record_recordAll.
Qed.

(** The same at the level of [Start]. *)
Lemma Start_failed_start `{Semver} `{MapOrder} (ctx : Auth.Context) (k : kernel)
    (pre : list Module) (m : Module) (post : list Module) (e : error) :
  running k = false ->
  getModuleStartupOrder (setRunning true k)
    = Ret (inr (pre ++ m :: post)) (setRunning true k) ->
  NoDup (Mod.Name <$> pre ++ m :: post) ->
  Forall (fun x => Mod.Start x = Returns None) pre ->
  Mod.Start m = Returns (Some e) ->
  Forall (fun x => exists r, Mod.Stop x = Returns r) post ->
  Start ctx k =
    Ret (Some (Errorw ("start module " +:+ Mod.Name m) e))
        (recordAll ((startCall <$> pre ++ [m]) ++ (stopCall <$> reverse post)) k).
Proof.
  intros Hrun Horder Hnd Hpre Hm Hpost.
  unfold Start. unfold bind at 1. unfold get. rewrite Hrun.
  unfold bind at 1. unfold modify. unfold bind at 1. rewrite Horder.
  unfold bind at 1. rewrite (failed_start_rollback pre m post e) by done.
  unfold ret. f_equal. destruct k; unfold setRunning, recordAll; cbn in *. by subst.
Qed.

(** Once the modules are started and their services registered, the first
    failing [OnReady] ends [Start]: the module is stopped and the error is
    returned; no later [OnReady] and no gateway is reached. *)
Lemma Start_failed_onready `{Semver} `{MapOrder} (ctx : Auth.Context) (k k1 k2 : kernel)
    (pre : list Module) (m : Module) (post : list Module) (e : error) (r : option error) :
  running k = false ->
  getModuleStartupOrder (setRunning true k)
    = Ret (inr (pre ++ m :: post)) (setRunning true k) ->
  startModules (pre ++ m :: post) (pre ++ m :: post) (setRunning true k) = Ret None k1 ->
  registerServices (pre ++ m :: post) (pre ++ m :: post) k1 = Ret None k2 ->
  Forall (fun x => Mod.OnReady x = Returns None) pre ->
  Mod.OnReady m = Returns (Some e) ->
  Mod.Stop m = Returns r ->
  Start ctx k =
    Ret (Some (Errorw ("module " +:+ Mod.Name m +:+ " OnReady") e))
        (recordAll ((onReadyCall <$> pre) ++ [onReadyCall m; boundedStopCall m]) k2).
Proof.
  intros Hrun Horder Hstart Hreg Hpre Hm Hstop.
  unfold Start. unfold bind at 1. unfold get. rewrite Hrun.
  unfold bind at 1. unfold modify. unfold bind at 1. rewrite Horder.
  unfold bind at 1. rewrite Hstart.
  unfold bind at 1. rewrite Hreg.
  unfold bind at 1. by rewrite (failed_onready_returns pre m post e r).
Qed.
(** C3 (evaluation). Startup order [a], [b], [c]; [b] fails to start.
    [Start] returns the wrapped error with the kernel not running, but the
    only [Stop] it calls is on [c], which was never started; [a], which
    was started, is not stopped. *)
Theorem failed_start_stops_the_modules_after_it :
  startupNames threeModules = Some ["a"; "b"; "c"] /\
  observe (Start Auth.Background threeModules) =
    Some (Some (Errorw "start module b" (Errorf "boom")),
          [Called IsModule "a" OpStart (plainCtx FromCaller);
           Called IsModule "b" OpStart (plainCtx FromCaller);
           Called IsModule "c" OpStop (plainCtx FromBackground)],
          false).
Proof. split; vm_compute; reflexivity. Qed.

(** C2 (evaluation). Startup order [p], [q] and one gateway; [p] fails in
    [OnReady].  [Start] stops [p] under its own shutdown timeout and then
    returns the [OnReady] error: [q.OnReady] is never called, the gateway
    is never started, and the kernel is left running. *)
Theorem failed_onready_ends_start :
  startupNames twoModulesOneGateway = Some ["p"; "q"] /\
  observe (Start Auth.Background twoModulesOneGateway) =
    Some (Some (Errorw "module p OnReady" (Errorf "not ready")),
          [Called IsModule "p" OpStart (plainCtx FromCaller);
           Called IsModule "q" OpStart (plainCtx FromCaller);
           Called IsModule "p" OpRegisterServices None;
           Called IsModule "q" OpRegisterServices None;
           Called IsModule "p" OpOnReady (plainCtx FromCaller);
           Called IsModule "p" OpStop (withTimeout FromBackground (Mod.ShutdownTimeout modP))],
          true).
Proof. split; vm_compute; reflexivity. Qed.

(** C4 (evaluation). [AddModule] of a module whose [Configure] fails
    returns the error and leaves the module in the module map and in the
    enabled-state map; with a failing [OnLoad] the module map entry is
    deleted but the enabled-state entry stays.  [RemoveModule] of a running
    module whose [Stop] fails puts the module back, but its service, which
    was registered before the call, is gone. *)
Theorem failed_add_and_remove_leave_traces :
  leftAfter "m" (AddModule adminCtx (Some modBadConfigure) (New configWithM None)) =
    Some (Some (Errorw "configure module m" (Errorf "bad config")),
          (true, Some true, [])) /\
  leftAfter "m" (AddModule adminCtx (Some modBadOnLoad) (New configWithM None)) =
    Some (Some (Errorw "module m OnLoad" (Errorf "cannot load")),
          (false, Some true, [])) /\
  (leftOf "m" <$> runningWithService) = Some (true, Some true, [("mService", "m")]) /\
  (runningWithService ≫= fun k => leftAfter "m" (RemoveModule adminCtx "m" k)) =
    Some (Some (Errorw "stop module m" (Errorf "cannot stop")),
          (true, Some true, [])).
Proof. repeat split; vm_compute; reflexivity. Qed.

End KernelFacts.

(** ** Kernel: the startup order *)

Module StartupOrder.

Import Kernel Kahn.

Section Walks.
Context (R : relation string).

Lemma isChain_app_r l1 l2 : isChain R (l1 ++ l2) -> isChain R l2.
Proof.
  induction l1 as [|a l1 IH]; simpl; [done|].
  destruct (l1 ++ l2) eqn:E; [destruct l1, l2; simplify_eq/=; done|].
  intros [_ ?]. auto.
Qed.

Lemma isChain_app_l l1 l2 : isChain R (l1 ++ l2) -> isChain R l1.
Proof.
  induction l1 as [|a l1 IH]; simpl; [done|].
  destruct l1 as [|b l1]; simpl in *; [done|].
  intros [? ?]. split; [done|]. by apply IH.
Qed.

Lemma isChain_tc a l b : isChain R (a :: l ++ [b]) -> tc R a b.
Proof.
  revert a. induction l as [|c l IH]; intros a; simpl.
  - intros [? _]. by apply tc_once.
  - intros [? Hc]. eapply tc_l; [done|]. by apply IH.
Qed.

Lemma not_NoDup_split (l : list string) :
  ~ NoDup l -> exists x l1 l2 l3, l = l1 ++ x :: l2 ++ x :: l3.
Proof.
  induction l as [|a l IH]; intros Hnd.
  - destruct Hnd. constructor.
  - destruct (decide (a ∈ l)) as [Hin|Hnin].
    + apply list_elem_of_split in Hin as (l2 & l3 & ->).
      by exists a, [], l2, l3.
    + destruct IH as (x & l1 & l2 & l3 & ->).
      { intros Hl. apply Hnd. by constructor. }
      by exists x, (a :: l1), l2, l3.
Qed.

Lemma walk_exists (S : gset string) :
  S ≠ ∅ -> (forall n, n ∈ S -> exists d, d ∈ S /\ R d n) ->
  forall k, exists l, length l = Datatypes.S k /\ isChain R l /\ (forall x, x ∈ l -> x ∈ S).
Proof.
  intros Hne Hpred k. induction k as [|k (l & Hlen & Hch & Hin)].
  - apply set_choose_L in Hne as [x Hx]. exists [x]. split; [done|]. split; [done|].
    intros y ->%list_elem_of_singleton. done.
  - destruct l as [|a l]; [done|].
    destruct (Hpred a) as (d & Hd & HR); [apply Hin; left|].
    exists (d :: a :: l). split; [simpl in *; lia|]. split; [by split|].
    intros y [->|Hy]%elem_of_cons; [done|by apply Hin].
Qed.

Lemma no_source_cycle (S : gset string) :
  S ≠ ∅ -> (forall n, n ∈ S -> exists d, d ∈ S /\ R d n) -> exists x, tc R x x.
Proof.
  intros Hne Hpred.
  destruct (walk_exists S Hne Hpred (size S)) as (l & Hlen & Hch & Hin).
  destruct (not_NoDup_split l) as (x & l1 & l2 & l3 & ->).
  { intros Hnd.
    assert (length l <= size S); [|lia].
    rewrite <- (size_list_to_set (C:=gset string) l) by done.
    apply subseteq_size. intros y Hy%elem_of_list_to_set. by apply Hin. }
  exists x. apply (isChain_tc x l2 x).
  apply isChain_app_r in Hch.
  apply (isChain_app_l _ l3).
  replace ((x :: l2 ++ [x]) ++ l3) with (x :: l2 ++ x :: l3); [done|].
  simpl. by rewrite <- app_assoc.
Qed.
End Walks.

Section Build.
Context `{Semver} `{MapOrder} `{!MapOrderLaws}.
Variable E : gmap string Module.

Lemma adj_insert gr d l d' :
  adj (<[d := l]> gr) d' = if decide (d = d') then l else adj gr d'.
Proof. unfold adj. rewrite lookup_insert. by case_decide. Qed.

Lemma indeg_insert inDeg n z n' :
  indeg (<[n := z]> inDeg) n' = if decide (n = n') then z else indeg inDeg n'.
Proof. unfold indeg. rewrite lookup_insert. by case_decide. Qed.

Lemma addDependencies_ok name deps g :
  NoDup deps.*1 ->
  (forall d c, (d, c) ∈ deps ->
     exists dep cs v, E !! d = Some dep /\ NewConstraint c = inr cs /\
       NewVersion (Mod.Version dep) = inr v /\ Check cs v = true) ->
  exists g', addDependencies E name deps g = inr g' /\
    (forall d, adj (graph g') d =
       adj (graph g) d ++ (if decide (d ∈ deps.*1) then [name] else [])) /\
    (forall n, indeg (inDegree g') n =
       (indeg (inDegree g) n + (if decide (n = name) then Z.of_nat (length deps) else 0))%Z).
Proof.
  revert g. induction deps as [|[d0 c0] deps IH]; intros g Hnd Hok.
  - exists g. split; [done|]. split.
    + intros d. rewrite decide_False; [by rewrite app_nil_r|].
      rewrite fmap_nil. by intros ?%elem_of_nil.
    + intros n. cbn [length]. case_decide; lia.
  - rewrite fmap_cons in Hnd. apply NoDup_cons in Hnd as [Hd0 Hnd]. simpl in Hd0.
    destruct (Hok d0 c0) as (dep & cs & v & HE & Hc & Hv & Hchk); [left|].
    cbn [addDependencies]. unfold addDependency at 1. rewrite HE, Hc, Hv, Hchk. cbn [negb].
    set (g1 := {| graph := _; inDegree := _ |}).
    destruct (IH g1 Hnd) as (g' & Hrun & Hadj & Hdeg).
    { intros d c Hin. apply Hok. by right. }
    exists g'. split; [done|]. split.
    + intros d. rewrite Hadj. subst g1. cbn [graph]. rewrite adj_insert.
      rewrite fmap_cons. cbn [fst].
      destruct (decide (d0 = d)) as [<-|Hne].
      * rewrite (decide_False (P := d0 ∈ deps.*1)) by done.
        rewrite decide_True by left. fold (adj (graph g) d0). by rewrite app_nil_r.
      * destruct (decide (d ∈ deps.*1)) as [Hin|Hnin].
        -- by rewrite decide_True by by right.
        -- rewrite decide_False; [done|]. intros [->|?]%elem_of_cons; done.
    + intros n. rewrite Hdeg. subst g1. cbn [inDegree]. rewrite indeg_insert.
      cbn [length]. fold (indeg (inDegree g) name).
      destruct (decide (name = n)) as [<-|Hne].
      * rewrite !decide_True by done. lia.
      * rewrite !decide_False by done. lia.
Qed.

Lemma buildGraph_ok es g :
  NoDup es.*1 ->
  (forall n m, (n, m) ∈ es -> satisfiable E m) ->
  exists g', buildGraph E es g = inr g' /\
    (forall d, adj (graph g') d = adj (graph g) d ++ dependents d es) /\
    (forall n, indeg (inDegree g') n = (indeg (inDegree g) n + Z.of_nat (degreeOf n es))%Z).
Proof.
  revert g. induction es as [|[n0 m0] es IH]; intros g Hnd Hok.
  - exists g. split; [done|]. unfold dependents, degreeOf.
    split; intros; simpl; [by rewrite app_nil_r|lia].
  - rewrite fmap_cons in Hnd. apply NoDup_cons in Hnd as [Hn0 Hnd].
    destruct (Hok n0 m0) as [[v Hv] Hdeps]; [left|].
    cbn [buildGraph]. unfold addModuleEdges at 1. rewrite Hv.
    pose proof (rangeOrder_perm _ (AtDependencies n0) (Mod.Dependencies m0)) as Hperm.
    destruct (addDependencies_ok n0 (rangeOrder (AtDependencies n0) (Mod.Dependencies m0)) g)
      as (g1 & -> & Hadj1 & Hdeg1).
    { rewrite Hperm. apply NoDup_fst_map_to_list. }
    { intros d c Hin. apply Hdeps. rewrite Hperm in Hin. by apply elem_of_map_to_list in Hin. }
    destruct (IH g1 Hnd) as (g' & Hrun & Hadj & Hdeg).
    { intros n m Hin. apply (Hok n). by right. }
    exists g'. split; [done|]. split.
    + intros d. rewrite Hadj, Hadj1, <- app_assoc. f_equal.
      unfold dependents. rewrite filter_cons. cbn [snd].
      destruct (decide (is_Some (Mod.Dependencies m0 !! d))) as [Hs|Hns].
      * rewrite decide_True; [done|]. rewrite Hperm.
        destruct Hs as [c Hc]. apply list_elem_of_fmap. exists (d, c). split; [done|].
        by apply elem_of_map_to_list.
      * rewrite decide_False; [done|]. rewrite Hperm.
        intros ([d' c] & -> & Hin%elem_of_map_to_list)%list_elem_of_fmap. apply Hns. by exists c.
    + intros n. rewrite Hdeg, Hdeg1. unfold degreeOf. rewrite fmap_cons. cbn [sum_list fst snd].
      assert (length (rangeOrder (AtDependencies n0) (Mod.Dependencies m0))
              = size (Mod.Dependencies m0)) as ->.
      { by rewrite Hperm, length_map_to_list. }
      destruct (decide (n = n0)) as [->|Hne].
      * rewrite decide_True by done. unfold id. lia.
      * rewrite (decide_False (P := n0 = n)) by done. unfold id. lia.
Qed.

Lemma elem_of_dependents d es n :
  n ∈ dependents d es <-> exists m, (n, m) ∈ es /\ is_Some (Mod.Dependencies m !! d).
Proof.
  unfold dependents. rewrite list_elem_of_fmap. split.
  - intros ([n' m] & -> & [Hs Hin]%list_elem_of_filter). by exists m.
  - intros (m & Hin & Hs). exists (n, m). split; [done|]. by apply list_elem_of_filter.
Qed.

Lemma NoDup_dependents d es : NoDup es.*1 -> NoDup (dependents d es).
Proof.
  intros Hnd. unfold dependents. apply (sublist_NoDup _ (es.*1)); [done|].
  apply fmap_sublist, sublist_filter.
Qed.

Lemma degreeOf_cons n e es :
  degreeOf n (e :: es) =
    (if decide (e.1 = n) then size (Mod.Dependencies e.2) else 0) + degreeOf n es.
Proof. reflexivity. Qed.

Lemma degreeOf_absent n es : n ∉ es.*1 -> degreeOf n es = 0.
Proof.
  induction es as [|e es IH]; [done|].
  rewrite fmap_cons, not_elem_of_cons. intros [Hne Hn].
  rewrite degreeOf_cons, decide_False, IH by done. done.
Qed.

Lemma degreeOf_lookup n m es :
  NoDup es.*1 -> (n, m) ∈ es -> degreeOf n es = size (Mod.Dependencies m).
Proof.
  induction es as [|e es IH]; intros Hnd Hin.
  - by apply elem_of_nil in Hin.
  - rewrite fmap_cons in Hnd. apply NoDup_cons in Hnd as [Hn0 Hnd].
    rewrite degreeOf_cons.
    apply elem_of_cons in Hin as [<-|Hin].
    + cbn [fst snd] in *. rewrite decide_True, degreeOf_absent by done. lia.
    + rewrite decide_False, IH by (try done; intros <-; apply Hn0;
        apply list_elem_of_fmap; by exists (e.1, m)). done.
Qed.

End Build.

Lemma pending_snoc emitted x m :
  x ∉ emitted ->
  (is_Some (Mod.Dependencies m !! x) -> 0 < pending emitted m) /\
  pending (emitted ++ [x]) m =
    pending emitted m - (if decide (is_Some (Mod.Dependencies m !! x)) then 1 else 0).
Proof.
  intros Hx. unfold pending.
  set (D := dom (Mod.Dependencies m) : gset string).
  assert (Hset : filter (fun d => d ∉ emitted ++ [x]) D
                 = filter (fun d => d ∉ emitted) D ∖ {[x]}).
  { apply set_eq. intros d. rewrite elem_of_difference, !elem_of_filter, elem_of_app,
      list_elem_of_singleton, elem_of_singleton. tauto. }
  rewrite Hset. split.
  - intros Hs. apply elem_of_dom in Hs.
    assert (x ∈ filter (fun d => d ∉ emitted) D) as Hin by (by apply elem_of_filter).
    destruct (decide (size (filter (fun d => d ∉ emitted) D) = 0)) as [Hz|]; [|lia].
    apply size_empty_inv in Hz. apply Hz in Hin. by apply elem_of_empty in Hin.
  - destruct (decide (is_Some (Mod.Dependencies m !! x))) as [Hs|Hns].
    + rewrite size_difference, size_singleton; [done|].
      apply elem_of_dom in Hs. apply singleton_subseteq_l. by apply elem_of_filter.
    + rewrite Nat.sub_0_r. f_equal. apply set_eq. intros d.
      rewrite elem_of_difference, elem_of_filter, elem_of_singleton.
      split; [tauto|]. intros [? ?]. split; [done|]. intros ->.
      apply Hns. by apply elem_of_dom.
Qed.

Section Kahn.
Variable E : gmap string Module.
Variable gr : gmap string (list string).
Hypothesis HE : keyedByName E.
Hypothesis Hclosed : forall n m d,
  E !! n = Some m -> is_Some (Mod.Dependencies m !! d) -> is_Some (E !! d).
Hypothesis Hadj : forall d n, n ∈ adj gr d <-> dependsOn E n d.
Hypothesis HadjND : forall d, NoDup (adj gr d).

Lemma relax_fold ns : NoDup ns ->
  forall inDeg0 inDeg queue, (forall n, n ∈ ns -> indeg inDeg n = indeg inDeg0 n) ->
  exists inDeg',
    foldl (relax E) (inDeg, queue) ns =
      (inDeg', queue ++ ((fun n => E !! n) <$> filter (fun n => indeg inDeg0 n = 1%Z) ns)) /\
    forall n, indeg inDeg' n = (indeg inDeg n - (if decide (n ∈ ns) then 1 else 0))%Z.
Proof.
  induction 1 as [|n0 ns Hn0 Hnd IH]; intros inDeg0 inDeg queue Hagree.
  - exists inDeg. split; [by rewrite filter_nil, app_nil_r|].
    intros n. rewrite decide_False by (by intros ?%elem_of_nil). lia.
  - cbn [foldl]. unfold relax at 2. fold (indeg inDeg n0).
    set (inDeg1 := <[n0 := (indeg inDeg n0 - 1)%Z]> inDeg).
    assert (Hagree1 : forall n, n ∈ ns -> indeg inDeg1 n = indeg inDeg0 n).
    { intros n Hn. unfold inDeg1. rewrite indeg_insert, decide_False by (by intros <-).
      apply Hagree. by right. }
    assert (Hfinal : forall inDeg' : gmap string Z,
      (forall n, indeg inDeg' n = (indeg inDeg1 n - (if decide (n ∈ ns) then 1 else 0))%Z) ->
      forall n, indeg inDeg' n = (indeg inDeg n - (if decide (n ∈ n0 :: ns) then 1 else 0))%Z).
    { intros inDeg' Hd n. rewrite Hd. unfold inDeg1. rewrite indeg_insert.
      destruct (decide (n0 = n)) as [<-|Hne].
      - rewrite decide_False by done. rewrite decide_True by left. lia.
      - destruct (decide (n ∈ ns)).
        + rewrite decide_True by (by right). done.
        + rewrite decide_False; [done|]. by intros [->|?]%elem_of_cons. }
    rewrite filter_cons. rewrite <- (Hagree n0) by left.
    destruct (Z.eqb_spec (indeg inDeg n0 - 1) 0) as [Hz|Hnz].
    + destruct (IH inDeg0 inDeg1 (queue ++ [E !! n0]) Hagree1) as (inDeg' & -> & Hd).
      exists inDeg'. split; [|by apply Hfinal].
      rewrite decide_True by lia. by rewrite fmap_cons, <- app_assoc.
    + destruct (IH inDeg0 inDeg1 queue Hagree1) as (inDeg' & -> & Hd).
      exists inDeg'. split; [|by apply Hfinal].
      by rewrite decide_False by lia.
Qed.

Lemma lookups_Some (l : list string) :
  (forall n, n ∈ l -> is_Some (E !! n)) ->
  exists new, (fun n => E !! n) <$> l = Some <$> new /\ Mod.Name <$> new = l /\
    forall m, m ∈ new -> E !! Mod.Name m = Some m.
Proof.
  induction l as [|n l IH]; intros Hl.
  - exists []. split; [done|]. split; [done|]. by intros m ?%elem_of_nil.
  - destruct (Hl n) as [m Hm]; [left|].
    destruct IH as (new & Heq & Hnames & Hmem); [intros; apply Hl; by right|].
    pose proof (HE _ _ Hm) as Hname.
    exists (m :: new). rewrite !fmap_cons, Heq, Hm, Hnames, Hname. split; [done|]. split; [done|].
    intros m' [->|?]%elem_of_cons; [by rewrite Hname|by apply Hmem].
Qed.

Lemma pending_zero_emitted emitted m d :
  pending emitted m = 0 -> is_Some (Mod.Dependencies m !! d) -> d ∈ emitted.
Proof.
  unfold pending. intros Hz%size_empty_inv Hs. apply elem_of_dom in Hs.
  destruct (decide (d ∈ emitted)) as [|Hn]; [done|].
  assert (d ∈ filter (fun d => d ∉ emitted) (dom (Mod.Dependencies m) : gset string))
    as Hin by (by apply elem_of_filter).
  apply Hz in Hin. by apply elem_of_empty in Hin.
Qed.

Lemma kahn_step inDeg m qs ordered :
  KahnInv E inDeg (m :: qs) ordered ->
  exists inDeg' qs',
    foldl (relax E) (inDeg, Some <$> qs) (default [] (gr !! Mod.Name m)) = (inDeg', Some <$> qs') /\
    KahnInv E inDeg' qs' (ordered ++ [m]).
Proof.
  intros [Hmem Hnd Hpend Hzero Htopo].
  set (x := Mod.Name m). fold (adj gr x).
  assert (Hm : E !! x = Some m).
  { apply Hmem, elem_of_app. right. left. }
  assert (Hxq : x ∉ Mod.Name <$> ordered).
  { rewrite fmap_app, fmap_cons in Hnd. apply NoDup_app in Hnd as (_ & Hdis & _).
    intros Hin. apply (Hdis x Hin). left. }
  destruct (relax_fold (adj gr x) (HadjND x) inDeg inDeg (Some <$> qs)) as (inDeg' & Hfold & Hdeg);
    [done|].
  destruct (lookups_Some (filter (fun n => indeg inDeg n = 1%Z) (adj gr x)))
    as (new & Hnew & Hnames & Hnewmem).
  { intros n [_ Hn]%list_elem_of_filter. apply Hadj in Hn as (mn & Hmn & _). by exists mn. }
  exists inDeg', (qs ++ new). split; [by rewrite Hfold, Hnew, fmap_app|].
  (* facts about the successors of x *)
  assert (Hsucc : forall n, n ∈ adj gr x ->
            exists mn, E !! n = Some mn /\ is_Some (Mod.Dependencies mn !! x) /\
              (1 <= indeg inDeg n)%Z /\ n ∉ Mod.Name <$> (ordered ++ m :: qs)).
  { intros n Hn. apply Hadj in Hn as (mn & Hmn & Hs). exists mn. split; [done|]. split; [done|].
    destruct (pending_snoc (Mod.Name <$> ordered) x mn Hxq) as [Hpos _].
    specialize (Hpos Hs). rewrite (Hpend n mn Hmn).
    split; [lia|]. intros Hin. apply Hzero in Hin; [|by exists mn].
    rewrite (Hpend n mn Hmn) in Hin. lia. }
  assert (Hnewin : forall n, n ∈ Mod.Name <$> new <-> n ∈ adj gr x /\ indeg inDeg n = 1%Z).
  { intros n. rewrite Hnames, list_elem_of_filter. tauto. }
  assert (Heq : (ordered ++ [m]) ++ qs ++ new = (ordered ++ m :: qs) ++ new).
  { by rewrite <- !app_assoc. }
  split.
  - intros m'. rewrite Heq. intros [Hin|Hin]%elem_of_app; [by apply Hmem|by apply Hnewmem].
  - rewrite Heq, fmap_app. apply NoDup_app. split; [done|]. split.
    + intros n Hn Hn'. apply Hnewin in Hn' as [Hn' _].
      by destruct (Hsucc n Hn') as (mn & _ & _ & _ & Hnot).
    + rewrite Hnames. apply (sublist_NoDup _ (adj gr x)); [apply HadjND|apply sublist_filter].
  - intros n mn Hmn. rewrite Hdeg, (Hpend n mn Hmn), fmap_app. cbn [fmap list_fmap]. fold x.
    destruct (pending_snoc (Mod.Name <$> ordered) x mn Hxq) as [Hpos ->].
    destruct (decide (is_Some (Mod.Dependencies mn !! x))) as [Hs|Hns].
    + rewrite decide_True; [specialize (Hpos Hs); lia|]. apply Hadj. by exists mn.
    + rewrite decide_False; [lia|]. intros (mn' & Hmn' & Hs)%Hadj. by simplify_eq.
  - intros n Hn. rewrite Hdeg, Heq, fmap_app, elem_of_app.
    destruct (decide (n ∈ adj gr x)) as [Hin|Hnin].
    + destruct (Hsucc n Hin) as (mn & Hmn & Hs & Hge & Hnot).
      rewrite Hnewin. split; [intros [?|[_ ?]]; [done|lia]|].
      intros Hz. right. split; [done|lia].
    + rewrite Z.sub_0_r, <- (Hzero n Hn), Hnewin. tauto.
  - intros j m' d Hj Hs.
    destruct (decide (j < length ordered)) as [Hlt|Hge].
    + rewrite lookup_app_l in Hj by done.
      destruct (Htopo j m' d Hj Hs) as (i & dep & Hi & Hlook & Hname).
      exists i, dep. split; [done|]. split; [|done]. rewrite lookup_app_l by lia. done.
    + assert (j = length ordered) as ->.
      { apply lookup_lt_Some in Hj. rewrite length_app in Hj. simpl in Hj. lia. }
      rewrite list_lookup_middle in Hj by done. simplify_eq.
      assert (Hz : indeg inDeg x = 0%Z).
      { apply Hzero; [by exists m'|]. rewrite fmap_app, fmap_cons, elem_of_app.
        right. left. }
      rewrite (Hpend x m' Hm) in Hz.
      assert (Hd : d ∈ Mod.Name <$> ordered).
      { apply (pending_zero_emitted _ m'); [lia|done]. }
      apply list_elem_of_fmap in Hd as (dep & -> & Hdep).
      apply list_elem_of_lookup in Hdep as [i Hi].
      exists i, dep. split; [by apply lookup_lt_Some in Hi|].
      split; [|done]. rewrite lookup_app_l; [done|]. by apply lookup_lt_Some in Hi.
Qed.

Lemma names_bound inDeg qs ordered :
  KahnInv E inDeg qs ordered -> length (ordered ++ qs) <= size E.
Proof.
  intros [Hmem Hnd _ _ _].
  rewrite <- (length_fmap Mod.Name), <- (size_list_to_set (C:=gset string)) by done.
  rewrite <- (size_dom (D:=gset string) E). apply subseteq_size.
  intros n (m & -> & Hm)%elem_of_list_to_set%list_elem_of_fmap.
  apply elem_of_dom. exists m. by apply Hmem.
Qed.

Lemma kahn_runs fuel : forall inDeg qs ordered k,
  KahnInv E inDeg qs ordered -> size E <= fuel + length ordered ->
  exists inDeg' final,
    kahn fuel E gr inDeg (Some <$> qs) ordered k = Ret final k /\ KahnInv E inDeg' [] final.
Proof.
  induction fuel as [|fuel IH]; intros inDeg qs ordered k Hinv Hfuel.
  - destruct qs as [|m qs]; [by exists inDeg, ordered|].
    apply names_bound in Hinv. rewrite length_app in Hinv. simpl in *. lia.
  - destruct qs as [|m qs]; [by exists inDeg, ordered|].
    destruct (kahn_step _ _ _ _ Hinv) as (inDeg1 & qs1 & Hfold & Hinv1).
    rewrite fmap_cons. cbn [kahn]. rewrite Hfold.
    apply IH; [done|]. rewrite length_app. simpl. lia.
Qed.

End Kahn.

Section Order.
Variable E : gmap string Module.
Hypothesis HE : keyedByName E.

Lemma before_trans names a b c :
  NoDup names -> before names a b -> before names b c -> before names a c.
Proof.
  intros Hnd (i & j & Hij & Hi & Hj) (j' & l & Hjl & Hj' & Hl).
  assert (j = j') as <- by (by eapply NoDup_lookup).
  exists i, l. split; [lia|done].
Qed.

Lemma before_irrefl names a : NoDup names -> ~ before names a a.
Proof.
  intros Hnd (i & j & Hij & Hi & Hj).
  assert (i = j) by (by eapply NoDup_lookup). lia.
Qed.

Lemma topological_no_cycle final :
  NoDup (Mod.Name <$> final) ->
  (forall m, m ∈ final -> E !! Mod.Name m = Some m) ->
  (forall n, is_Some (E !! n) -> n ∈ Mod.Name <$> final) ->
  topological final -> ~ hasCycle E.
Proof.
  intros Hnd Hmem Hall Htopo [x Hx].
  assert (Hedge : forall d n, edge E d n -> before (Mod.Name <$> final) d n).
  { intros d n (m & Hm & Hs).
    assert (Hn : n ∈ Mod.Name <$> final) by (apply Hall; by exists m).
    apply list_elem_of_fmap in Hn as (m' & -> & Hm').
    pose proof (Hmem m' Hm') as Hm''.
    assert (m' = m) as -> by congruence.
    apply list_elem_of_lookup in Hm' as [j Hj].
    destruct (Htopo j m d Hj Hs) as (i & dep & Hi & Hlook & <-).
    exists i, j. rewrite !list_lookup_fmap, Hlook, Hj. done. }
  assert (Htc : forall a b, tc (edge E) a b -> before (Mod.Name <$> final) a b).
  { induction 1 as [a b Hab|a b c Hab _ IH]; [by apply Hedge|].
    eapply before_trans; [done|by apply Hedge|done]. }
  by eapply before_irrefl, Htc.
Qed.

Lemma stuck_has_cycle inDeg final :
  (forall n m d, E !! n = Some m -> is_Some (Mod.Dependencies m !! d) -> is_Some (E !! d)) ->
  KahnInv E inDeg [] final -> length final <> size E -> hasCycle E.
Proof.
  intros Hclosed Hinv Hlen.
  pose proof (names_bound E _ _ _ Hinv) as Hle. rewrite app_nil_r in Hle.
  destruct Hinv as [Hmem Hnd Hpend Hzero _]. rewrite app_nil_r in *.
  set (names := Mod.Name <$> final) in *.
  set (S := dom E ∖ list_to_set names : gset string).
  assert (Hsub : (list_to_set names : gset string) ⊆ dom E).
  { intros n (m & -> & Hm)%elem_of_list_to_set%list_elem_of_fmap.
    apply elem_of_dom. exists m. by apply Hmem. }
  apply (no_source_cycle (edge E) S).
  - intros HS. assert (size S = 0) as Hz by (by rewrite HS, size_empty).
    unfold S in Hz. rewrite size_difference, size_dom, size_list_to_set in Hz by done.
    unfold names in Hz. rewrite length_fmap in Hz. lia.
  - intros n [Hn Hout]%elem_of_difference.
    apply elem_of_dom in Hn as [m Hm]. rewrite elem_of_list_to_set in Hout.
    assert (Hp : pending names m <> 0).
    { intros Hp. apply Hout, Hzero; [by exists m|]. rewrite (Hpend n m Hm). lia. }
    unfold pending in Hp. apply size_non_empty_iff in Hp.
    apply set_choose in Hp as [d [Hd Hdom]%elem_of_filter].
    apply elem_of_dom in Hdom.
    exists d. split; [|by exists m].
    apply elem_of_difference. split.
    + apply elem_of_dom. by eapply Hclosed.
    + by rewrite elem_of_list_to_set.
Qed.

End Order.

Section Main.
Context `{Semver} `{MapOrder} `{!MapOrderLaws}.

Lemma enabledModules_keyed k : keyedByName (modules k) -> keyedByName (enabledModules k).
Proof.
  intros Hk n m Hm. unfold enabledModules in Hm.
  apply map_lookup_filter_Some in Hm as [Hm _]. by apply Hk.
Qed.

Lemma seedQueue_eq inDeg (es : list (string * Module)) :
  seedQueue inDeg es = Some <$> (filter (fun e => indeg inDeg e.1 = 0%Z) es).*2.
Proof.
  induction es as [|e es IH]; [done|].
  unfold seedQueue in *. cbn [omap list_omap]. fold (indeg inDeg e.1).
  rewrite filter_cons.
  destruct (Z.eqb_spec (indeg inDeg e.1) 0) as [Hz|Hnz].
  - rewrite decide_True by done. rewrite !fmap_cons. f_equal. apply IH.
  - rewrite decide_False by done. apply IH.
Qed.

Lemma initial_invariant (E : gmap string Module) (g : Graph) (es : list (string * Module)) :
  keyedByName E ->
  es ≡ₚ map_to_list E ->
  (forall n m, E !! n = Some m ->
     indeg (inDegree g) n = Z.of_nat (size (Mod.Dependencies m))) ->
  KahnInv E (inDegree g) (filter (fun e => indeg (inDegree g) e.1 = 0%Z) es).*2 [].
Proof.
  intros HE Hperm Hdeg.
  set (qs := filter (fun e => indeg (inDegree g) e.1 = 0%Z) es).
  assert (Hes : forall n m, (n, m) ∈ es <-> E !! n = Some m).
  { intros n m. by rewrite Hperm, elem_of_map_to_list. }
  assert (Hnames : Mod.Name <$> qs.*2 = qs.*1).
  { rewrite <- list_fmap_compose. apply list_fmap_ext.
    intros i [n m] [_ Hin]%list_elem_of_lookup_2%list_elem_of_filter. simpl.
    apply HE. by apply Hes. }
  split; cbn [app].
  - intros m ([n m'] & -> & [_ Hin]%list_elem_of_filter)%list_elem_of_fmap. simpl.
    apply Hes in Hin. by rewrite (HE _ _ Hin).
  - rewrite Hnames. apply (sublist_NoDup _ (es.*1)).
    + rewrite Hperm. apply NoDup_fst_map_to_list.
    + apply fmap_sublist, sublist_filter.
  - intros n m Hm. rewrite (Hdeg n m Hm). f_equal. unfold pending.
    rewrite <- (size_dom (D:=gset string)). f_equal. apply set_eq. intros d.
    rewrite elem_of_filter. split; [|tauto]. intros ?. split; [|done]. by intros ?%elem_of_nil.
  - intros n [m Hm]. rewrite Hnames, list_elem_of_fmap. split.
    + by intros ([n' m'] & -> & [Hz _]%list_elem_of_filter).
    + intros Hz. exists (n, m). split; [done|]. apply list_elem_of_filter. split; [done|].
      by apply Hes.
  - intros j m d Hj. by rewrite lookup_nil in Hj.
Qed.

(** C1. Let every module be stored under its name, and let the enabled
    modules be such that each version parses and each declared dependency
    is an enabled module whose version satisfies the declared constraint,
    which parses.  Then, whatever the iteration orders: if the dependency
    graph of the enabled modules has a cycle, [getModuleStartupOrder]
    returns the circular-dependency error; otherwise it returns a list that
    holds each enabled module exactly once and in which every declared
    dependency of a module stands before that module. *)
Theorem startup_order_topological (k : kernel) :
  keyedByName (modules k) ->
  wellVersioned (enabledModules k) ->
  (hasCycle (enabledModules k) -> getModuleStartupOrder k = Ret (inl errCircular) k) /\
  (~ hasCycle (enabledModules k) ->
     exists order, getModuleStartupOrder k = Ret (inr order) k /\
       order ≡ₚ (map_to_list (enabledModules k)).*2 /\ topological order).
Proof.
  intros Hkeyed Hwell.
  apply enabledModules_keyed in Hkeyed.
  unfold getModuleStartupOrder, bind, get.
  set (E := enabledModules k) in *.
  pose proof (rangeOrder_perm _ AtGraphBuild E) as Hbuild.
  pose proof (rangeOrder_perm _ AtQueueSeed E) as Hseed.
  set (g0 := {| graph := ∅; inDegree := (fun _ => 0%Z) <$> E |}).
  destruct (buildGraph_ok E (rangeOrder AtGraphBuild E) g0) as (g & -> & Hadj & Hdeg).
  { rewrite Hbuild. apply NoDup_fst_map_to_list. }
  { intros n m Hin. rewrite Hbuild in Hin. apply elem_of_map_to_list in Hin. by eapply Hwell. }
  assert (Hes : forall n m, (n, m) ∈ rangeOrder AtGraphBuild E <-> E !! n = Some m).
  { intros n m. by rewrite Hbuild, elem_of_map_to_list. }
  assert (Hnd : NoDup (rangeOrder AtGraphBuild E).*1).
  { rewrite Hbuild. apply NoDup_fst_map_to_list. }
  assert (Hadj' : forall d n, n ∈ adj (graph g) d <-> dependsOn E n d).
  { intros d n. rewrite Hadj. unfold g0 at 1. cbn [graph]. unfold adj at 1.
    rewrite lookup_empty. cbn [default app]. rewrite elem_of_dependents.
    unfold dependsOn. by setoid_rewrite Hes. }
  assert (HadjND : forall d, NoDup (adj (graph g) d)).
  { intros d. rewrite Hadj. unfold g0 at 1. cbn [graph]. unfold adj at 1.
    rewrite lookup_empty. cbn [default app]. by apply NoDup_dependents. }
  assert (Hdeg' : forall n m, E !! n = Some m ->
            indeg (inDegree g) n = Z.of_nat (size (Mod.Dependencies m))).
  { intros n m Hm. rewrite Hdeg. unfold g0 at 1. cbn [inDegree]. unfold indeg at 1.
    rewrite lookup_fmap, Hm. cbn [fmap option_fmap option_map default].
    rewrite (degreeOf_lookup n m) by (try done; by apply Hes). unfold id. lia. }
  assert (Hclosed : forall n m d,
            E !! n = Some m -> is_Some (Mod.Dependencies m !! d) -> is_Some (E !! d)).
  { intros n m d Hm [c Hc]. destruct (Hwell n m Hm) as [_ Hdeps].
    destruct (Hdeps d c Hc) as (dep & _ & _ & Hdep & _). by exists dep. }
  rewrite seedQueue_eq.
  destruct (kahn_runs E (graph g) Hkeyed Hadj' HadjND (size E) (inDegree g) _ [] k
              (initial_invariant E g _ Hkeyed Hseed Hdeg'))
    as (inDeg' & final & -> & Hinv); [simpl; lia|].
  destruct (Nat.eqb_spec (length final) (size E)) as [Hlen|Hlen]; cbn [negb].
  - assert (Hperm : final ≡ₚ (map_to_list E).*2).
    { destruct Hinv as [Hmem Hnodup _ _ _]. rewrite app_nil_r in *.
      apply submseteq_length_Permutation.
      - apply NoDup_submseteq; [by eapply NoDup_fmap_1|].
        intros m Hm. apply list_elem_of_fmap. exists (Mod.Name m, m). split; [done|].
        apply elem_of_map_to_list. by apply Hmem.
      - rewrite length_fmap, length_map_to_list. lia. }
    split.
    + intros Hcycle. exfalso. revert Hcycle.
      destruct Hinv as [Hmem Hnodup _ _ Htopo]. rewrite app_nil_r in *.
      apply (topological_no_cycle E final); [done..| |done].
      intros n [m Hm]. apply list_elem_of_fmap. exists m. split; [by rewrite (Hkeyed _ _ Hm)|].
      rewrite Hperm. apply list_elem_of_fmap. exists (n, m). split; [done|].
      by apply elem_of_map_to_list.
    + intros _. exists final. split; [done|]. split; [done|]. by destruct Hinv.
  - split; [done|]. intros Hno. exfalso. apply Hno.
    by apply (stuck_has_cycle E inDeg' final).
Qed.

(** The two cases apart, for use below: which one applies, and what is
    returned in it. *)
Lemma startup_order_cases (k : kernel) :
  keyedByName (modules k) ->
  wellVersioned (enabledModules k) ->
  (hasCycle (enabledModules k) /\ getModuleStartupOrder k = Ret (inl errCircular) k) \/
  (~ hasCycle (enabledModules k) /\
   exists order, getModuleStartupOrder k = Ret (inr order) k /\
     order ≡ₚ (map_to_list (enabledModules k)).*2 /\ topological order).
Proof.
  intros Hkeyed Hwell.
  apply enabledModules_keyed in Hkeyed.
  unfold getModuleStartupOrder, bind, get.
  set (E := enabledModules k) in *.
  pose proof (rangeOrder_perm _ AtGraphBuild E) as Hbuild.
  pose proof (rangeOrder_perm _ AtQueueSeed E) as Hseed.
  set (g0 := {| graph := ∅; inDegree := (fun _ => 0%Z) <$> E |}).
  destruct (buildGraph_ok E (rangeOrder AtGraphBuild E) g0) as (g & -> & Hadj & Hdeg).
  { rewrite Hbuild. apply NoDup_fst_map_to_list. }
  { intros n m Hin. rewrite Hbuild in Hin. apply elem_of_map_to_list in Hin. by eapply Hwell. }
  assert (Hes : forall n m, (n, m) ∈ rangeOrder AtGraphBuild E <-> E !! n = Some m).
  { intros n m. by rewrite Hbuild, elem_of_map_to_list. }
  assert (Hnd : NoDup (rangeOrder AtGraphBuild E).*1).
  { rewrite Hbuild. apply NoDup_fst_map_to_list. }
  assert (Hadj' : forall d n, n ∈ adj (graph g) d <-> dependsOn E n d).
  { intros d n. rewrite Hadj. unfold g0 at 1. cbn [graph]. unfold adj at 1.
    rewrite lookup_empty. cbn [default app]. rewrite elem_of_dependents.
    unfold dependsOn. by setoid_rewrite Hes. }
  assert (HadjND : forall d, NoDup (adj (graph g) d)).
  { intros d. rewrite Hadj. unfold g0 at 1. cbn [graph]. unfold adj at 1.
    rewrite lookup_empty. cbn [default app]. by apply NoDup_dependents. }
  assert (Hdeg' : forall n m, E !! n = Some m ->
            indeg (inDegree g) n = Z.of_nat (size (Mod.Dependencies m))).
  { intros n m Hm. rewrite Hdeg. unfold g0 at 1. cbn [inDegree]. unfold indeg at 1.
    rewrite lookup_fmap, Hm. cbn [fmap option_fmap option_map default].
    rewrite (degreeOf_lookup n m) by (try done; by apply Hes). unfold id. lia. }
  assert (Hclosed : forall n m d,
            E !! n = Some m -> is_Some (Mod.Dependencies m !! d) -> is_Some (E !! d)).
  { intros n m d Hm [c Hc]. destruct (Hwell n m Hm) as [_ Hdeps].
    destruct (Hdeps d c Hc) as (dep & _ & _ & Hdep & _). by exists dep. }
  rewrite seedQueue_eq.
  destruct (kahn_runs E (graph g) Hkeyed Hadj' HadjND (size E) (inDegree g) _ [] k
              (initial_invariant E g _ Hkeyed Hseed Hdeg'))
    as (inDeg' & final & -> & Hinv); [simpl; lia|].
  destruct (Nat.eqb_spec (length final) (size E)) as [Hlen|Hlen]; cbn [negb].
  - assert (Hperm : final ≡ₚ (map_to_list E).*2).
    { destruct Hinv as [Hmem Hnodup _ _ _]. rewrite app_nil_r in *.
      apply submseteq_length_Permutation.
      - apply NoDup_submseteq; [by eapply NoDup_fmap_1|].
        intros m Hm. apply list_elem_of_fmap. exists (Mod.Name m, m). split; [done|].
        apply elem_of_map_to_list. by apply Hmem.
      - rewrite length_fmap, length_map_to_list. lia. }
    right. split.
    + destruct Hinv as [Hmem Hnodup _ _ Htopo]. rewrite app_nil_r in *.
      apply (topological_no_cycle E final); [done..| |done].
      intros n [m Hm]. apply list_elem_of_fmap. exists m. split; [by rewrite (Hkeyed _ _ Hm)|].
      rewrite Hperm. apply list_elem_of_fmap. exists (n, m). split; [done|].
      by apply elem_of_map_to_list.
    + exists final. split; [done|]. split; [done|]. by destruct Hinv.
  - left. split; [|done]. by apply (stuck_has_cycle E inDeg' final).
Qed.

End Main.

(** *** The theorem at two kernels: a chain and a cycle *)

Import Scenarios.

(** The scenarios' iteration order obeys the law of [range]. *)
#[export] Instance keyOrderLaws : MapOrderLaws.
Proof. split. intros A site m. reflexivity. Qed.

Lemma threeModules_enabled :
  enabledModules threeModules = {["a" := modA; "b" := modB; "c" := modC]}.
Proof. vm_compute. reflexivity. Qed.

Lemma cyclicPair_enabled : enabledModules cyclicPair = {["x" := modX; "y" := modY]}.
Proof. vm_compute. reflexivity. Qed.

Ltac lookup_cases H :=
  repeat (apply lookup_insert_Some in H as [[<- <-]|[_ H]]; [|]);
  [..|by rewrite lookup_empty in H].

(** A module without dependencies, and one with a single dependency [d]
    under the constraint [*]. *)
Lemma satisfiable_leaf (E : gmap string Module) (m : Module) :
  Mod.Version m = "1.0.0" -> Mod.Dependencies m = ∅ -> satisfiable E m.
Proof.
  intros Hv Hd. split; [rewrite Hv; by eexists|].
  intros d c Hc. by rewrite Hd, lookup_empty in Hc.
Qed.

Lemma satisfiable_one (E : gmap string Module) (m dep : Module) (d : string) :
  Mod.Version m = "1.0.0" -> Mod.Dependencies m = {[d := "*"]} ->
  E !! d = Some dep -> Mod.Version dep = "1.0.0" -> satisfiable E m.
Proof.
  intros Hv Hd Hdep Hdv. split; [rewrite Hv; by eexists|].
  intros d' c Hc. rewrite Hd in Hc. apply lookup_singleton_Some in Hc as [<- <-].
  exists dep, "*", "1.0.0". rewrite Hdv. by repeat split.
Qed.

Lemma threeModules_ok :
  keyedByName (modules threeModules) /\ wellVersioned (enabledModules threeModules).
Proof.
  split.
  - intros n m Hm.
    change (modules threeModules)
      with ({["a" := modA; "b" := modB; "c" := modC]} : gmap string Module) in Hm.
    repeat (apply lookup_insert_Some in Hm as [[<- <-]|[_ Hm]]; [done|]).
    by apply lookup_singleton_Some in Hm as [<- <-].
  - rewrite threeModules_enabled. intros n m Hm.
    apply lookup_insert_Some in Hm as [[<- <-]|[_ Hm]]; [by apply satisfiable_leaf|].
    apply lookup_insert_Some in Hm as [[<- <-]|[_ Hm]];
      [by apply (satisfiable_one _ _ modA "a")|].
    apply lookup_singleton_Some in Hm as [<- <-].
    by apply (satisfiable_one _ _ modB "b").
Qed.

Lemma cyclicPair_ok :
  keyedByName (modules cyclicPair) /\ wellVersioned (enabledModules cyclicPair) /\
  hasCycle (enabledModules cyclicPair).
Proof.
  split; [|split].
  - intros n m Hm.
    change (modules cyclicPair) with ({["x" := modX; "y" := modY]} : gmap string Module) in Hm.
    apply lookup_insert_Some in Hm as [[<- <-]|[_ Hm]]; [done|].
    by apply lookup_singleton_Some in Hm as [<- <-].
  - rewrite cyclicPair_enabled. intros n m Hm.
    apply lookup_insert_Some in Hm as [[<- <-]|[_ Hm]];
      [by apply (satisfiable_one _ _ modY "y")|].
    apply lookup_singleton_Some in Hm as [<- <-].
    by apply (satisfiable_one _ _ modX "x").
  - rewrite cyclicPair_enabled. exists "x". apply (tc_l _ _ "y").
    + exists modY. split; [done|]. by eexists.
    + apply tc_once. exists modX. split; [done|]. by eexists.
Qed.

Lemma startup_order_topological_witness :
  (exists order,
     getModuleStartupOrder threeModules = Ret (inr order) threeModules /\
     order ≡ₚ (map_to_list (enabledModules threeModules)).*2 /\ topological order) /\
  getModuleStartupOrder cyclicPair = Ret (inl errCircular) cyclicPair.
Proof.
  destruct threeModules_ok as [Hk3 Hw3].
  destruct cyclicPair_ok as (Hk2 & Hw2 & Hcyc).
  destruct (startup_order_topological threeModules Hk3 Hw3) as [Hcirc Horder].
  destruct (startup_order_topological cyclicPair Hk2 Hw2) as [Hcirc2 _].
  split.
  - apply Horder. intros Hc. specialize (Hcirc Hc). vm_compute in Hcirc. discriminate.
  - by apply Hcirc2.
Defined.

End StartupOrder.

(** ** Kernel: a registered module is enabled *)

Module Enabling.

Import Kernel Scenarios.
Local Open Scope kernel_scope.

Section Preservation.
Context `{Semver} `{MapOrder}.
Context (R : kernel -> kernel -> Prop) `{!Reflexive R} `{!Transitive R}.

Lemma always_ret {A} (a : A) : always R (ret a).
Proof. intros k. simpl. reflexivity. Qed.

Lemma always_get : always R get.
Proof. intros k. simpl. reflexivity. Qed.

Lemma always_bind {A B} (c : M A) (f : A -> M B) :
  always R c -> (forall a, always R (f a)) -> always R (bind c f).
Proof.
  intros Hc Hf k. unfold bind. specialize (Hc k).
  destruct (c k) as [a k1|v k1| |]; [|done..].
  specialize (Hf a k1). destruct (f a k1); try done; by etrans.
Qed.

Lemma always_modify (f : kernel -> kernel) :
  (forall k, R k (f k)) -> always R (modify f).
Proof. intros Hf k. apply Hf. Qed.

Lemma always_safelyExecute name ctype op (fn : M (option error)) :
  always R fn -> always R (safelyExecute name ctype op fn).
Proof. intros Hfn k. unfold safelyExecute. specialize (Hfn k). by destruct (fn k). Qed.

(** From here on [R] holds between states with the same two maps. *)
Hypothesis R_same : forall k k', sameMaps k k' -> R k k'.

Lemma always_call ctype name op ctx r : always R (call ctype name op ctx r).
Proof. intros k. unfold call. destruct r; by apply R_same. Qed.

Lemma always_callRegisterServices m : always R (callRegisterServices m).
Proof.
  intros k. unfold callRegisterServices, call.
  destruct (Mod.RegisterServices m (registry k)) as [reg [err|v]]; by apply R_same.
Qed.

Lemma always_setRunning b : always R (modify (setRunning b)).
Proof. apply always_modify. intros k. by apply R_same. Qed.

Lemma always_record e : always R (modify (record e)).
Proof. apply always_modify. intros k. by apply R_same. Qed.

Lemma always_unregister name : always R (unregisterServicesByModule name).
Proof.
  intros k. unfold unregisterServicesByModule.
  destruct (Registry.UnregisterServicesByModule name (registry k)); [|done..].
  by apply R_same.
Qed.

Lemma always_kahn fuel : forall enabled gr inDeg queue ordered,
  always R (kahn fuel enabled gr inDeg queue ordered).
Proof.
  induction fuel as [|fuel IH]; intros enabled gr inDeg queue ordered k;
    destruct queue as [|[m|] queue]; cbn [kahn]; unfold ret; try done; try reflexivity.
  destruct (foldl (relax enabled) _ _) as [inDeg' queue']. apply IH.
Qed.

Lemma always_getModuleStartupOrder : always R getModuleStartupOrder.
Proof.
  unfold getModuleStartupOrder. apply always_bind; [apply always_get|]. intros k.
  destruct (buildGraph _ _ _); [apply always_ret|].
  apply always_bind; [apply always_kahn|]. intros order.
  destruct (negb _); apply always_ret.
Qed.

Lemma always_getModuleShutdownOrder : always R getModuleShutdownOrder.
Proof.
  unfold getModuleShutdownOrder. apply always_bind; [apply always_getModuleStartupOrder|].
  intros [err|order]; apply always_ret.
Qed.

End Preservation.

Create HintDb always.

#[export] Hint Resolve always_ret always_get always_call always_callRegisterServices
  always_setRunning always_record always_safelyExecute always_kahn
  always_getModuleStartupOrder always_getModuleShutdownOrder always_unregister : always.

(** One step through a method body. *)
Ltac always_step :=
  lazymatch goal with
  | |- always _ (bind _ _) => apply always_bind; [try assumption; try apply _ | | intros ?]
  | |- always _ (match ?x with _ => _ end) => destruct x
  | |- _ => solve [eauto with always typeclass_instances]
  end.

Section Loops.
Context `{Semver} `{MapOrder}.
Context (R : kernel -> kernel -> Prop) `{!Reflexive R} `{!Transitive R}.
Hypothesis R_same : forall k k', sameMaps k k' -> R k k'.

Lemma always_stopBestEffort m : always R (stopBestEffort m).
Proof. unfold stopBestEffort. repeat always_step. Qed.
#[local] Hint Resolve always_stopBestEffort : always.

Lemma always_stopDownTo failed reversed : always R (stopDownTo failed reversed).
Proof. induction reversed; cbn [stopDownTo]; repeat always_step. Qed.

Lemma always_stopAllModules reversed : always R (stopAllModules reversed).
Proof. induction reversed; cbn [stopAllModules]; repeat always_step. Qed.
#[local] Hint Resolve always_stopDownTo always_stopAllModules : always.

Lemma always_startModules all rest : always R (startModules all rest).
Proof. induction rest; cbn [startModules]; repeat always_step. Qed.

Lemma always_registerServices all rest : always R (registerServices all rest).
Proof. induction rest; cbn [registerServices]; repeat always_step. Qed.

Lemma always_onReadyModules rest : always R (onReadyModules rest).
Proof. induction rest; cbn [onReadyModules]; repeat always_step. Qed.

Lemma always_stopGatewaysBefore failed gs : always R (stopGatewaysBefore failed gs).
Proof. induction gs; cbn [stopGatewaysBefore]; repeat always_step. Qed.
#[local] Hint Resolve always_stopGatewaysBefore : always.

Lemma always_startGateways t all gs rest : always R (startGateways t all gs rest).
Proof. induction rest; cbn [startGateways]; repeat always_step. Qed.

Lemma always_stopGateways t gs : forall firstErr, always R (stopGateways t gs firstErr).
Proof. induction gs; intros firstErr; cbn [stopGateways]; repeat always_step. Qed.

Lemma always_stopModules t ms : forall firstErr, always R (stopModules t ms firstErr).
Proof. induction ms; intros firstErr; cbn [stopModules]; repeat always_step. Qed.
#[local] Hint Resolve always_startModules always_registerServices always_onReadyModules
  always_startGateways always_stopGateways always_stopModules : always.

Lemma always_Start ctx : always R (Start ctx).
Proof. unfold Start. repeat always_step. Qed.

Lemma always_Stop ctx : always R (Stop ctx).
Proof. unfold Stop. repeat always_step. Qed.

End Loops.

#[export] Hint Resolve always_Start always_Stop : always.

#[export] Instance sameMaps_refl : Reflexive sameMaps.
Proof. by intros k. Qed.

#[export] Instance sameMaps_trans : Transitive sameMaps.
Proof. intros k1 k2 k3 [? ?] [? ?]. split; congruence. Qed.

#[export] Instance sameMapsBut_refl n : Reflexive (sameMapsBut n).
Proof. by intros k x Hx. Qed.

#[export] Instance sameMapsBut_trans n : Transitive (sameMapsBut n).
Proof.
  intros k1 k2 k3 H12 H23 x Hx. destruct (H12 x Hx), (H23 x Hx). split; congruence.
Qed.

Lemma sameMaps_sameMapsBut n k k' : sameMaps k k' -> sameMapsBut n k k'.
Proof. intros [Hm Hs] x _. by rewrite Hm, Hs. Qed.

#[export] Hint Resolve sameMaps_sameMapsBut : always.

Section Management.
Context `{Semver} `{MapOrder}.

Lemma always_insert_module n m : always (sameMapsBut n) (modify (setModules (insert n m))).
Proof. intros k x Hx. cbn. by rewrite lookup_insert_ne. Qed.

Lemma always_delete_module n : always (sameMapsBut n) (modify (setModules (delete n))).
Proof. intros k x Hx. cbn. by rewrite lookup_delete_ne. Qed.

Lemma always_insert_state n b :
  always (sameMapsBut n) (modify (setModuleStates (insert n b))).
Proof. intros k x Hx. cbn. by rewrite lookup_insert_ne. Qed.

Lemma always_delete_state n : always (sameMapsBut n) (modify (setModuleStates (delete n))).
Proof. intros k x Hx. cbn. by rewrite lookup_delete_ne. Qed.

#[local] Hint Resolve always_insert_module always_delete_module always_insert_state
  always_delete_state : always.

Lemma always_AddModule ctx m : always (sameMapsBut (Mod.Name m)) (AddModule ctx (Some m)).
Proof. unfold AddModule. repeat always_step. Qed.

Lemma always_RemoveModule ctx n : always (sameMapsBut n) (RemoveModule ctx n).
Proof. unfold RemoveModule. repeat always_step. Qed.

Lemma always_EnableModule ctx n : always (sameMapsBut n) (EnableModule ctx n).
Proof. unfold EnableModule. repeat always_step. Qed.

Lemma always_DisableModule ctx n : always (sameMapsBut n) (DisableModule ctx n).
Proof. unfold DisableModule. repeat always_step. Qed.

End Management.

Section Enabled.
Context `{Semver} `{MapOrder}.

Lemma AddModule_enables ctx m k k1 :
  AddModule ctx (Some m) k = Ret None k1 -> enabledAs m k1.
Proof.
  unfold AddModule, bind, get, modify, safelyExecute, callRegisterServices, call, ret.
  intros Hrun.
  repeat (case_match; simplify_eq/=; try done);
    split; cbn; by rewrite lookup_insert_eq.
Qed.

Lemma AddModule_duplicate ctx m m' k r k' :
  modules k !! Mod.Name m' = Some m ->
  AddModule ctx (Some m') k = Ret r k' -> k' = k.
Proof.
  intros Hm Hrun. unfold AddModule, bind, get, ret in Hrun.
  repeat (case_match; simplify_eq/=; try congruence).
Qed.

Lemma EnableModule_maps ctx n k r k' :
  EnableModule ctx n k = Ret r k' ->
  modules k' = modules k /\
  (moduleStates k' = moduleStates k \/ moduleStates k' = <[n := true]> (moduleStates k)).
Proof.
  unfold EnableModule, bind, get, modify, call, ret. intros Hrun.
  repeat (case_match; simplify_eq/=; try done); auto.
Qed.

Lemma enabledAs_sameMapsBut m n k k' :
  n <> Mod.Name m -> sameMapsBut n k k' -> enabledAs m k -> enabledAs m k'.
Proof.
  intros Hne Hsame [Hm Hs]. destruct (Hsame (Mod.Name m)) as [Hm' Hs']; [done|].
  split; congruence.
Qed.

Lemma enabledAs_sameMaps m k k' : sameMaps k k' -> enabledAs m k -> enabledAs m k'.
Proof. intros [Hm' Hs'] [Hm Hs]. split; congruence. Qed.

Lemma perform_keeps_enabled m c k r k' :
  disables (Mod.Name m) c = false ->
  perform c k = Ret r k' -> enabledAs m k -> enabledAs m k'.
Proof.
  intros Hc Hrun Hen. destruct c as [ctx [m'|]|ctx n|ctx n|ctx n|ctx|ctx];
    cbn [perform disables] in Hc, Hrun.
  - destruct (decide (Mod.Name m' = Mod.Name m)) as [Heq|Hne].
    + assert (k' = k) as ->; [|done].
      destruct Hen as [Hm Hs]. rewrite <- Heq in Hm.
      by eapply AddModule_duplicate.
    + pose proof (always_AddModule ctx m' k) as Hsame. rewrite Hrun in Hsame.
      by eapply enabledAs_sameMapsBut.
  - unfold AddModule, ret in Hrun. by simplify_eq.
  - apply String.eqb_neq in Hc.
    pose proof (always_RemoveModule ctx n k) as Hsame. rewrite Hrun in Hsame.
    by eapply enabledAs_sameMapsBut.
  - apply EnableModule_maps in Hrun as [Hm [Hs|Hs]]; destruct Hen as [Hm' Hs'].
    + split; congruence.
    + split; [congruence|]. rewrite Hs.
      destruct (decide (n = Mod.Name m)) as [->|Hne];
        [by rewrite lookup_insert_eq|by rewrite lookup_insert_ne].
  - apply String.eqb_neq in Hc.
    pose proof (always_DisableModule ctx n k) as Hsame. rewrite Hrun in Hsame.
    by eapply enabledAs_sameMapsBut.
  - pose proof (always_Start sameMaps (fun _ _ H => H) ctx k) as Hsame.
    rewrite Hrun in Hsame. by eapply enabledAs_sameMaps.
  - pose proof (always_Stop sameMaps (fun _ _ H => H) ctx k) as Hsame.
    rewrite Hrun in Hsame. by eapply enabledAs_sameMaps.
Qed.

Lemma runs_keep_enabled m k calls k' :
  runs k calls k' ->
  Forall (fun c => disables (Mod.Name m) c = false) calls ->
  enabledAs m k -> enabledAs m k'.
Proof.
  induction 1 as [k|k c err k1 calls k2 Hstep _ IH]; intros Hcalls Hen; [done|].
  apply Forall_cons in Hcalls as [Hc Hcalls].
  apply IH; [done|]. by eapply perform_keeps_enabled.
Qed.

Lemma enabledAs_snapshot m k :
  enabledAs m k -> enabledModules k !! Mod.Name m = Some m /\ m ∈ modulesToStart k.
Proof.
  intros [Hm Hs].
  assert (Hen : enabledModules k !! Mod.Name m = Some m).
  { unfold enabledModules. apply map_lookup_filter_Some. split; [done|]. cbn. by rewrite Hs. }
  split; [done|]. unfold modulesToStart. apply list_elem_of_fmap.
  exists (Mod.Name m, m). split; [done|]. by apply elem_of_map_to_list.
Qed.

End Enabled.

(** *** Modules are stored under their own names *)

Section Keyed.
Context `{Semver} `{MapOrder}.

Lemma keyedByName_insert (ms : gmap string Module) (m : Module) :
  keyedByName ms -> keyedByName (<[Mod.Name m := m]> ms).
Proof.
  intros Hk n x [[<- <-]|[_ Hx]]%lookup_insert_Some; [done|by apply Hk].
Qed.

Lemma keyedByName_delete (ms : gmap string Module) (n : string) :
  keyedByName ms -> keyedByName (delete n ms).
Proof. intros Hk n' x [_ Hx]%lookup_delete_Some. by apply Hk. Qed.

Lemma keyedByName_reinsert (ms : gmap string Module) (n : string) (m : Module) :
  keyedByName ms -> ms !! n = Some m -> keyedByName (<[n := m]> (delete n ms)).
Proof.
  intros Hk Hm n' x [[<- <-]|[_ [_ Hx]%lookup_delete_Some]]%lookup_insert_Some;
    by apply Hk.
Qed.

Lemma AddModule_keeps_keyed ctx m k r k' :
  keyedByName (modules k) -> AddModule ctx m k = Ret r k' -> keyedByName (modules k').
Proof.
  intros Hk. destruct m as [m|]; [|unfold AddModule, ret; by intros [= _ <-]].
  unfold AddModule, bind, get, modify, safelyExecute, callRegisterServices, call, ret.
  intros Hrun.
  repeat (case_match; simplify_eq/=; try done);
    auto using keyedByName_insert, keyedByName_delete.
Qed.

Lemma RemoveModule_keeps_keyed ctx n k r k' :
  keyedByName (modules k) -> RemoveModule ctx n k = Ret r k' -> keyedByName (modules k').
Proof.
  intros Hk.
  unfold RemoveModule, bind, get, modify, safelyExecute, unregisterServicesByModule, call, ret.
  intros Hrun.
  repeat (case_match; simplify_eq/=; try done);
    auto using keyedByName_reinsert, keyedByName_delete.
Qed.

Lemma EnableModule_modules ctx n k r k' :
  EnableModule ctx n k = Ret r k' -> modules k' = modules k.
Proof. by intros [? _]%EnableModule_maps. Qed.

Lemma DisableModule_modules ctx n k r k' :
  DisableModule ctx n k = Ret r k' -> modules k' = modules k.
Proof.
  unfold DisableModule, bind, get, modify, call, ret. intros Hrun.
  repeat (case_match; simplify_eq/=; try done).
Qed.

(** Every call of the kernel keeps the modules under their own names. *)
Lemma perform_keeps_keyed c k r k' :
  keyedByName (modules k) -> perform c k = Ret r k' -> keyedByName (modules k').
Proof.
  intros Hk Hrun. destruct c as [ctx m|ctx n|ctx n|ctx n|ctx|ctx]; cbn [perform] in Hrun.
  - by eapply AddModule_keeps_keyed.
  - by eapply RemoveModule_keeps_keyed.
  - by rewrite (EnableModule_modules _ _ _ _ _ Hrun).
  - by rewrite (DisableModule_modules _ _ _ _ _ Hrun).
  - pose proof (always_Start sameMaps (fun _ _ H => H) ctx k) as Hsame.
    rewrite Hrun in Hsame. destruct Hsame as [-> _]. done.
  - pose proof (always_Stop sameMaps (fun _ _ H => H) ctx k) as Hsame.
    rewrite Hrun in Hsame. destruct Hsame as [-> _]. done.
Qed.

(** X24. In every kernel that calls of the management and lifecycle
    interface have made out of a new one, whatever they returned, each module
    is stored under the name it bears: the keys of the module map are the
    names of the modules. *)
Theorem calls_keep_modules_keyed cfg ac calls k :
  runs (New cfg ac) calls k -> keyedByName (modules k).
Proof.
  assert (Hnew : keyedByName (modules (New cfg ac))) by (intros n m Hm; destruct ac; cbn in Hm; by rewrite lookup_empty in Hm).
  revert Hnew. generalize (New cfg ac). intros k0 Hk0 Hruns.
  induction Hruns as [k|k c err k1 calls k2 Hstep _ IH]; [done|].
  apply IH. by eapply perform_keeps_keyed.
Qed.

End Keyed.

Lemma after_runs `{Semver} `{MapOrder} calls : forall k k',
  after calls k = Some k' -> runs k calls k'.
Proof.
  induction calls as [|c calls IH]; intros k k' Hafter; cbn [after] in Hafter.
  - simplify_eq. constructor.
  - destruct (perform c k) as [err k1| | |] eqn:Hc; try done.
    econstructor; [done|]. by apply IH.
Qed.

Lemma calls_keep_modules_keyed_witness :
  exists k,
    after (CallAddModule adminCtx (Some modA) :: laterCalls) (New defaultConfig None) = Some k /\
    keyedByName (modules k).
Proof.
  destruct (after (CallAddModule adminCtx (Some modA) :: laterCalls) (New defaultConfig None))
    as [k|] eqn:Hafter; [|vm_compute in Hafter; discriminate].
  exists k. split; [done|].
  apply (calls_keep_modules_keyed defaultConfig None
           (CallAddModule adminCtx (Some modA) :: laterCalls) k).
  by apply after_runs.
Defined.

End Enabling.

(** ** Adding, removing, enabling and disabling modules *)

Module Managing.

Import Kernel Scenarios KernelFacts RegistryFacts.
Local Open Scope kernel_scope.

Lemma safelyExecute_call name ctype operation cname op ctx r k :
  safelyExecute name ctype operation (call ctype cname op ctx r) k
    = Ret (reported ctype name operation r) (record (Called ctype cname op ctx) k).
Proof. unfold safelyExecute, call. by destruct r. Qed.

(** X12. A management call from a context without a principal, or with a
    principal that lacks the call's permission, is refused: [AddModule],
    [RemoveModule], [EnableModule] and [DisableModule] return an error, call
    no component and leave the kernel as it was. *)
Theorem unauthorized_calls_change_nothing (ctx : Auth.Context) (k : kernel) :
  (forall m, unauthorized ctx k "kernel.module.add" ->
     exists err, AddModule ctx m k = Ret (Some err) k) /\
  (forall name, unauthorized ctx k "kernel.module.remove" ->
     exists err, RemoveModule ctx name k = Ret (Some err) k) /\
  (forall name, unauthorized ctx k "kernel.module.enable" ->
     exists err, EnableModule ctx name k = Ret (Some err) k) /\
  (forall name, unauthorized ctx k "kernel.module.disable" ->
     exists err, DisableModule ctx name k = Ret (Some err) k).
Proof.
  unfold unauthorized. split; [|split; [|split]].
  - intros [m|] Hun; [|by eexists]. unfold AddModule.
    destruct (String.eqb (Mod.Name m) ""); [by eexists|].
    destruct (Auth.PrincipalFromContext ctx) as [p|]; [|by eexists].
    unfold bind, get. rewrite Hun. by eexists.
  - intros name Hun. unfold RemoveModule.
    destruct (String.eqb name ""); [by eexists|].
    destruct (Auth.PrincipalFromContext ctx) as [p|]; [|by eexists].
    unfold bind, get. rewrite Hun. by eexists.
  - intros name Hun. unfold EnableModule.
    destruct (Auth.PrincipalFromContext ctx) as [p|]; [|by eexists].
    unfold bind, get. rewrite Hun. by eexists.
  - intros name Hun. unfold DisableModule.
    destruct (Auth.PrincipalFromContext ctx) as [p|]; [|by eexists].
    unfold bind, get. rewrite Hun. by eexists.
Qed.

Lemma unauthorized_calls_change_nothing_witness :
  (exists err, AddModule Auth.Background (Some modA) threeModules = Ret (Some err) threeModules) /\
  (exists err, RemoveModule Auth.Background "a" threeModules = Ret (Some err) threeModules) /\
  (exists err, EnableModule Auth.Background "a" threeModules = Ret (Some err) threeModules) /\
  (exists err, DisableModule Auth.Background "a" threeModules = Ret (Some err) threeModules).
Proof.
  destruct (unauthorized_calls_change_nothing Auth.Background threeModules)
    as (Hadd & Hrem & Hen & Hdis).
  split; [by apply Hadd|]. split; [by apply Hrem|]. split; [by apply Hen|by apply Hdis].
Defined.

(** X13. A call that names a module the kernel does not hold, or adds one
    under a name it holds already, is refused without any change: for an
    authorized caller [RemoveModule], [EnableModule] and [DisableModule]
    return the not-found error and [AddModule] the duplicate-name error,
    no component is called and the kernel is left as it was. *)
Theorem misnamed_module_calls_change_nothing (ctx : Auth.Context) (k : kernel) :
  (forall m m0, authorized ctx k "kernel.module.add" -> Mod.Name m <> "" ->
     modules k !! Mod.Name m = Some m0 ->
     AddModule ctx (Some m) k = Ret (Some (Errorw ("module " +:+ Mod.Name m) errDuplicate)) k) /\
  (forall name, authorized ctx k "kernel.module.remove" -> name <> "" ->
     modules k !! name = None ->
     RemoveModule ctx name k = Ret (Some (Errorw ("module " +:+ name) errNotFound)) k) /\
  (forall name, authorized ctx k "kernel.module.enable" ->
     modules k !! name = None ->
     EnableModule ctx name k = Ret (Some (Errorw ("module " +:+ name) errNotFound)) k) /\
  (forall name, authorized ctx k "kernel.module.disable" ->
     modules k !! name = None ->
     DisableModule ctx name k = Ret (Some (Errorw ("module " +:+ name) errNotFound)) k).
Proof.
  split; [|split; [|split]].
  - intros m m0 (p & Hp & Hgrant) Hname%String.eqb_neq Hm. unfold AddModule.
    rewrite Hname, Hp. unfold bind, get. by rewrite Hgrant, Hm.
  - intros name (p & Hp & Hgrant) Hname%String.eqb_neq Hm. unfold RemoveModule.
    rewrite Hname, Hp. unfold bind, get. by rewrite Hgrant, Hm.
  - intros name (p & Hp & Hgrant) Hm. unfold EnableModule.
    rewrite Hp. unfold bind, get. by rewrite Hgrant, Hm.
  - intros name (p & Hp & Hgrant) Hm. unfold DisableModule.
    rewrite Hp. unfold bind, get. by rewrite Hgrant, Hm.
Qed.

Lemma adminCtx_authorized (k : kernel) (perm : string) :
  accessController k = Auth.NewDefaultAccessController None ->
  authorized adminCtx k perm.
Proof. intros Hac. exists admin. split; [done|]. by rewrite Hac. Qed.

Lemma misnamed_module_calls_change_nothing_witness :
  AddModule adminCtx (Some modA) threeModules
    = Ret (Some (Errorw "module a" errDuplicate)) threeModules /\
  RemoveModule adminCtx "z" threeModules
    = Ret (Some (Errorw "module z" errNotFound)) threeModules /\
  EnableModule adminCtx "z" threeModules
    = Ret (Some (Errorw "module z" errNotFound)) threeModules /\
  DisableModule adminCtx "z" threeModules
    = Ret (Some (Errorw "module z" errNotFound)) threeModules.
Proof.
  destruct (misnamed_module_calls_change_nothing adminCtx threeModules)
    as (Hadd & Hrem & Hen & Hdis).
  split; [|split; [|split]].
  - apply (Hadd modA modA); [by apply adminCtx_authorized|done|reflexivity].
  - apply (Hrem "z"); [by apply adminCtx_authorized|done|reflexivity].
  - apply (Hen "z"); [by apply adminCtx_authorized|reflexivity].
  - apply (Hdis "z"); [by apply adminCtx_authorized|reflexivity].
Defined.

(** *** Running a method body step by step *)

Lemma bind_get {B} (f : kernel -> M B) k : bind get f k = f k k.
Proof. reflexivity. Qed.

Lemma bind_ret {A B} (a : A) (f : A -> M B) k : bind (ret a) f k = f a k.
Proof. reflexivity. Qed.

Lemma bind_modify {B} (g : kernel -> kernel) (f : unit -> M B) k :
  bind (modify g) f k = f tt (g k).
Proof. reflexivity. Qed.

Lemma bind_call_returns {B} ctype name op ctx err (f : option error -> M B) k :
  bind (call ctype name op ctx (Returns err)) f k = f err (record (Called ctype name op ctx) k).
Proof. reflexivity. Qed.

Lemma bind_safelyExecute_call {B} name ctype operation cname op ctx r
    (f : option error -> M B) k :
  bind (safelyExecute name ctype operation (call ctype cname op ctx r)) f k
    = f (reported ctype name operation r) (record (Called ctype cname op ctx) k).
Proof. unfold bind, safelyExecute, call. by destruct r. Qed.

Lemma bind_safelyExecute_callRegisterServices {B} name operation m
    (f : option error -> M B) k :
  bind (safelyExecute name IsModule operation (callRegisterServices m)) f k
    = f (reported IsModule name operation (Mod.RegisterServices m (registry k)).2)
        (record (Called IsModule (Mod.Name m) OpRegisterServices None)
                (setRegistry (Mod.RegisterServices m (registry k)).1 k)).
Proof.
  unfold bind, safelyExecute, callRegisterServices, call.
  by destruct (Mod.RegisterServices m (registry k)) as [reg [err|v]].
Qed.

(** One step of a method body whose next call returns. *)
Ltac run_step :=
  cbv beta;
  first [ rewrite bind_get | rewrite bind_ret | rewrite bind_modify
        | rewrite bind_call_returns | rewrite bind_safelyExecute_call
        | rewrite bind_safelyExecute_callRegisterServices ].

(** *** Kernel states in one form: what was recorded, outermost *)

Lemma record_as_recordAll e k : record e k = recordAll [e] k.
Proof. reflexivity. Qed.

Lemma setRegistry_recordAll r es k :
  setRegistry r (recordAll es k) = recordAll es (setRegistry r k).
Proof. reflexivity. Qed.

Lemma registry_recordAll es k : registry (recordAll es k) = registry k.
Proof. reflexivity. Qed.

Lemma registry_setModuleStates f k : registry (setModuleStates f k) = registry k.
Proof. reflexivity. Qed.

Lemma registry_setModules f k : registry (setModules f k) = registry k.
Proof. reflexivity. Qed.

Lemma registry_setRunning b k : registry (setRunning b k) = registry k.
Proof. reflexivity. Qed.

Lemma registry_setRegistry r k : registry (setRegistry r k) = r.
Proof. reflexivity. Qed.

Lemma setRegistry_setRegistry r r' k : setRegistry r (setRegistry r' k) = setRegistry r k.
Proof. reflexivity. Qed.

Lemma setModules_recordAll f es k :
  setModules f (recordAll es k) = recordAll es (setModules f k).
Proof. reflexivity. Qed.

Lemma setModuleStates_recordAll f es k :
  setModuleStates f (recordAll es k) = recordAll es (setModuleStates f k).
Proof. reflexivity. Qed.

Create Rewrite HintDb kernel_state.

#[export] Hint Rewrite record_as_recordAll recordAll_app setRegistry_recordAll
  registry_recordAll registry_setModuleStates registry_setModules registry_setRunning
  registry_setRegistry setRegistry_setRegistry setModules_recordAll
  setModuleStates_recordAll : kernel_state.

(** Two kernel states that record the same events over the same fields. *)
Ltac same_state :=
  autorewrite with kernel_state; rewrite <- ?app_assoc; cbn [app]; reflexivity.

Lemma kernel_eq (k1 k2 : kernel) :
  config k1 = config k2 -> modules k1 = modules k2 -> gateways k1 = gateways k2 ->
  moduleStates k1 = moduleStates k2 -> running k1 = running k2 ->
  accessController k1 = accessController k2 -> registry k1 = registry k2 ->
  trace k1 = trace k2 -> k1 = k2.
Proof. destruct k1, k2. cbn. by intros -> -> -> -> -> -> -> ->. Qed.

Lemma registry_eq (r1 r2 : Registry.DefaultRegistry) :
  Registry.services r1 = Registry.services r2 ->
  Registry.accessController r1 = Registry.accessController r2 ->
  Registry.gateways r1 = Registry.gateways r2 -> r1 = r2.
Proof. destruct r1, r2. cbn. by intros -> -> ->. Qed.

(** The fields of a kernel state, one by one. *)
Ltac by_fields :=
  apply kernel_eq;
  cbn [config modules gateways moduleStates running accessController registry trace
       recordAll record setRegistry setGateways setModules setModuleStates setRunning].

(** X14. [AddModule] by an authorized caller, of a module with a fresh name
    whose [OnLoad] and [Configure] succeed and, on a running kernel, whose
    [Start] succeeds: it returns no error, stores the module and marks it
    enabled.  On a kernel that is not running the module is not started.  On
    a running kernel [Start], [RegisterServices] and [OnReady] are called in
    this order, and what [RegisterServices] and [OnReady] return, error or
    panic, does not change the result. *)
Theorem AddModule_succeeds (ctx : Auth.Context) (m : Module) (k : kernel) :
  authorized ctx k "kernel.module.add" ->
  Mod.Name m <> "" ->
  modules k !! Mod.Name m = None ->
  reported IsModule (Mod.Name m) "OnLoad" (Mod.OnLoad m) = None ->
  (forall cfg, Modules (config k) !! Mod.Name m = Some cfg ->
     reported IsModule (Mod.Name m) "Configure" (Mod.Configure m cfg) = None) ->
  (running k = true -> reported IsModule (Mod.Name m) "Start" (Mod.Start m) = None) ->
  AddModule ctx (Some m) k =
    Ret None
      (recordAll (addModuleCalls k m)
         (setRegistry (if running k then (Mod.RegisterServices m (registry k)).1 else registry k)
            (setModuleStates (insert (Mod.Name m) true)
               (setModules (insert (Mod.Name m) m) k)))).
Proof.
  intros (p & Hp & Hgrant) Hname%String.eqb_neq Hfresh Hload Hconf Hstart.
  unfold AddModule. rewrite Hname, Hp. run_step. rewrite Hgrant, Hfresh. cbn [negb].
  do 5 run_step. rewrite Hload. unfold addModuleCalls.
  destruct (Modules (config k) !! Mod.Name m) as [cfg|] eqn:Hcfg.
  - run_step. rewrite (Hconf cfg eq_refl).
    destruct (running k) eqn:Hrun.
    + run_step. rewrite (Hstart eq_refl). do 2 run_step. unfold ret. f_equal. same_state.
    + unfold ret. f_equal. same_state.
  - run_step. destruct (running k) eqn:Hrun.
    + run_step. rewrite (Hstart eq_refl). do 2 run_step. unfold ret. f_equal. same_state.
    + unfold ret. f_equal. same_state.
Qed.

Lemma enabledModules_disable name k :
  enabledModules (setModuleStates (insert name false) k) = delete name (enabledModules k).
Proof.
  apply map_eq. intros n. unfold enabledModules. cbn.
  destruct (decide (n = name)) as [->|Hne].
  - rewrite lookup_delete_eq. apply map_lookup_filter_None. right. intros m _. cbn.
    by rewrite lookup_insert_eq.
  - rewrite lookup_delete_ne by done.
    destruct (modules k !! n) as [m|] eqn:Hm.
    + destruct (decide (default false (moduleStates k !! n) = true)) as [Hs|Hs].
      * rewrite (proj2 (map_lookup_filter_Some _ _ n m)); [|split; [done|]; cbn;
          by rewrite lookup_insert_ne].
        symmetry. by apply map_lookup_filter_Some.
      * rewrite (proj2 (map_lookup_filter_None _ _ n)); [|right; intros m' Hm'; cbn;
          by rewrite lookup_insert_ne].
        symmetry. apply map_lookup_filter_None. right. intros m' Hm'. done.
    + rewrite (proj2 (map_lookup_filter_None _ _ n)) by (by left).
      symmetry. apply map_lookup_filter_None. by left.
Qed.

Lemma enabledModules_enable name m k :
  modules k !! name = Some m ->
  enabledModules (setModuleStates (insert name true) k) = <[name := m]> (enabledModules k).
Proof.
  intros Hname. apply map_eq. intros n. unfold enabledModules. cbn.
  destruct (decide (n = name)) as [->|Hne].
  - rewrite lookup_insert_eq. apply map_lookup_filter_Some. split; [done|]. cbn.
    by rewrite lookup_insert_eq.
  - rewrite lookup_insert_ne by done.
    destruct (modules k !! n) as [m'|] eqn:Hm.
    + destruct (decide (default false (moduleStates k !! n) = true)) as [Hs|Hs].
      * rewrite (proj2 (map_lookup_filter_Some _ _ n m')); [|split; [done|]; cbn;
          by rewrite lookup_insert_ne].
        symmetry. by apply map_lookup_filter_Some.
      * rewrite (proj2 (map_lookup_filter_None _ _ n)); [|right; intros m'' Hm''; cbn;
          by rewrite lookup_insert_ne].
        symmetry. apply map_lookup_filter_None. right. intros m'' Hm''. done.
    + rewrite (proj2 (map_lookup_filter_None _ _ n)) by (by left).
      symmetry. apply map_lookup_filter_None. by left.
Qed.

(** X15. [DisableModule] by an authorized caller marks a module the kernel
    holds as disabled, which takes it out of the enabled modules [Start]
    works on, and [EnableModule] puts it back.  On a running kernel the
    module's [Stop], respectively [Start], is called once, under the
    module-operation timeout, and its error is returned wrapped; the mark is
    set even then. *)
Theorem DisableModule_then_EnableModule (ctx : Auth.Context) (name : string) (m : Module)
    (stopped started : option error) (k : kernel) :
  authorized ctx k "kernel.module.disable" ->
  authorized ctx k "kernel.module.enable" ->
  modules k !! name = Some m ->
  Mod.Stop m = Returns stopped ->
  Mod.Start m = Returns started ->
  exists k1 k2,
    DisableModule ctx name k
      = Ret (if running k then wrapped ("stop disabled module " +:+ name) stopped else None) k1 /\
    enabledModules k1 = delete name (enabledModules k) /\
    EnableModule ctx name k1
      = Ret (if running k then wrapped ("start enabled module " +:+ name) started else None) k2 /\
    enabledModules k2 = <[name := m]> (enabledModules k) /\
    modules k2 = modules k /\ running k2 = running k /\
    trace k2 = trace k ++
      if running k
      then [Called IsModule (Mod.Name m) OpStop (withTimeout FromCaller (moduleOperation k));
            Called IsModule (Mod.Name m) OpStart (withTimeout FromCaller (moduleOperation k))]
      else [].
Proof.
  intros (p & Hp & Hgrant) (p' & Hp' & Hgrant') Hm Hstop Hstart.
  rewrite Hp in Hp'. injection Hp' as <-.
  set (k0 := setModuleStates (insert name false) k).
  set (k1 := if running k
             then record (Called IsModule (Mod.Name m) OpStop
                            (withTimeout FromCaller (moduleOperation k))) k0
             else k0).
  set (k1' := setModuleStates (insert name true) k1).
  set (k2 := if running k
             then record (Called IsModule (Mod.Name m) OpStart
                            (withTimeout FromCaller (moduleOperation k))) k1'
             else k1').
  exists k1, k2.
  assert (Hen1 : enabledModules k1 = delete name (enabledModules k)).
  { unfold k1. destruct (running k); apply enabledModules_disable. }
  split; [|split; [done|split; [|split; [|split; [|split]]]]].
  - unfold DisableModule. rewrite Hp. run_step. rewrite Hgrant, Hm. cbn [negb]. run_step.
    unfold k1. destruct (running k) eqn:Hrun.
    + rewrite Hstop. run_step. by destruct stopped.
    + done.
  - unfold EnableModule. rewrite Hp. run_step.
    assert (accessController k1 = accessController k) as -> by (unfold k1; by destruct (running k)).
    assert (modules k1 = modules k) as -> by (unfold k1; by destruct (running k)).
    rewrite Hgrant', Hm. cbn [negb]. run_step.
    assert (running k1 = running k) as ->
      by (unfold k1, k0; destruct (running k) eqn:E; cbn; congruence).
    assert (moduleOperation k1 = moduleOperation k) as ->
      by (unfold k1; by destruct (running k)).
    unfold k2, k1'. destruct (running k) eqn:Hrun.
    + rewrite Hstart. run_step. by destruct started.
    + done.
  - transitivity (enabledModules k1').
    { unfold k2. by destruct (running k). }
    unfold k1'. rewrite (enabledModules_enable name m).
    + rewrite Hen1. by rewrite insert_delete_eq.
    + unfold k1. by destruct (running k).
  - unfold k2, k1', k1. by destruct (running k).
  - unfold k2, k1', k1, k0. destruct (running k) eqn:E; cbn; congruence.
  - unfold k2, k1', k1. destruct (running k); cbn; [by rewrite <- app_assoc|by rewrite app_nil_r].
Qed.

(** X16. [RemoveModule] by an authorized caller, of a module the kernel holds,
    when no gateway is registered under the module's name and, on a running
    kernel, the module's [Stop] succeeds: it returns no error; the module is
    gone from the module map and from the enabled-state map, and the
    services it owns are gone from the registry; other modules, their
    services and the gateways stay as they were.  The module's [Stop] is
    called only on a running kernel. *)
Theorem RemoveModule_removes (ctx : Auth.Context) (name : string) (m : Module) (k : kernel) :
  authorized ctx k "kernel.module.remove" ->
  name <> "" ->
  modules k !! name = Some m ->
  (forall g entry, Registry.gateways (registry k) !! g = Some entry ->
     Registry.moduleName entry <> name) ->
  (running k = true -> reported IsModule (Mod.Name m) "Stop" (Mod.Stop m) = None) ->
  exists k',
    RemoveModule ctx name k = Ret None k' /\
    modules k' = delete name (modules k) /\
    moduleStates k' = delete name (moduleStates k) /\
    (forall s, Registry.services (registry k') !! s =
       match Registry.services (registry k) !! s with
       | Some entry => if decide (Registry.moduleName entry = name) then None else Some entry
       | None => None
       end) /\
    Registry.gateways (registry k') = Registry.gateways (registry k) /\
    running k' = running k /\
    trace k' = trace k ++
      if running k
      then [Called IsModule (Mod.Name m) OpStop (withTimeout FromCaller (moduleOperation k))]
      else [].
Proof.
  intros (p & Hp & Hgrant) Hname%String.eqb_neq Hm Hnone Hstop.
  destruct (UnregisterServicesByModule_returns name (registry k) Hnone)
    as (r' & Hunreg & Hgw & _ & Hsvc).
  unfold RemoveModule. rewrite Hname, Hp. run_step. rewrite Hgrant, Hm. cbn [negb].
  do 2 run_step. cbv beta. unfold bind at 1. unfold unregisterServicesByModule at 1.
  cbn [registry setModuleStates setModules]. rewrite Hunreg.
  destruct (running k) eqn:Hrun.
  - run_step. rewrite (Hstop eq_refl). unfold ret. eexists. split; [reflexivity|].
    cbn. by rewrite Hrun.
  - unfold ret. eexists. split; [reflexivity|]. cbn. by rewrite Hrun, app_nil_r.
Qed.

(** X17. [RemoveModule] by an authorized caller, of a module the kernel holds,
    does not return when the registry holds a gateway entry recorded under
    the module's name, as it does for a gateway of that name: the module is
    taken out of the two maps, and [UnregisterServicesByModule] then waits
    for the registry lock it holds itself. *)
Theorem RemoveModule_blocks_on_gateway_of_that_name (ctx : Auth.Context) (name : string)
    (m : Module) (g : string) (entry : Registry.serviceEntry) (k : kernel) :
  authorized ctx k "kernel.module.remove" ->
  name <> "" ->
  modules k !! name = Some m ->
  Registry.gateways (registry k) !! g = Some entry ->
  Registry.moduleName entry = name ->
  RemoveModule ctx name k = Hang.
Proof.
  intros (p & Hp & Hgrant) Hname%String.eqb_neq Hm Hg Howner.
  unfold RemoveModule. rewrite Hname, Hp. run_step. rewrite Hgrant, Hm. cbn [negb].
  do 2 run_step. cbv beta. unfold bind at 1. unfold unregisterServicesByModule at 1.
  cbn [registry setModuleStates setModules].
  by rewrite (UnregisterServicesByModule_hangs name (registry k) g entry).
Qed.

Lemma AddModule_succeeds_witness :
  let k := setRunning true (New configWithM None) in
  AddModule adminCtx (Some modM) k =
    Ret None
      (recordAll (addModuleCalls k modM)
         (setRegistry (Mod.RegisterServices modM (registry k)).1
            (setModuleStates (insert "m" true) (setModules (insert "m" modM) k)))).
Proof.
  apply (AddModule_succeeds adminCtx modM (setRunning true (New configWithM None)));
    try done.
  by apply adminCtx_authorized.
Defined.

Lemma DisableModule_then_EnableModule_witness :
  exists k1 k2,
    DisableModule adminCtx "b" (setRunning true threeModules) = Ret None k1 /\
    enabledModules k1 = delete "b" (enabledModules (setRunning true threeModules)) /\
    EnableModule adminCtx "b" k1
      = Ret (Some (Errorw "start enabled module b" (Errorf "boom"))) k2 /\
    enabledModules k2 = <["b" := modB]> (enabledModules (setRunning true threeModules)) /\
    modules k2 = modules threeModules /\ running k2 = true /\
    trace k2 =
      [Called IsModule "b" OpStop (withTimeout FromCaller (10 * Second)%Z);
       Called IsModule "b" OpStart (withTimeout FromCaller (10 * Second)%Z)].
Proof.
  apply (DisableModule_then_EnableModule adminCtx "b" modB None (Some (Errorf "boom"))
           (setRunning true threeModules));
    try done; by apply adminCtx_authorized.
Defined.

Lemma RemoveModule_removes_witness :
  exists k',
    RemoveModule adminCtx "c" (setRunning true threeModules) = Ret None k' /\
    modules k' = delete "c" (modules threeModules) /\
    moduleStates k' = delete "c" (moduleStates threeModules) /\
    (forall s, Registry.services (registry k') !! s =
       match Registry.services (registry threeModules) !! s with
       | Some entry => if decide (Registry.moduleName entry = "c") then None else Some entry
       | None => None
       end) /\
    Registry.gateways (registry k') = Registry.gateways (registry threeModules) /\
    running k' = true /\
    trace k' = [Called IsModule "c" OpStop (withTimeout FromCaller (10 * Second)%Z)].
Proof.
  apply (RemoveModule_removes adminCtx "c" modC (setRunning true threeModules)); try done.
  by apply adminCtx_authorized.
Defined.

Lemma RemoveModule_blocks_on_gateway_of_that_name_witness :
  RemoveModule adminCtx "a" sharedName = Hang.
Proof.
  apply (RemoveModule_blocks_on_gateway_of_that_name adminCtx "a" modA "a"
           (gatewayEntry "a" (plainGateway "a")) sharedName); try done.
  by apply adminCtx_authorized.
Defined.

End Managing.

(** ** The phases of Start and of Stop *)

Module Lifecycle.

Import Kernel Scenarios KernelFacts StartupOrder Enabling Managing.
Local Open Scope kernel_scope.

Section Phases.
Context `{Semver} `{MapOrder}.

Lemma getModuleStartupOrder_same k res k' :
  getModuleStartupOrder k = Ret res k' -> k' = k.
Proof.
  intros Hrun. pose proof (always_getModuleStartupOrder eq k) as Hsame.
  by rewrite Hrun in Hsame.
Qed.

Lemma kahn_state fuel : forall enabled gr inDeg queue ordered k res k' k2,
  kahn fuel enabled gr inDeg queue ordered k = Ret res k' ->
  kahn fuel enabled gr inDeg queue ordered k2 = Ret res k2.
Proof.
  induction fuel as [|fuel IH]; intros enabled gr inDeg queue ordered k res k' k2;
    destruct queue as [|[m|] queue]; cbn [kahn]; unfold ret; try done.
  - by intros [= <- _].
  - by intros [= <- _].
  - destruct (foldl (relax enabled) _ _) as [inDeg' queue']. apply IH.
Qed.

Lemma getModuleStartupOrder_ext k k2 res :
  enabledModules k2 = enabledModules k ->
  getModuleStartupOrder k = Ret res k ->
  getModuleStartupOrder k2 = Ret res k2.
Proof.
  intros Hen. unfold getModuleStartupOrder. rewrite !bind_get. rewrite Hen.
  destruct (buildGraph _ _ _) as [err|g]; [unfold ret; by intros [= <-]|].
  unfold bind.
  destruct (kahn _ _ _ _ _ _ k) as [order k1| | |] eqn:Hk; try done.
  rewrite (kahn_state _ _ _ _ _ _ _ _ _ k2 Hk).
  destruct (negb _); unfold ret; by intros [= <- _].
Qed.

Lemma firstError_cons_None errs : firstError (None :: errs) = firstError errs.
Proof. reflexivity. Qed.

Lemma stopGateways_runs t gs : forall firstErr k,
  stopGateways t gs firstErr k =
    Ret (firstError (firstErr :: (gatewayStopError <$> gs)))
        (recordAll (gatewayStopCall t <$> gs) k).
Proof.
  induction gs as [|g gs IH]; intros firstErr k; cbn [stopGateways fmap list_fmap].
  - unfold ret. rewrite recordAll_nil. by destruct firstErr.
  - run_step. unfold gatewayStopError at 1.
    destruct (reported IsGateway (Gw.Name g) "Stop" (Gw.Stop g)) as [err|], firstErr as [e0|];
      rewrite IH, record_recordAll; reflexivity.
Qed.

Lemma stopModules_runs t ms : forall firstErr k,
  stopModules t ms firstErr k =
    Ret (firstError (firstErr :: (moduleStopError <$> ms)))
        (recordAll (moduleStopCall t <$> ms) k).
Proof.
  induction ms as [|m ms IH]; intros firstErr k; cbn [stopModules fmap list_fmap].
  - unfold ret. rewrite recordAll_nil. by destruct firstErr.
  - run_step. unfold moduleStopError at 1.
    destruct (reported IsModule (Mod.Name m) "Stop" (Mod.Stop m)) as [err|], firstErr as [e0|];
      rewrite IH, record_recordAll; reflexivity.
Qed.

Lemma firstError_app errs1 errs2 :
  firstError (errs1 ++ errs2) = firstError (firstError errs1 :: errs2).
Proof. induction errs1 as [|[e|] errs1 IH]; cbn; [by destruct errs2| done | done]. Qed.

(** X22. [Stop] on a running kernel stops every component it set out to stop,
    whatever fails on the way: every gateway, then every module of the
    shutdown order, each once and under its own shutdown timeout or, when
    that is not positive, the configured one.  An error or a panic of one
    [Stop] does not keep the others from being called; the first failure is
    what [Stop] returns, and the kernel is left not running.  When the
    startup order cannot be computed no module is stopped. *)
Theorem Stop_stops_every_component (ctx : Auth.Context) (k : kernel)
    (res : error + list Module) :
  running k = true ->
  getModuleStartupOrder k = Ret res k ->
  let gatewaysToStop := (rangeOrder AtGatewaysStop (gateways k)).*2 in
  let modulesToStop := match res with inr order => reverse order | inl _ => [] end in
  Stop ctx k =
    Ret (firstError ((gatewayStopError <$> gatewaysToStop) ++
                     (moduleStopError <$> modulesToStop)))
        (recordAll ((gatewayStopCall (gatewayOperation k) <$> gatewaysToStop) ++
                    (moduleStopCall (moduleOperation k) <$> modulesToStop))
           (setRunning false k)).
Proof.
  intros Hrun Horder gws ms. unfold Stop. run_step. rewrite Hrun. cbn [negb]. run_step.
  unfold getModuleShutdownOrder. unfold bind at 1. unfold bind at 1.
  rewrite (getModuleStartupOrder_ext k (setRunning false k) res eq_refl Horder).
  assert (Hms : (match res with inl err => ret (inl err) | inr o => ret (inr (reverse o)) end)
                  (setRunning false k)
                = Ret (match res with inl err => inl err | inr o => inr (reverse o) end)
                      (setRunning false k)) by (by destruct res).
  rewrite Hms. clear Hms. unfold bind. rewrite stopGateways_runs.
  assert ((match res with inl err => inl err | inr o => inr (reverse o) end : error + list Module)
          = match res with inl err => inl err | inr o => inr ms end) as Hres by (by destruct res).
  assert (match (match res with inl err => inl err | inr o => inr (reverse o) end
                 : error + list Module) with
          | inl _ => [] | inr l => l end = ms) as -> by (by destruct res).
  rewrite stopModules_runs, recordAll_app. f_equal.
  rewrite firstError_app. reflexivity.
Qed.

Lemma setRegistry_same k : setRegistry (registry k) k = k.
Proof. by destruct k. Qed.

Lemma startModules_all all ms : forall k,
  Forall (fun m => reported IsModule (Mod.Name m) "Start" (Mod.Start m) = None) ms ->
  startModules all ms k = Ret None (recordAll (startCall <$> ms) k).
Proof.
  induction ms as [|m ms IH]; intros k Hok; cbn [startModules fmap list_fmap].
  - unfold ret. by rewrite recordAll_nil.
  - apply Forall_cons in Hok as [Hm Hok]. run_step. rewrite Hm, IH by done.
    by rewrite record_recordAll.
Qed.

Lemma registerServices_all all ms : forall k,
  registersCleanly ms (registry k) ->
  registerServices all ms k =
    Ret None (recordAll (registerCall <$> ms) (setRegistry (registeredBy ms (registry k)) k)).
Proof.
  induction ms as [|m ms IH]; intros k Hok; cbn [registerServices fmap list_fmap].
  - unfold ret, registeredBy. cbn [foldl]. by rewrite setRegistry_same, recordAll_nil.
  - destruct Hok as [Hm Hok]. run_step. rewrite Hm, IH by (by autorewrite with kernel_state).
    unfold registeredBy, registerCall. cbn [foldl fmap list_fmap]. f_equal.
    autorewrite with kernel_state. reflexivity.
Qed.

Lemma onReadyModules_all ms : forall k,
  Forall (fun m => reported IsModule (Mod.Name m) "OnReady" (Mod.OnReady m) = None) ms ->
  onReadyModules ms k = Ret None (recordAll (onReadyCall <$> ms) k).
Proof.
  induction ms as [|m ms IH]; intros k Hok; cbn [onReadyModules fmap list_fmap].
  - unfold ret. by rewrite recordAll_nil.
  - apply Forall_cons in Hok as [Hm Hok]. run_step. rewrite Hm, IH by done.
    by rewrite record_recordAll.
Qed.

Lemma startGateways_all t all gws gs : forall k,
  Forall (fun g => reported IsGateway (Gw.Name g) "Start" (Gw.Start g) = None) gs ->
  startGateways t all gws gs k = Ret None (recordAll (gs ≫= gatewayStartEvents t) k).
Proof.
  induction gs as [|g gs IH]; intros k Hok; cbn [startGateways mbind list_bind].
  - unfold ret. by rewrite recordAll_nil.
  - apply Forall_cons in Hok as [Hg Hok]. run_step. rewrite Hg. run_step. rewrite IH by done.
    unfold gatewayStartEvents at 2. f_equal. autorewrite with kernel_state. reflexivity.
Qed.

(** X18. [Start] on a kernel that is not running, when the startup order is
    computed and every [Start], [RegisterServices] and [OnReady] of a module
    and every [Start] of a gateway succeeds: it returns no error and leaves
    the kernel running.  It works in phases, each over the whole startup
    order: every module is started before any registers its services, every
    module has registered before any [OnReady] is called, and the gateways
    are started last, each followed by its [gateway.started] event. *)
Theorem Start_works_in_phases (ctx : Auth.Context) (k : kernel) (order : list Module) :
  running k = false ->
  getModuleStartupOrder k = Ret (inr order) k ->
  Forall (fun m => reported IsModule (Mod.Name m) "Start" (Mod.Start m) = None) order ->
  registersCleanly order (registry k) ->
  Forall (fun m => reported IsModule (Mod.Name m) "OnReady" (Mod.OnReady m) = None) order ->
  Forall (fun g => reported IsGateway (Gw.Name g) "Start" (Gw.Start g) = None)
         (rangeOrder AtGatewaysStart (gateways k)).*2 ->
  Start ctx k =
    Ret None
      (recordAll ((startCall <$> order) ++ (registerCall <$> order) ++ (onReadyCall <$> order) ++
                  ((rangeOrder AtGatewaysStart (gateways k)).*2
                     ≫= gatewayStartEvents (gatewayOperation k)))
         (setRegistry (registeredBy order (registry k)) (setRunning true k))).
Proof.
  intros Hrun Horder Hstart Hreg Hready Hgw.
  unfold Start. run_step. rewrite Hrun. run_step. unfold bind at 1.
  rewrite (getModuleStartupOrder_ext k (setRunning true k) (inr order) eq_refl Horder).
  unfold bind at 1. rewrite startModules_all by done.
  unfold bind at 1. rewrite registerServices_all by (by autorewrite with kernel_state).
  unfold bind at 1. rewrite onReadyModules_all by done.
  unfold bind at 1. rewrite startGateways_all by done.
  unfold ret. f_equal. autorewrite with kernel_state. rewrite <- ?app_assoc. reflexivity.
Qed.

Lemma stopAllModules_runs ms : forall k,
  Forall (fun m => exists r, Mod.Stop m = Returns r) ms ->
  stopAllModules ms k = Ret tt (recordAll (stopCall <$> ms) k).
Proof.
  induction ms as [|m ms IH]; intros k Hok; cbn [stopAllModules fmap list_fmap].
  - unfold ret. by rewrite recordAll_nil.
  - apply Forall_cons in Hok as [[r Hr] Hok]. unfold stopBestEffort.
    unfold bind at 1. unfold bind at 1. rewrite Hr. unfold call, ret. rewrite IH by done.
    by rewrite record_recordAll.
Qed.

Lemma registerServices_fails all pre m post err : forall k,
  registersCleanly pre (registry k) ->
  reported IsModule (Mod.Name m) "RegisterServices"
    (Mod.RegisterServices m (registeredBy pre (registry k))).2 = Some err ->
  registerServices all (pre ++ m :: post) k =
    (stopAllModules (reverse all);;
     ret (Some (Errorw ("module " +:+ Mod.Name m +:+ " RegisterServices") err)))
      (recordAll (registerCall <$> pre ++ [m])
         (setRegistry (registeredBy (pre ++ [m]) (registry k)) k)).
Proof.
  induction pre as [|x pre IH]; intros k Hpre Hm; cbn [registerServices app].
  - run_step. cbn [registeredBy foldl] in Hm. rewrite Hm. reflexivity.
  - destruct Hpre as [Hx Hpre]. run_step. rewrite Hx.
    rewrite IH by (by autorewrite with kernel_state).
    f_equal. unfold registeredBy, registerCall. cbn [foldl fmap list_fmap].
    autorewrite with kernel_state. reflexivity.
Qed.

(** X19. [Start] halts when a module's [RegisterServices] fails: with the
    startup order computed and every module started, the first module whose
    [RegisterServices] returns an error or panics ends the startup.  Every
    module of the order is then stopped, last to first, and the error is
    returned wrapped; no [OnReady] is called and no gateway is started.  The
    running flag, set when [Start] began, is left set. *)
Theorem Start_halts_on_failed_registration (ctx : Auth.Context) (k : kernel)
    (pre : list Module) (m : Module) (post : list Module) (err : error) :
  running k = false ->
  getModuleStartupOrder k = Ret (inr (pre ++ m :: post)) k ->
  Forall (fun x => reported IsModule (Mod.Name x) "Start" (Mod.Start x) = None)
         (pre ++ m :: post) ->
  registersCleanly pre (registry k) ->
  reported IsModule (Mod.Name m) "RegisterServices"
    (Mod.RegisterServices m (registeredBy pre (registry k))).2 = Some err ->
  Forall (fun x => exists r, Mod.Stop x = Returns r) (pre ++ m :: post) ->
  Start ctx k =
    Ret (Some (Errorw ("module " +:+ Mod.Name m +:+ " RegisterServices") err))
      (recordAll ((startCall <$> pre ++ m :: post) ++ (registerCall <$> pre ++ [m]) ++
                  (stopCall <$> reverse (pre ++ m :: post)))
         (setRegistry (registeredBy (pre ++ [m]) (registry k)) (setRunning true k))).
Proof.
  intros Hrun Horder Hstart Hpre Hm Hstop.
  unfold Start. run_step. rewrite Hrun. run_step. unfold bind at 1.
  rewrite (getModuleStartupOrder_ext k (setRunning true k) _ eq_refl Horder).
  unfold bind at 1. rewrite startModules_all by done.
  unfold bind at 1.
  rewrite (registerServices_fails _ pre m post err) by (done || by autorewrite with kernel_state).
  unfold bind at 1. rewrite stopAllModules_runs by (by apply Forall_reverse).
  unfold ret. f_equal. autorewrite with kernel_state. rewrite <- ?app_assoc; reflexivity.
Qed.

Lemma stopGatewaysBefore_runs failed pre g post : forall k,
  Forall (fun x => Gw.Name x <> failed) pre ->
  Forall (fun x => exists r, Gw.Stop x = Returns r) pre ->
  Gw.Name g = failed ->
  stopGatewaysBefore failed (pre ++ g :: post) k
    = Ret tt (recordAll (gatewayRollbackCall <$> pre) k).
Proof.
  induction pre as [|x pre IH]; intros k Hne Hstop Hg; cbn [stopGatewaysBefore app fmap list_fmap].
  - rewrite Hg, String.eqb_refl. unfold ret. by rewrite recordAll_nil.
  - apply Forall_cons in Hne as [Hx%String.eqb_neq Hne].
    apply Forall_cons in Hstop as [[r Hr] Hstop]. rewrite Hx, Hr. run_step.
    rewrite IH by done. by rewrite record_recordAll.
Qed.

Lemma startGateways_fails t all gws pre g post err : forall k,
  Forall (fun x => reported IsGateway (Gw.Name x) "Start" (Gw.Start x) = None) pre ->
  reported IsGateway (Gw.Name g) "Start" (Gw.Start g) = Some err ->
  startGateways t all gws (pre ++ g :: post) k =
    (stopGatewaysBefore (Gw.Name g) gws;;
     stopAllModules (reverse all);;
     ret (Some (Errorw ("start gateway " +:+ Gw.Name g) err)))
      (setRunning false
         (recordAll ((pre ≫= gatewayStartEvents t) ++
                     [Called IsGateway (Gw.Name g) OpStart (withTimeout FromCaller t)]) k)).
Proof.
  induction pre as [|x pre IH]; intros k Hpre Hg; cbn [startGateways app mbind list_bind].
  - run_step. rewrite Hg. run_step. reflexivity.
  - apply Forall_cons in Hpre as [Hx Hpre]. run_step. rewrite Hx. run_step.
    rewrite IH by done. f_equal. unfold gatewayStartEvents at 3.
    by_fields; rewrite <- ?app_assoc; reflexivity.
Qed.

(** X20. [Start] halts when a gateway fails to start: with every module
    started, registered and ready, the first gateway whose [Start] returns an
    error or panics ends the startup.  The kernel is marked not running; the
    gateways started before it are stopped, in the order they were started
    in, then every module of the startup order is stopped, last to first;
    the gateways after it are not started, and the error is returned
    wrapped. *)
Theorem Start_halts_on_failed_gateway (ctx : Auth.Context) (k : kernel)
    (order : list Module) (pre : list Gateway) (g : Gateway) (post : list Gateway)
    (err : error) :
  running k = false ->
  getModuleStartupOrder k = Ret (inr order) k ->
  Forall (fun m => reported IsModule (Mod.Name m) "Start" (Mod.Start m) = None) order ->
  registersCleanly order (registry k) ->
  Forall (fun m => reported IsModule (Mod.Name m) "OnReady" (Mod.OnReady m) = None) order ->
  Forall (fun m => exists r, Mod.Stop m = Returns r) order ->
  (rangeOrder AtGatewaysStart (gateways k)).*2 = pre ++ g :: post ->
  Forall (fun x => reported IsGateway (Gw.Name x) "Start" (Gw.Start x) = None) pre ->
  Forall (fun x => Gw.Name x <> Gw.Name g) pre ->
  Forall (fun x => exists r, Gw.Stop x = Returns r) pre ->
  reported IsGateway (Gw.Name g) "Start" (Gw.Start g) = Some err ->
  Start ctx k =
    Ret (Some (Errorw ("start gateway " +:+ Gw.Name g) err))
      (recordAll ((startCall <$> order) ++ (registerCall <$> order) ++ (onReadyCall <$> order) ++
                  (pre ≫= gatewayStartEvents (gatewayOperation k)) ++
                  [Called IsGateway (Gw.Name g) OpStart
                     (withTimeout FromCaller (gatewayOperation k))] ++
                  (gatewayRollbackCall <$> pre) ++ (stopCall <$> reverse order))
         (setRegistry (registeredBy order (registry k)) k)).
Proof.
  intros Hrun Horder Hstart Hreg Hready Hstop Hgws Hpre Hnames Hgwstop Hg.
  unfold Start. run_step. rewrite Hrun. run_step. unfold bind at 1.
  rewrite (getModuleStartupOrder_ext k (setRunning true k) _ eq_refl Horder).
  unfold bind at 1. rewrite startModules_all by done.
  unfold bind at 1. rewrite registerServices_all by (by autorewrite with kernel_state).
  unfold bind at 1. rewrite onReadyModules_all by done.
  rewrite Hgws. unfold bind at 1.
  rewrite (startGateways_fails _ _ _ pre g post err) by done.
  unfold bind at 1. rewrite (stopGatewaysBefore_runs _ pre g post) by done.
  unfold bind at 1. rewrite stopAllModules_runs by (by apply Forall_reverse).
  unfold ret. f_equal. by_fields; rewrite <- ?app_assoc; try reflexivity. done.
Qed.

(** *** What a [Start] that returns no error has done *)

Lemma startModules_None all ms : forall k k',
  startModules all ms k = Ret None k' -> k' = recordAll (startCall <$> ms) k.
Proof.
  induction ms as [|m ms IH]; intros k k'; cbn [startModules fmap list_fmap].
  - unfold ret. intros [= <-]. by rewrite recordAll_nil.
  - run_step. destruct (reported _ _ _ _) as [err|].
    + run_step. unfold bind. destruct (stopDownTo _ _ _); by unfold ret.
    + intros Hrest. rewrite (IH _ _ Hrest). by rewrite record_recordAll.
Qed.

Lemma registerServices_None all ms : forall k k',
  registerServices all ms k = Ret None k' -> exists evs, trace k' = trace k ++ evs.
Proof.
  induction ms as [|m ms IH]; intros k k'; cbn [registerServices].
  - unfold ret. intros [= <-]. exists []. by rewrite app_nil_r.
  - run_step. destruct (reported _ _ _ _) as [err|].
    + unfold bind. destruct (stopAllModules _ _); by unfold ret.
    + intros [evs ->]%IH. eexists. cbn [trace record setRegistry].
      by rewrite <- app_assoc.
Qed.

Lemma onReadyModules_None ms : forall k k',
  onReadyModules ms k = Ret None k' -> exists evs, trace k' = trace k ++ evs.
Proof.
  induction ms as [|m ms IH]; intros k k'; cbn [onReadyModules].
  - unfold ret. intros [= <-]. exists []. by rewrite app_nil_r.
  - run_step. destruct (reported _ _ _ _) as [err|].
    + unfold bind, call, ret. by destruct (Mod.Stop m).
    + intros [evs ->]%IH. eexists. cbn [trace record]. by rewrite <- app_assoc.
Qed.

Lemma startGateways_None t all gws gs : forall k k',
  startGateways t all gws gs k = Ret None k' -> exists evs, trace k' = trace k ++ evs.
Proof.
  induction gs as [|g gs IH]; intros k k'; cbn [startGateways].
  - unfold ret. intros [= <-]. exists []. by rewrite app_nil_r.
  - run_step. destruct (reported _ _ _ _) as [err|].
    + run_step. unfold bind. destruct (stopGatewaysBefore _ _ _); [|done..].
      destruct (stopAllModules _ _); by unfold ret.
    + run_step. intros [evs ->]%IH. eexists. cbn [trace record].
      by rewrite <- !app_assoc.
Qed.

(** A [Start] that returns no error has computed the startup order and
    called [Start] on every module of it, in this order, before anything
    else. *)
Lemma Start_None ctx k k' :
  Start ctx k = Ret None k' ->
  exists order evs,
    getModuleStartupOrder k = Ret (inr order) k /\
    trace k' = trace k ++ (startCall <$> order) ++ evs.
Proof.
  unfold Start. run_step. destruct (running k) eqn:Hrun; [by unfold ret|].
  cbv iota. run_step. unfold bind at 1.
  destruct (getModuleStartupOrder (setRunning true k)) as [[err|order] k1| | |] eqn:Horder;
    try done.
  pose proof (getModuleStartupOrder_same _ _ _ Horder) as ->.
  cbv beta iota. unfold bind at 1.
  destruct (startModules order order _) as [[err|] kA| | |] eqn:HA; try done.
  apply startModules_None in HA as ->.
  unfold bind at 1.
  destruct (registerServices order order _) as [[err|] kB| | |] eqn:HB; try done.
  apply registerServices_None in HB as [evsB HB].
  unfold bind at 1.
  destruct (onReadyModules order kB) as [[err|] kC| | |] eqn:HC; try done.
  apply onReadyModules_None in HC as [evsC HC].
  unfold bind at 1.
  destruct (startGateways _ _ _ _ kC) as [[err|] kD| | |] eqn:HD; try done.
  apply startGateways_None in HD as [evsD HD].
  unfold ret. intros [= <-].
  exists order, (evsB ++ evsC ++ evsD). split.
  - by apply (getModuleStartupOrder_ext (setRunning true k) k (inr order) eq_refl).
  - rewrite HD, HC, HB. cbn [trace recordAll setRunning]. by rewrite <- !app_assoc.
Qed.

Lemma runs_keep_keyed k calls k' :
  runs k calls k' -> keyedByName (modules k) -> keyedByName (modules k').
Proof.
  induction 1 as [k|k c err k1 calls k2 Hstep _ IH]; [done|].
  intros Hk. apply IH. by eapply perform_keeps_keyed.
Qed.

Section Refusal.
Context `{!MapOrderLaws}.

Lemma addDependencies_inr E name deps : forall g g',
  addDependencies E name deps g = inr g' ->
  forall d c, (d, c) ∈ deps ->
    exists dep cs v, E !! d = Some dep /\ NewConstraint c = inr cs /\
      NewVersion (Mod.Version dep) = inr v /\ Check cs v = true.
Proof.
  induction deps as [|[d0 c0] deps IH]; intros g g' Hrun d c Hin;
    [by apply elem_of_nil in Hin|].
  cbn [addDependencies] in Hrun.
  destruct (addDependency E name g (d0, c0)) as [err|g1] eqn:Hone; [done|].
  apply elem_of_cons in Hin as [[= -> ->]|Hin]; [|by eapply IH].
  unfold addDependency in Hone.
  destruct (E !! d0) as [dep|] eqn:Hdep; [|done].
  destruct (NewConstraint c0) as [|cs] eqn:Hcs; [done|].
  destruct (NewVersion (Mod.Version dep)) as [|v] eqn:Hv; [done|].
  destruct (Check cs v) eqn:Hcheck; [|done].
  by exists dep, cs, v.
Qed.

Lemma buildGraph_inr E es : forall g g',
  buildGraph E es g = inr g' ->
  forall n m, (n, m) ∈ es -> satisfiable E m.
Proof.
  induction es as [|[n0 m0] es IH]; intros g g' Hrun n m Hin; [by apply elem_of_nil in Hin|].
  cbn [buildGraph] in Hrun.
  destruct (addModuleEdges E g (n0, m0)) as [err|g1] eqn:Hone; [done|].
  apply elem_of_cons in Hin as [[= -> ->]|Hin]; [|by eapply IH].
  unfold addModuleEdges in Hone.
  destruct (NewVersion (Mod.Version m0)) as [|v] eqn:Hv; [done|].
  split; [by exists v|]. intros d c Hc.
  eapply addDependencies_inr; [done|].
  rewrite (rangeOrder_perm _ (AtDependencies n0)). by apply elem_of_map_to_list.
Qed.

Lemma setRunning_back k : running k = false -> setRunning false (setRunning true k) = k.
Proof. destruct k. cbn. by intros ->. Qed.

(** X21. When an enabled module cannot be satisfied, no startup order is
    computed and [Start] starts nothing: if the version of an enabled
    module does not parse, or it declares a dependency that is not an
    enabled module, or whose constraint or version does not parse, or whose
    version does not meet the constraint, then [getModuleStartupOrder]
    returns an error and [Start] returns that error, wrapped, having called
    no component and with the kernel as it was, not running. *)
Theorem unmet_dependency_refuses_start (ctx : Auth.Context) (k : kernel)
    (n : string) (m : Module) :
  enabledModules k !! n = Some m ->
  ~ satisfiable (enabledModules k) m ->
  exists err,
    getModuleStartupOrder k = Ret (inl err) k /\
    (running k = false ->
     Start ctx k = Ret (Some (Errorw "module startup order" err)) k).
Proof.
  intros Hm Hunmet.
  assert (Horder : exists err, getModuleStartupOrder k = Ret (inl err) k).
  { unfold getModuleStartupOrder. rewrite bind_get.
    destruct (buildGraph _ _ _) as [err|g] eqn:Hbuild; [by exists err|].
    exfalso. apply Hunmet. eapply buildGraph_inr; [done|].
    rewrite (rangeOrder_perm _ AtGraphBuild). by apply elem_of_map_to_list. }
  destruct Horder as [err Horder]. exists err. split; [done|].
  intros Hrun. unfold Start. run_step. rewrite Hrun. run_step. unfold bind at 1.
  rewrite (getModuleStartupOrder_ext k (setRunning true k) (inl err) eq_refl Horder).
  run_step. unfold ret. by rewrite setRunning_back.
Qed.

(** X23. The shutdown order is the startup order reversed: for modules stored
    under their names, with versions and constraints that are met, and no
    dependency cycle, [getModuleShutdownOrder] returns every enabled module
    once, each before all the modules it depends on; with a cycle it returns
    the circular-dependency error. *)
Theorem shutdown_order_dependents_first (k : kernel) :
  keyedByName (modules k) ->
  wellVersioned (enabledModules k) ->
  (hasCycle (enabledModules k) -> getModuleShutdownOrder k = Ret (inl errCircular) k) /\
  (~ hasCycle (enabledModules k) ->
     exists order, getModuleShutdownOrder k = Ret (inr order) k /\
       getModuleStartupOrder k = Ret (inr (reverse order)) k /\
       order ≡ₚ (map_to_list (enabledModules k)).*2 /\ dependentsFirst order).
Proof.
  intros Hkeyed Hwell. unfold getModuleShutdownOrder, bind.
  destruct (startup_order_cases k Hkeyed Hwell)
    as [[Hcycle ->]|[Hno (order & -> & Hperm & Htopo)]].
  - split; [done|]. by intros Hno.
  - split; [by intros Hcycle|]. intros _. exists (reverse order). unfold ret.
    split; [done|]. split; [by rewrite reverse_involutive|].
    split; [by rewrite reverse_Permutation|].
    intros i m d Hi Hd.
    assert (Hlt : i < length order).
    { apply lookup_lt_Some in Hi. by rewrite length_reverse in Hi. }
    rewrite reverse_lookup in Hi by done.
    destruct (Htopo _ m d Hi Hd) as (j & dep & Hj & Hdep & Hname).
    exists (length order - S j), dep. split; [lia|]. split; [|done].
    rewrite reverse_lookup by lia. rewrite <- Hdep. f_equal.
    apply lookup_lt_Some in Hdep. lia.
Qed.

(** A startup order that is computed holds every enabled module. *)
Lemma startup_order_holds_enabled k order n m :
  keyedByName (modules k) ->
  getModuleStartupOrder k = Ret (inr order) k ->
  enabledModules k !! n = Some m -> m ∈ order.
Proof.
  intros Hkeyed Horder Hm.
  assert (Hwell : wellVersioned (enabledModules k)).
  { intros n' m' Hm'. revert Horder. unfold getModuleStartupOrder. rewrite bind_get.
    destruct (buildGraph _ _ _) as [err|g] eqn:Hbuild; [by unfold ret|]. intros _.
    eapply buildGraph_inr; [done|].
    rewrite (rangeOrder_perm _ AtGraphBuild). by apply elem_of_map_to_list. }
  destruct (startup_order_cases k Hkeyed Hwell)
    as [[_ Hcirc]|(_ & order' & Horder' & Hperm & _)]; [congruence|].
  assert (order' = order) as -> by congruence.
  rewrite Hperm. apply list_elem_of_fmap. exists (n, m). split; [done|].
  by apply elem_of_map_to_list.
Qed.

(** C10. When [AddModule] registers [m] and returns no error, [m] is
    marked enabled without any call to [EnableModule]; and after any later
    calls of [AddModule], [RemoveModule], [EnableModule], [DisableModule],
    [Start] and [Stop] that return, none of them a [DisableModule] or
    [RemoveModule] of [m]'s name, [m] is in the snapshot of enabled modules
    that [Start] takes: in [modulesToStart] and in the [enabledModules] from
    which the dependency graph is built.  With the modules stored under
    their names to begin with, as in a new kernel and ever after, [m] is in
    every startup order that is computed then, and a [Start] then that
    returns no error has called [Start] on every module of that order, [m]
    among them, before it called anything else. *)
Theorem added_module_is_enabled_at_start ctx m k k1 calls k2 :
  AddModule ctx (Some m) k = Ret None k1 ->
  runs k1 calls k2 ->
  Forall (fun c => disables (Mod.Name m) c = false) calls ->
  moduleStates k1 !! Mod.Name m = Some true /\
  enabledModules k2 !! Mod.Name m = Some m /\
  m ∈ modulesToStart k2 /\
  (keyedByName (modules k) ->
   (forall order, getModuleStartupOrder k2 = Ret (inr order) k2 -> m ∈ order) /\
   (forall ctx' k3, Start ctx' k2 = Ret None k3 ->
      exists order evs,
        getModuleStartupOrder k2 = Ret (inr order) k2 /\ m ∈ order /\
        trace k3 = trace k2 ++ (startCall <$> order) ++ evs)).
Proof.
  intros Hadd Hruns Hcalls. pose proof (AddModule_enables _ _ _ _ Hadd) as Hen.
  split; [by destruct Hen|].
  destruct (enabledAs_snapshot m k2) as [Hm Hsnap]; [by eapply runs_keep_enabled|].
  split; [done|]. split; [done|]. intros Hkeyed.
  assert (Hkeyed2 : keyedByName (modules k2)).
  { eapply runs_keep_keyed; [done|]. by eapply AddModule_keeps_keyed. }
  split.
  - intros order Horder. by eapply startup_order_holds_enabled.
  - intros ctx' k3 (order & evs & Horder & Htrace)%Start_None.
    exists order, evs. split; [done|]. split; [|done].
    by eapply startup_order_holds_enabled.
Qed.

End Refusal.

End Phases.

Lemma Stop_stops_every_component_witness :
  Stop Auth.Background (setRunning true twoModulesOneGateway) =
    Ret None
      (recordAll
         [Called IsGateway "gw" OpStop (withTimeout FromCaller (5 * Second)%Z);
          Called IsModule "q" OpStop (withTimeout FromCaller (5 * Second)%Z);
          Called IsModule "p" OpStop (withTimeout FromCaller (5 * Second)%Z)]
         (setRunning false (setRunning true twoModulesOneGateway))).
Proof.
  rewrite (Stop_stops_every_component Auth.Background (setRunning true twoModulesOneGateway)
             (inr [modP; modQ]) eq_refl); [|by vm_compute].
  vm_compute. reflexivity.
Defined.

Lemma Start_works_in_phases_witness :
  Start Auth.Background startable =
    Ret None
      (recordAll
         [Called IsModule "a" OpStart (plainCtx FromCaller);
          Called IsModule "d" OpStart (plainCtx FromCaller);
          Called IsModule "a" OpRegisterServices None;
          Called IsModule "d" OpRegisterServices None;
          Called IsModule "a" OpOnReady (plainCtx FromCaller);
          Called IsModule "d" OpOnReady (plainCtx FromCaller);
          Called IsGateway "gw" OpStart (withTimeout FromCaller (10 * Second)%Z);
          Published GatewayStartedEventType "gw"]
         (setRegistry (registeredBy [modA; modD] (registry startable))
            (setRunning true startable))).
Proof.
  rewrite (Start_works_in_phases Auth.Background startable [modA; modD] eq_refl).
  - vm_compute. reflexivity.
  - by vm_compute.
  - by repeat constructor.
  - by repeat split.
  - by repeat constructor.
  - by repeat constructor.
Defined.

Lemma orphan_unsatisfiable : ~ satisfiable (enabledModules orphan) modC.
Proof.
  intros [_ Hdeps]. destruct (Hdeps "b" "*") as (dep & cs & v & Hdep & _); [done|].
  vm_compute in Hdep. discriminate.
Qed.

Lemma unmet_dependency_refuses_start_witness :
  exists err,
    getModuleStartupOrder orphan = Ret (inl err) orphan /\
    Start Auth.Background orphan = Ret (Some (Errorw "module startup order" err)) orphan.
Proof.
  destruct (unmet_dependency_refuses_start Auth.Background orphan "c" modC)
    as (err & Horder & Hstart).
  - by vm_compute.
  - exact orphan_unsatisfiable.
  - exists err. split; [done|]. by apply Hstart.
Defined.

Lemma shutdown_order_dependents_first_witness :
  exists order,
    getModuleShutdownOrder threeModules = Ret (inr order) threeModules /\
    getModuleStartupOrder threeModules = Ret (inr (reverse order)) threeModules /\
    order ≡ₚ (map_to_list (enabledModules threeModules)).*2 /\ dependentsFirst order.
Proof.
  destruct threeModules_ok as [Hk Hw].
  destruct (shutdown_order_dependents_first threeModules Hk Hw) as [Hcirc Horder].
  apply Horder. intros Hc. specialize (Hcirc Hc). vm_compute in Hcirc. discriminate.
Defined.

Lemma Start_halts_on_failed_registration_witness :
  Start Auth.Background unregistrable =
    Ret (Some (Errorw "module r RegisterServices" (Errorf "no registry")))
      (recordAll
         [Called IsModule "a" OpStart (plainCtx FromCaller);
          Called IsModule "r" OpStart (plainCtx FromCaller);
          Called IsModule "a" OpRegisterServices None;
          Called IsModule "r" OpRegisterServices None;
          Called IsModule "r" OpStop (plainCtx FromBackground);
          Called IsModule "a" OpStop (plainCtx FromBackground)]
         (setRunning true unregistrable)).
Proof.
  rewrite (Start_halts_on_failed_registration Auth.Background unregistrable
             [modA] modR [] (Errorf "no registry") eq_refl).
  - vm_compute. reflexivity.
  - by vm_compute.
  - by repeat constructor.
  - by repeat split.
  - reflexivity.
  - repeat constructor; by eexists.
Defined.

Lemma Start_halts_on_failed_gateway_witness :
  Start Auth.Background stuckGateway =
    Ret (Some (Errorw "start gateway stuck" (Errorf "stuck")))
      (recordAll
         [Called IsModule "a" OpStart (plainCtx FromCaller);
          Called IsModule "d" OpStart (plainCtx FromCaller);
          Called IsModule "a" OpRegisterServices None;
          Called IsModule "d" OpRegisterServices None;
          Called IsModule "a" OpOnReady (plainCtx FromCaller);
          Called IsModule "d" OpOnReady (plainCtx FromCaller);
          Called IsGateway "gw" OpStart (withTimeout FromCaller (10 * Second)%Z);
          Published GatewayStartedEventType "gw";
          Called IsGateway "stuck" OpStart (withTimeout FromCaller (10 * Second)%Z);
          Called IsGateway "gw" OpStop (plainCtx FromBackground);
          Called IsModule "d" OpStop (plainCtx FromBackground);
          Called IsModule "a" OpStop (plainCtx FromBackground)]
         (setRegistry (registeredBy [modA; modD] (registry stuckGateway)) stuckGateway)).
Proof.
  rewrite (Start_halts_on_failed_gateway Auth.Background stuckGateway [modA; modD]
             [plainGateway "gw"] gwStuck [] (Errorf "stuck") eq_refl).
  - vm_compute. reflexivity.
  - by vm_compute.
  - by repeat constructor.
  - by repeat split.
  - by repeat constructor.
  - repeat constructor; by eexists.
  - by vm_compute.
  - by repeat constructor.
  - by repeat constructor.
  - repeat constructor; by eexists.
  - reflexivity.
Defined.

Lemma added_module_is_enabled_at_start_witness :
  exists k1 k2 k3,
    AddModule adminCtx (Some modA) (New defaultConfig None) = Ret None k1 /\
    after laterCalls k1 = Some k2 /\
    moduleStates k1 !! "a" = Some true /\
    enabledModules k2 !! "a" = Some modA /\
    modA ∈ modulesToStart k2 /\
    Start Auth.Background k2 = Ret None k3 /\
    exists order evs,
      getModuleStartupOrder k2 = Ret (inr order) k2 /\ modA ∈ order /\
      trace k3 = trace k2 ++ (startCall <$> order) ++ evs.
Proof.
  destruct (AddModule adminCtx (Some modA) (New defaultConfig None)) as [[err|] k1| | |] eqn:Hadd;
    try (vm_compute in Hadd; discriminate).
  destruct (after laterCalls k1) as [k2|] eqn:Hafter;
    [|exfalso; vm_compute in Hadd; injection Hadd as <-; vm_compute in Hafter; discriminate].
  destruct (Start Auth.Background k2) as [[err|] k3| | |] eqn:Hstart;
    try (exfalso; vm_compute in Hadd; injection Hadd as <-;
         vm_compute in Hafter; injection Hafter as <-;
         vm_compute in Hstart; discriminate).
  destruct (added_module_is_enabled_at_start adminCtx modA _ k1 laterCalls k2 Hadd)
    as (Hstate & Hen & Hsnap & Hlater).
  { by apply after_runs. }
  { repeat constructor. }
  destruct Hlater as [_ Hstarted].
  { intros n m Hm. cbn in Hm. by rewrite lookup_empty in Hm. }
  exists k1, k2, k3. repeat (split; [done|]). by apply (Hstarted Auth.Background).
Defined.

End Lifecycle.

(** ** Adding and removing gateways *)

Module Gateways.

Import Kernel Scenarios KernelFacts Managing.
Local Open Scope kernel_scope.

Lemma bind_registerGateway_free {B} name g (f : option error -> M B) k :
  Registry.gateways (registry k) !! name = None ->
  bind (registerGateway name g) f k =
    f None (setRegistry (Registry.withGateways (registry k)
              (<[name := gatewayEntry name g]> (Registry.gateways (registry k)))) k).
Proof.
  intros Hfree. unfold bind, registerGateway, Registry.RegisterGateway. by rewrite Hfree.
Qed.

Lemma bind_unregisterGateway {B} name (f : unit -> M B) k :
  bind (unregisterGateway name) f k =
    f tt (setRegistry (Registry.UnregisterGateway name (registry k)) k).
Proof. reflexivity. Qed.

(** X25. [AddGateway] of a gateway with a fresh name whose [Configure]
    succeeds and, on a running kernel, whose [Start] succeeds: it returns no
    error, the kernel holds the gateway and [GetGateway] finds it, and the
    registry records it under its name, so that the registry's [GetGateway]
    returns it to a principal holding [gateway.<name>.access].  The gateway
    is configured before it is stored, and started only on a running
    kernel. *)
Theorem AddGateway_succeeds (g : Gateway) (k : kernel) :
  Gw.Name g <> "" ->
  gateways k !! Gw.Name g = None ->
  Registry.gateways (registry k) !! Gw.Name g = None ->
  (forall cfg, Gateways (config k) !! Gw.Name g = Some cfg ->
     Gw.Configure g cfg = Returns None) ->
  (running k = true -> Gw.Start g = Returns None) ->
  let k' := recordAll (addGatewayCalls k g)
              (setRegistry (Registry.withGateways (registry k)
                              (<[Gw.Name g := gatewayEntry (Gw.Name g) g]>
                                 (Registry.gateways (registry k))))
                 (setGateways (insert (Gw.Name g) g) k)) in
  AddGateway (Some g) k = Ret None k' /\
  GetGateway (Gw.Name g) k' = Ret (Some g) k' /\
  forall ctx p,
    Auth.PrincipalFromContext ctx = Some p ->
    Auth.HasPermission (Registry.accessController (registry k)) p
      ("gateway." +:+ Gw.Name g +:+ ".access") = true ->
    (Registry.GetGateway ctx (Gw.Name g) (registry k')).1
      = inr (Registry.GatewayValue (Gw.Name g)).
Proof.
  intros Hname%String.eqb_neq Hfresh Hreg Hconf Hstart k'. split; [|split].
  - unfold AddGateway. rewrite Hname. run_step. rewrite Hfresh. unfold k', addGatewayCalls.
    destruct (Gateways (config k) !! Gw.Name g) as [cfg|] eqn:Hcfg.
    + rewrite (Hconf cfg eq_refl). do 3 run_step.
      rewrite bind_registerGateway_free by done.
      destruct (running k) eqn:Hrun.
      * rewrite (Hstart eq_refl). run_step.
        unfold ret; f_equal; by_fields; rewrite <- ?app_assoc; reflexivity.
      * unfold ret; f_equal; by_fields; rewrite <- ?app_assoc; reflexivity.
    + do 3 run_step. rewrite bind_registerGateway_free by done.
      destruct (running k) eqn:Hrun.
      * rewrite (Hstart eq_refl). run_step.
        unfold ret; f_equal; by_fields; rewrite <- ?app_assoc; reflexivity.
      * unfold ret; f_equal; by_fields; rewrite <- ?app_assoc; reflexivity.
  - unfold GetGateway. rewrite bind_get. unfold ret. f_equal.
    unfold k'. cbn [gateways recordAll setRegistry setGateways]. by rewrite lookup_insert_eq.
  - intros ctx p Hp Hgrant. unfold Registry.GetGateway, Registry.gatewayPermission, k'.
    cbn [registry recordAll setRegistry Registry.gateways Registry.withGateways
         Registry.accessController].
    rewrite lookup_insert_eq, Hp, Hgrant. done.
Qed.

Lemma UnregisterGateway_RegisterGateway name entry (r : Registry.DefaultRegistry) :
  Registry.gateways r !! name = None ->
  Registry.UnregisterGateway name
    (Registry.withGateways r (<[name := entry]> (Registry.gateways r))) = r.
Proof.
  intros Hfree. apply registry_eq; cbn; [done..|]. by rewrite delete_insert_id.
Qed.

(** X26. A gateway call that fails half-way puts back what it had changed.
    [AddGateway] on a running kernel, when the gateway's [Start] returns an
    error: the gateway is taken out of the gateway map and out of the
    registry again.  [RemoveGateway] on a running kernel, when the gateway's
    [Stop] returns an error: the gateway is stored again and registered
    again.  Either returns the error wrapped, and but for the calls made the
    kernel is as it was. *)
Theorem failed_gateway_calls_restore (g : Gateway) (err : error) (k : kernel) :
  running k = true ->
  (Gw.Name g <> "" ->
   gateways k !! Gw.Name g = None ->
   Registry.gateways (registry k) !! Gw.Name g = None ->
   (forall cfg, Gateways (config k) !! Gw.Name g = Some cfg ->
      Gw.Configure g cfg = Returns None) ->
   Gw.Start g = Returns (Some err) ->
   AddGateway (Some g) k =
     Ret (Some (Errorw ("start gateway " +:+ Gw.Name g) err))
         (recordAll (addGatewayCalls k g) k)) /\
  (forall name, name <> "" ->
   gateways k !! name = Some g ->
   Registry.gateways (registry k) !! name = Some (gatewayEntry name g) ->
   Gw.Stop g = Returns (Some err) ->
   RemoveGateway name k =
     Ret (Some (Errorw ("stop gateway " +:+ name) err))
         (recordAll [Called IsGateway (Gw.Name g) OpStop
                       (withTimeout FromBackground (gatewayOperation k))] k)).
Proof.
  intros Hrun. split.
  - intros Hname%String.eqb_neq Hfresh Hreg Hconf Hstart.
    unfold AddGateway. rewrite Hname. run_step. rewrite Hfresh. unfold addGatewayCalls.
    rewrite Hrun.
    destruct (Gateways (config k) !! Gw.Name g) as [cfg|] eqn:Hcfg.
    + rewrite (Hconf cfg eq_refl). do 3 run_step.
      rewrite bind_registerGateway_free by done. rewrite Hstart. do 2 run_step.
      rewrite bind_unregisterGateway. unfold ret. f_equal.
      by_fields; rewrite <- ?app_assoc; try reflexivity.
      * by rewrite delete_insert_id.
      * by apply UnregisterGateway_RegisterGateway.
    + do 3 run_step.
      rewrite bind_registerGateway_free by done. rewrite Hstart. do 2 run_step.
      rewrite bind_unregisterGateway. unfold ret. f_equal.
      by_fields; rewrite <- ?app_assoc; try reflexivity.
      * by rewrite delete_insert_id.
      * by apply UnregisterGateway_RegisterGateway.
  - intros name Hname%String.eqb_neq Hg Hreg Hstop.
    unfold RemoveGateway. rewrite Hname. run_step. rewrite Hg, Hrun. run_step.
    rewrite bind_unregisterGateway. rewrite Hstop. do 2 run_step.
    rewrite bind_registerGateway_free
      by (cbn [registry setRegistry setGateways record Registry.gateways
               Registry.UnregisterGateway Registry.withGateways]; apply lookup_delete_eq).
    unfold ret. f_equal. by_fields; try reflexivity.
    + rewrite insert_delete_eq. by apply insert_id.
    + apply registry_eq; cbn; [done..|]. rewrite insert_delete_eq. by apply insert_id.
Qed.

Lemma gatewaysRegistered_same (k k' : kernel) :
  gateways k' = gateways k -> Registry.gateways (registry k') = Registry.gateways (registry k) ->
  gatewaysRegistered k -> gatewaysRegistered k'.
Proof. intros Hg Hr Hin name. rewrite Hg, Hr. apply Hin. Qed.

Lemma gatewaysRegistered_insert (k k' : kernel) name g :
  gateways k' = <[name := g]> (gateways k) ->
  Registry.gateways (registry k')
    = <[name := gatewayEntry name g]> (Registry.gateways (registry k)) ->
  gatewaysRegistered k -> gatewaysRegistered k'.
Proof.
  intros Hg Hr Hin n. rewrite Hg, Hr.
  destruct (decide (n = name)) as [->|Hne].
  - by rewrite !lookup_insert_eq.
  - rewrite !lookup_insert_ne by done. apply Hin.
Qed.

Lemma gatewaysRegistered_delete (k k' : kernel) name :
  gateways k' = delete name (gateways k) ->
  Registry.gateways (registry k') = delete name (Registry.gateways (registry k)) ->
  gatewaysRegistered k -> gatewaysRegistered k'.
Proof.
  intros Hg Hr Hin n. rewrite Hg, Hr.
  destruct (decide (n = name)) as [->|Hne].
  - by rewrite !lookup_delete_eq.
  - rewrite !lookup_delete_ne by done. apply Hin.
Qed.

Lemma gatewaysRegistered_New cfg ac : gatewaysRegistered (New cfg ac).
Proof. intros name. destruct ac; cbn; by rewrite !lookup_empty. Qed.

(** X27. The gateway map of the kernel and the gateway entries of the registry
    go together: when the registry records an entry for exactly the gateways
    the kernel holds, as it does in a new kernel, it still does after
    [AddGateway] and after [RemoveGateway], whether the call succeeds or
    returns an error; and under this condition [AddGateway] is never refused
    by the registry. *)
Theorem gateways_stay_registered (k : kernel) :
  gatewaysRegistered k ->
  (forall g r k', AddGateway g k = Ret r k' -> gatewaysRegistered k') /\
  (forall name r k', RemoveGateway name k = Ret r k' -> gatewaysRegistered k') /\
  (forall g r k', AddGateway (Some g) k = Ret r k' ->
     r <> Some (Errorw ("register gateway " +:+ Gw.Name g +:+ " with registry")
                  (Registry.errGatewayExists (Gw.Name g)))).
Proof.
  intros Hin. split; [|split].
  - intros [g|] r k'; [|unfold AddGateway, ret; by intros [= _ <-]].
    unfold AddGateway.
    destruct (String.eqb (Gw.Name g) ""); [unfold ret; by intros [= _ <-]|].
    rewrite bind_get.
    destruct (gateways k !! Gw.Name g) as [g0|] eqn:Hg; [unfold ret; by intros [= _ <-]|].
    assert (Hfree : Registry.gateways (registry k) !! Gw.Name g = None)
      by (by rewrite Hin, Hg).
    destruct (Gateways (config k) !! Gw.Name g) as [cfg|].
    + destruct (Gw.Configure g cfg) as [[err|]|v] eqn:Hconf.
      * unfold bind, call, ret. intros [= _ <-]. by eapply gatewaysRegistered_same.
      * do 3 run_step. rewrite bind_registerGateway_free by done.
        destruct (running k).
        -- destruct (Gw.Start g) as [[err|]|v].
           ++ do 2 run_step. rewrite bind_unregisterGateway. unfold ret. intros [= _ <-].
              eapply gatewaysRegistered_same; [| |done]; cbn; [by rewrite delete_insert_id|].
              by rewrite delete_insert_id.
           ++ run_step. unfold ret. intros [= _ <-].
              by eapply (gatewaysRegistered_insert k _ (Gw.Name g) g).
           ++ done.
        -- unfold ret. intros [= _ <-]. by eapply (gatewaysRegistered_insert k _ (Gw.Name g) g).
      * done.
    + do 3 run_step. rewrite bind_registerGateway_free by done.
      destruct (running k).
      * destruct (Gw.Start g) as [[err|]|v].
        -- do 2 run_step. rewrite bind_unregisterGateway. unfold ret. intros [= _ <-].
           eapply gatewaysRegistered_same; [| |done]; cbn; [by rewrite delete_insert_id|].
           by rewrite delete_insert_id.
        -- run_step. unfold ret. intros [= _ <-].
           by eapply (gatewaysRegistered_insert k _ (Gw.Name g) g).
        -- done.
      * unfold ret. intros [= _ <-]. by eapply (gatewaysRegistered_insert k _ (Gw.Name g) g).
  - intros name r k'. unfold RemoveGateway.
    destruct (String.eqb name ""); [unfold ret; by intros [= _ <-]|].
    rewrite bind_get.
    destruct (gateways k !! name) as [g|] eqn:Hg; [|unfold ret; by intros [= _ <-]].
    assert (Hreg : Registry.gateways (registry k) !! name = Some (gatewayEntry name g))
      by (by rewrite Hin, Hg).
    run_step. rewrite bind_unregisterGateway.
    destruct (running k).
    + destruct (Gw.Stop g) as [[err|]|v].
      * do 2 run_step.
        rewrite bind_registerGateway_free
          by (cbn [registry setRegistry setGateways record Registry.gateways
                   Registry.UnregisterGateway Registry.withGateways]; apply lookup_delete_eq).
        unfold ret. intros [= _ <-].
        eapply gatewaysRegistered_same; [| |done]; cbn;
          rewrite insert_delete_eq; by apply insert_id.
      * run_step. unfold ret. intros [= _ <-]. by eapply (gatewaysRegistered_delete k _ name).
      * done.
    + unfold ret. intros [= _ <-]. by eapply (gatewaysRegistered_delete k _ name).
  - intros g r k'. unfold AddGateway.
    destruct (String.eqb (Gw.Name g) ""); [unfold ret; by intros [= <- _]|].
    rewrite bind_get.
    destruct (gateways k !! Gw.Name g) as [g0|] eqn:Hg; [unfold ret; by intros [= <- _]|].
    assert (Hfree : Registry.gateways (registry k) !! Gw.Name g = None)
      by (by rewrite Hin, Hg).
    destruct (Gateways (config k) !! Gw.Name g) as [cfg|].
    + destruct (Gw.Configure g cfg) as [[err|]|v] eqn:Hconf.
      * unfold bind, call, ret. by intros [= <- _].
      * do 3 run_step. rewrite bind_registerGateway_free by done.
        destruct (running k); [destruct (Gw.Start g) as [[err|]|v]|].
        -- do 2 run_step. rewrite bind_unregisterGateway. unfold ret. by intros [= <- _].
        -- run_step. unfold ret. by intros [= <- _].
        -- done.
        -- unfold ret. by intros [= <- _].
      * done.
    + do 3 run_step. rewrite bind_registerGateway_free by done.
      destruct (running k); [destruct (Gw.Start g) as [[err|]|v]|].
      * do 2 run_step. rewrite bind_unregisterGateway. unfold ret. by intros [= <- _].
      * run_step. unfold ret. by intros [= <- _].
      * done.
      * unfold ret. by intros [= <- _].
Qed.

Lemma AddGateway_succeeds_witness :
  exists k',
    AddGateway (Some (plainGateway "gw")) (setRunning true threeModules) = Ret None k' /\
    GetGateway "gw" k' = Ret (Some (plainGateway "gw")) k' /\
    (Registry.GetGateway adminCtx "gw" (registry k')).1 = inr (Registry.GatewayValue "gw") /\
    trace k' =
      [Called IsGateway "gw" OpSetEventBus None;
       Called IsGateway "gw" OpStart (withTimeout FromBackground (10 * Second)%Z)].
Proof.
  destruct (AddGateway_succeeds (plainGateway "gw") (setRunning true threeModules))
    as (Hadd & Hget & Hreg); try done.
  eexists. split; [exact Hadd|]. split; [exact Hget|]. split; [|reflexivity].
  by apply (Hreg adminCtx admin).
Defined.

Lemma failed_gateway_calls_restore_witness :
  AddGateway (Some gwStuck) (setRunning true threeModules) =
    Ret (Some (Errorw "start gateway stuck" (Errorf "stuck")))
      (recordAll
         [Called IsGateway "stuck" OpSetEventBus None;
          Called IsGateway "stuck" OpStart (withTimeout FromBackground (10 * Second)%Z)]
         (setRunning true threeModules)) /\
  RemoveGateway "stuck" holdsStuck =
    Ret (Some (Errorw "stop gateway stuck" (Errorf "stuck")))
      (recordAll
         [Called IsGateway "stuck" OpStop (withTimeout FromBackground (10 * Second)%Z)]
         holdsStuck).
Proof.
  split.
  - by apply (failed_gateway_calls_restore gwStuck (Errorf "stuck")
                (setRunning true threeModules) eq_refl).
  - by apply (failed_gateway_calls_restore gwStuck (Errorf "stuck") holdsStuck eq_refl).
Defined.

Lemma gateways_stay_registered_witness :
  exists k1,
    AddGateway (Some gwStuck) (New defaultConfig None) = Ret None k1 /\
    gatewaysRegistered k1 /\
    RemoveGateway "stuck" k1 = Ret None (record (Called IsGateway "stuck" OpSetEventBus None)
                                           (New defaultConfig None)) /\
    gatewaysRegistered (record (Called IsGateway "stuck" OpSetEventBus None)
                          (New defaultConfig None)).
Proof.
  pose (k1 := recordAll [Called IsGateway "stuck" OpSetEventBus None]
                (setRegistry (Registry.withGateways (registry (New defaultConfig None))
                                {["stuck" := gatewayEntry "stuck" gwStuck]})
                   (setGateways (insert "stuck" gwStuck) (New defaultConfig None)))).
  assert (Hadd : AddGateway (Some gwStuck) (New defaultConfig None) = Ret None k1)
    by (vm_compute; reflexivity).
  assert (Hrem : RemoveGateway "stuck" k1
                 = Ret None (record (Called IsGateway "stuck" OpSetEventBus None)
                               (New defaultConfig None)))
    by (vm_compute; reflexivity).
  assert (Hk1 : gatewaysRegistered k1).
  { destruct (gateways_stay_registered (New defaultConfig None)
                (gatewaysRegistered_New _ _)) as (Hadded & _ & _).
    exact (Hadded (Some gwStuck) None k1 Hadd). }
  destruct (gateways_stay_registered k1 Hk1) as (_ & Hremoved & _).
  exists k1. split; [exact Hadd|]. split; [exact Hk1|]. split; [exact Hrem|].
  exact (Hremoved "stuck" None _ Hrem).
Defined.

End Gateways.

(** ** Replacing a module by a new instance *)

Module Reloading.

Import Kernel Scenarios KernelFacts Managing Gateways.
Local Open Scope kernel_scope.

(** X29. [ReloadModule] of a module under the name of a module the kernel
    holds, when the old module's [Stop], and the new module's [Configure]
    and [Start] succeed: it returns no error and the new module stands in
    the module map in place of the old one.  The old module is stopped, the
    new one configured, started and told [OnReady], in this order; nothing
    else is called: [OnLoad], [SetEventBus], [SetRegistry] and
    [RegisterServices] are not, the registry and the enabled-state map stay
    as they were, and what [OnReady] returns does not change the result.
    Whether the kernel is running and whether the module is enabled plays
    no part, and no principal is asked for. *)
Theorem ReloadModule_replaces (m oldModule : Module) (k : kernel) :
  Mod.Name m <> "" ->
  modules k !! Mod.Name m = Some oldModule ->
  reported IsModule (Mod.Name oldModule) "Stop" (Mod.Stop oldModule) = None ->
  (forall cfg, Modules (config k) !! Mod.Name m = Some cfg ->
     reported IsModule (Mod.Name m) "Configure" (Mod.Configure m cfg) = None) ->
  reported IsModule (Mod.Name m) "Start" (Mod.Start m) = None ->
  ReloadModule (Some m) k =
    Ret None
      (recordAll ([reloadStopCall k oldModule] ++ reloadConfigureCalls k m ++
                  [reloadStartCall k m; reloadOnReadyCall k m])
         (setModules (insert (Mod.Name m) m) k)).
Proof.
  intros Hname%String.eqb_neq Hold Hstop Hconf Hstart.
  unfold ReloadModule. rewrite Hname. run_step. rewrite Hold. run_step. rewrite Hstop.
  run_step. unfold reloadConfigureCalls.
  destruct (Modules (config k) !! Mod.Name m) as [cfg|] eqn:Hcfg.
  - run_step. rewrite (Hconf cfg eq_refl). run_step. rewrite Hstart. run_step.
    unfold ret. f_equal. same_state.
  - run_step. run_step. rewrite Hstart. run_step. unfold ret. f_equal. same_state.
Qed.

Lemma setModules_restore name m oldModule k :
  modules k !! name = Some oldModule ->
  setModules (insert name oldModule) (setModules (insert name m) k) = k.
Proof.
  intros Hold. apply kernel_eq; cbn; try done. rewrite insert_insert_eq. by apply insert_id.
Qed.

Lemma rollback_runs name m oldModule t msg err restarted es k :
  modules k !! name = Some oldModule ->
  Mod.Start oldModule = Returns restarted ->
  rollback name oldModule t msg err (recordAll es (setModules (insert name m) k)) =
    Ret (Some (rolledBack msg err restarted))
        (recordAll (es ++ [Called IsModule (Mod.Name oldModule) OpStart
                             (withTimeout FromBackground t)]) k).
Proof.
  intros Hold Hstart. unfold rollback. run_step. rewrite Hstart. run_step.
  assert (Hstate : record (Called IsModule (Mod.Name oldModule) OpStart
                             (withTimeout FromBackground t))
                     (setModules (insert name oldModule)
                        (recordAll es (setModules (insert name m) k)))
                   = recordAll (es ++ [Called IsModule (Mod.Name oldModule) OpStart
                                         (withTimeout FromBackground t)]) k).
  { rewrite <- (setModules_restore name m oldModule k Hold) at 2.
    by_fields; rewrite <- ?app_assoc; reflexivity. }
  rewrite Hstate. by destruct restarted.
Qed.

(** X30. [ReloadModule] undoes a reload that fails.  When the old module's
    [Stop] fails, its error is returned wrapped and the new module is
    neither stored nor called.  When the old module is stopped and the new
    module's [Configure] or [Start] fails, the old module is put back in the
    module map and its [Start] is called; the error returned wraps the new
    module's error, together with the rollback's error when the old module
    does not start again.  In each case the kernel is, but for the calls
    made, as it was. *)
Theorem ReloadModule_rolls_back (m oldModule : Module) (err : error)
    (restarted : option error) (k : kernel) :
  Mod.Name m <> "" ->
  modules k !! Mod.Name m = Some oldModule ->
  Mod.Start oldModule = Returns restarted ->
  (reported IsModule (Mod.Name oldModule) "Stop" (Mod.Stop oldModule) = Some err ->
   ReloadModule (Some m) k =
     Ret (Some (Reload (Errorw ("stop old module " +:+ Mod.Name m) err)))
         (recordAll [reloadStopCall k oldModule] k)) /\
  (reported IsModule (Mod.Name oldModule) "Stop" (Mod.Stop oldModule) = None ->
   forall cfg, Modules (config k) !! Mod.Name m = Some cfg ->
   reported IsModule (Mod.Name m) "Configure" (Mod.Configure m cfg) = Some err ->
   ReloadModule (Some m) k =
     Ret (Some (rolledBack ("configure new module " +:+ Mod.Name m) err restarted))
         (recordAll [reloadStopCall k oldModule;
                     Called IsModule (Mod.Name m) OpConfigure None;
                     reloadStartCall k oldModule] k)) /\
  (reported IsModule (Mod.Name oldModule) "Stop" (Mod.Stop oldModule) = None ->
   (forall cfg, Modules (config k) !! Mod.Name m = Some cfg ->
      reported IsModule (Mod.Name m) "Configure" (Mod.Configure m cfg) = None) ->
   reported IsModule (Mod.Name m) "Start" (Mod.Start m) = Some err ->
   ReloadModule (Some m) k =
     Ret (Some (rolledBack ("start new module " +:+ Mod.Name m) err restarted))
         (recordAll ([reloadStopCall k oldModule] ++ reloadConfigureCalls k m ++
                     [reloadStartCall k m; reloadStartCall k oldModule]) k)).
Proof.
  intros Hname%String.eqb_neq Hold Hrestart. split; [|split].
  - intros Hstop. unfold ReloadModule. rewrite Hname. run_step. rewrite Hold. run_step.
    by rewrite Hstop.
  - intros Hstop cfg Hcfg Hconf. unfold ReloadModule. rewrite Hname. run_step. rewrite Hold.
    run_step. rewrite Hstop. run_step. rewrite Hcfg. run_step. rewrite Hconf.
    autorewrite with kernel_state.
    by rewrite (rollback_runs _ m oldModule _ _ _ restarted).
  - intros Hstop Hconf Hstart. unfold ReloadModule. rewrite Hname. run_step. rewrite Hold.
    run_step. rewrite Hstop. run_step. unfold reloadConfigureCalls.
    destruct (Modules (config k) !! Mod.Name m) as [cfg|] eqn:Hcfg.
    + run_step. rewrite (Hconf cfg eq_refl). run_step. rewrite Hstart.
      autorewrite with kernel_state.
      rewrite (rollback_runs _ m oldModule _ _ _ restarted) by done.
      by rewrite <- !app_assoc.
    + run_step. run_step. rewrite Hstart.
      autorewrite with kernel_state.
      rewrite (rollback_runs _ m oldModule _ _ _ restarted) by done.
      by rewrite <- !app_assoc.
Qed.

Lemma ReloadModule_replaces_witness :
  ReloadModule (Some newB) threeModules =
    Ret None
      (recordAll
         [Called IsModule "b" OpStop (withTimeout FromBackground (10 * Second)%Z);
          Called IsModule "b" OpStart (withTimeout FromBackground (10 * Second)%Z);
          Called IsModule "b" OpOnReady (withTimeout FromBackground (10 * Second)%Z)]
         (setModules (insert "b" newB) threeModules)).
Proof. by apply (ReloadModule_replaces newB modB threeModules). Defined.

Lemma ReloadModule_rolls_back_witness :
  ReloadModule (Some modB) reloadable =
    Ret (Some (Reload (Errorw "start new module b" (Errorf "boom"))))
      (recordAll
         [Called IsModule "b" OpStop (withTimeout FromBackground (10 * Second)%Z);
          Called IsModule "b" OpStart (withTimeout FromBackground (10 * Second)%Z);
          Called IsModule "b" OpStart (withTimeout FromBackground (10 * Second)%Z)]
         reloadable).
Proof.
  by apply (ReloadModule_rolls_back modB newB (Errorf "boom") None reloadable).
Defined.

End Reloading.

(** ** The sorted listings *)

Module Listings.

Import Kernel Scenarios KernelFacts Managing Gateways.
Local Open Scope kernel_scope.

Section Sorted.
Context `{ListingOrder} `{!ListingOrderLaws}.

Lemma sortStrings_Permutation (l1 l2 : list string) :
  l1 ≡ₚ l2 -> sortStrings l1 = sortStrings l2.
Proof.
  intros Hperm. unfold sortStrings.
  apply (StronglySorted_unique String.le); try apply StronglySorted_merge_sort; try apply _.
  by rewrite !merge_sort_Permutation.
Qed.

Lemma sortStrings_keys {A} (site : ListingSite) (m : gmap string A) :
  let names := sortStrings (listingOrder site m).*1 in
  names = sortStrings (map_to_list m).*1 /\
  StronglySorted String.le names /\ NoDup names /\
  forall n, n ∈ names <-> is_Some (m !! n).
Proof.
  intros names. unfold names.
  assert (Hperm : sortStrings (listingOrder site m).*1 ≡ₚ (map_to_list m).*1).
  { unfold sortStrings. by rewrite merge_sort_Permutation, (listingOrder_perm _ site). }
  split; [|split; [|split]].
  - apply sortStrings_Permutation. by rewrite (listingOrder_perm _ site).
  - apply StronglySorted_merge_sort; apply _.
  - rewrite Hperm. apply NoDup_fst_map_to_list.
  - intros n. rewrite Hperm, list_elem_of_fmap. split.
    + intros ([n' x] & -> & Hin%elem_of_map_to_list). by exists x.
    + intros [x Hx]. exists (n, x). split; [done|]. by apply elem_of_map_to_list.
Qed.

(** X28. [ListModules] and [ListGateways] return the names the kernel holds
    modules, respectively gateways, under: each name once, in increasing
    order, the same list whatever order the maps are iterated in; they are
    the names for which [GetModule], respectively [GetGateway], finds a
    component.  Neither changes the kernel. *)
Theorem listings_are_sorted_and_complete (k : kernel) :
  exists modNames gwNames,
    ListModules k = Ret modNames k /\ ListGateways k = Ret gwNames k /\
    modNames = sortStrings (map_to_list (modules k)).*1 /\
    gwNames = sortStrings (map_to_list (gateways k)).*1 /\
    StronglySorted String.le modNames /\ NoDup modNames /\
    StronglySorted String.le gwNames /\ NoDup gwNames /\
    (forall n, n ∈ modNames <-> exists m, GetModule n k = Ret (Some m) k) /\
    (forall n, n ∈ gwNames <-> exists g, GetGateway n k = Ret (Some g) k).
Proof.
  destruct (sortStrings_keys AtListModules (modules k)) as (Hm1 & Hm2 & Hm3 & Hm4).
  destruct (sortStrings_keys AtListGateways (gateways k)) as (Hg1 & Hg2 & Hg3 & Hg4).
  eexists _, _. split; [reflexivity|]. split; [reflexivity|].
  split; [done|]. split; [done|]. split; [done|]. split; [done|].
  split; [done|]. split; [done|]. split.
  - intros n. rewrite Hm4. unfold GetModule, bind, get, ret. split.
    + intros [m Hn]. exists m. by rewrite Hn.
    + intros [m [= Hn]]. by rewrite Hn.
  - intros n. rewrite Hg4. unfold GetGateway, bind, get, ret. split.
    + intros [g Hn]. exists g. by rewrite Hn.
    + intros [g [= Hn]]. by rewrite Hn.
Qed.

End Sorted.

#[export] Instance keyListingLaws : ListingOrderLaws.
Proof. split. reflexivity. Qed.

Lemma listings_are_sorted_and_complete_witness :
  exists modNames gwNames,
    ListModules threeModules = Ret modNames threeModules /\
    ListGateways threeModules = Ret gwNames threeModules /\
    modNames = sortStrings (map_to_list (modules threeModules)).*1 /\
    gwNames = sortStrings (map_to_list (gateways threeModules)).*1 /\
    StronglySorted String.le modNames /\ NoDup modNames /\
    StronglySorted String.le gwNames /\ NoDup gwNames /\
    (forall n, n ∈ modNames <-> exists m, GetModule n threeModules = Ret (Some m) threeModules) /\
    (forall n, n ∈ gwNames <-> exists g, GetGateway n threeModules = Ret (Some g) threeModules).
Proof. exact (listings_are_sorted_and_complete threeModules). Defined.

End Listings.

(** ** Event bus *)

Module EventsFacts.

Import Events.

Section Bus.
Variable sched : Schedule.
Hypothesis laws : ScheduleLaws sched.

Lemma flags_insert b ch c :
  flags (withChans b (<[ch := c]> (chans b))) = <[ch := chanClosed c]> (flags b).
Proof. unfold flags. cbn. by rewrite list_fmap_insert. Qed.

Lemma flags_lookup b ch f :
  flags b !! ch = Some f <-> exists c, chans b !! ch = Some c /\ chanClosed c = f.
Proof.
  unfold flags. rewrite list_lookup_fmap. destruct (chans b !! ch) as [c|]; cbn.
  - split; [intros [= <-]; by exists c|intros (c' & [= <-] & <-); done].
  - split; [done|intros (c' & [=] & _)].
Qed.

Lemma closeChan_open ch b :
  flags b !! ch = Some false ->
  exists b', closeChan ch b = Go.Ret tt b' /\ topics b' = topics b /\
    closed b' = closed b /\ flags b' = <[ch := true]> (flags b).
Proof.
  intros (c & Hc & Hopen)%flags_lookup. unfold closeChan. rewrite Hc, Hopen.
  eexists. split; [done|]. by rewrite flags_insert.
Qed.

Lemma closeChans_open chs : forall b,
  NoDup chs -> (forall ch, ch ∈ chs -> flags b !! ch = Some false) ->
  exists b', closeChans chs b = Go.Ret tt b' /\ topics b' = topics b /\
    closed b' = closed b /\
    forall i, flags b' !! i = if decide (i ∈ chs) then Some true else flags b !! i.
Proof.
  induction chs as [|ch chs IH]; intros b Hnd Hopen.
  - exists b. split; [done|]. split; [done|]. split; [done|].
    intros i. by rewrite decide_False by by intros ?%elem_of_nil.
  - apply NoDup_cons in Hnd as [Hch Hnd].
    destruct (closeChan_open ch b) as (b1 & Hrun & Ht & Hc & Hf); [apply Hopen; left|].
    destruct (IH b1 Hnd) as (b' & Hrun' & Ht' & Hc' & Hf').
    { intros ch' Hin. rewrite Hf, list_lookup_insert_ne by (by intros ->).
      apply Hopen. by right. }
    exists b'. cbn [closeChans]. rewrite Hrun. split; [done|].
    split; [congruence|]. split; [congruence|].
    intros i. rewrite Hf'. destruct (decide (i ∈ chs)) as [Hin|Hnin].
    + by rewrite decide_True by by right.
    + rewrite Hf. destruct (decide (i = ch)) as [->|Hne].
      * rewrite decide_True by left. apply list_lookup_insert_eq.
        eapply lookup_lt_Some, Hopen. left.
      * rewrite list_lookup_insert_ne by done.
        rewrite decide_False; [done|]. by intros [?|?]%elem_of_cons.
Qed.

Lemma allChans_cons topic subs entries :
  allChans sched ((topic, subs) :: entries) = rangeSubs sched subs ++ allChans sched entries.
Proof. reflexivity. Qed.

Lemma closeTopics_open entries : forall b,
  NoDup (allChans sched entries) ->
  (forall ch, ch ∈ allChans sched entries -> flags b !! ch = Some false) ->
  exists b', closeTopics sched entries b = Go.Ret tt b' /\
    topics b' = foldl (fun t entry => delete entry.1 t) (topics b) entries /\
    closed b' = closed b /\
    forall i, flags b' !! i =
      if decide (i ∈ allChans sched entries) then Some true else flags b !! i.
Proof.
  induction entries as [|[topic subs] entries IH]; intros b Hnd Hopen.
  - exists b. split; [done|]. split; [done|]. split; [done|].
    intros i. by rewrite decide_False by by intros ?%elem_of_nil.
  - rewrite allChans_cons in Hnd, Hopen. apply NoDup_app in Hnd as (Hnd1 & Hdis & Hnd2).
    destruct (closeChans_open (rangeSubs sched subs) b Hnd1) as (b1 & Hrun & Ht & Hc & Hf).
    { intros ch Hin. apply Hopen, elem_of_app. by left. }
    set (b2 := withTopics b1 (delete topic (topics b1))).
    destruct (IH b2 Hnd2) as (b' & Hrun' & Ht' & Hc' & Hf').
    { intros ch Hin. change (flags b2) with (flags b1). rewrite Hf, decide_False.
      - apply Hopen, elem_of_app. by right.
      - intros Hin'. by apply (Hdis ch). }
    exists b'. cbn [closeTopics]. rewrite Hrun. split; [done|].
    split; [by rewrite Ht'; cbn; rewrite Ht|]. split; [by rewrite Hc'|].
    intros i. rewrite Hf', allChans_cons. change (flags b2) with (flags b1). rewrite Hf.
    destruct (decide (i ∈ allChans sched entries)), (decide (i ∈ rangeSubs sched subs)).
    + by rewrite decide_True by (apply elem_of_app; by left).
    + by rewrite decide_True by (apply elem_of_app; by right).
    + by rewrite decide_True by (apply elem_of_app; by left).
    + by rewrite decide_False by (by intros [?|?]%elem_of_app).
Qed.

Lemma elem_of_allChans entries ch :
  ch ∈ allChans sched entries <-> exists topic subs, (topic, subs) ∈ entries /\ ch ∈ subs.
Proof.
  unfold allChans. rewrite list_elem_of_bind. split.
  - intros ([topic subs] & Hin & Hentry). exists topic, subs. split; [done|].
    cbn in Hin. rewrite (rangeSubs_perm _ laws) in Hin. by apply elem_of_elements in Hin.
  - intros (topic & subs & Hentry & Hin). exists (topic, subs). split; [|done].
    cbn. rewrite (rangeSubs_perm _ laws). by apply elem_of_elements.
Qed.

Lemma NoDup_allChans (t : gmap string (gset ChanId)) entries :
  NoDup entries.*1 ->
  (forall topic subs, (topic, subs) ∈ entries -> t !! topic = Some subs) ->
  (forall t1 t2 s1 s2 ch, t !! t1 = Some s1 -> t !! t2 = Some s2 ->
     ch ∈ s1 -> ch ∈ s2 -> t1 = t2) ->
  NoDup (allChans sched entries).
Proof.
  intros Hnd Hin Hdis. induction entries as [|[topic subs] entries IH]; [constructor|].
  rewrite fmap_cons in Hnd. apply NoDup_cons in Hnd as [Hkey Hnd].
  rewrite allChans_cons. apply NoDup_app. split; [|split].
  - rewrite (rangeSubs_perm _ laws). apply NoDup_elements.
  - intros ch Hch (topic' & subs' & Hentry & Hch')%elem_of_allChans.
    rewrite (rangeSubs_perm _ laws) in Hch. apply elem_of_elements in Hch.
    assert (topic = topic') as <-.
    { eapply Hdis; [apply Hin; left|apply Hin; by right|done..]. }
    apply Hkey. apply list_elem_of_fmap. by exists (topic, subs').
  - apply IH; [done|]. intros ???. apply Hin. by right.
Qed.

Lemma delete_all (t : gmap string (gset ChanId)) entries :
  entries ≡ₚ map_to_list t ->
  foldl (fun t entry => delete entry.1 t) t entries = ∅.
Proof.
  intros Hperm.
  assert (Hlook : forall (es : list (string * gset ChanId))
                         (t0 : gmap string (gset ChanId)) (k : string),
            foldl (fun t entry => delete entry.1 t) t0 es !! k =
              if decide (k ∈ es.*1) then None else t0 !! k).
  { induction es as [|e es IH]; intros t0 k; cbn [foldl].
    - by rewrite decide_False by by intros ?%elem_of_nil.
    - rewrite IH, fmap_cons. destruct (decide (k ∈ es.*1)).
      + by rewrite decide_True by by right.
      + destruct (decide (k = e.1)) as [->|Hne].
        * rewrite decide_True by left. apply lookup_delete_eq.
        * rewrite lookup_delete_ne by done.
          by rewrite decide_False by by intros [?|?]%elem_of_cons. }
  apply map_eq. intros k. rewrite Hlook, lookup_empty.
  destruct (decide (k ∈ entries.*1)) as [|Hnot]; [done|].
  destruct (t !! k) as [subs|] eqn:Hk; [|done].
  exfalso. apply Hnot. apply list_elem_of_fmap. exists (k, subs). split; [done|].
  rewrite Hperm. by apply elem_of_map_to_list.
Qed.

Lemma wellFormed_shape b b' sinks :
  sameShape b b' -> wellFormed (b, sinks) -> wellFormed (b', sinks).
Proof.
  intros (Ht & Hc & Hf) [Hsinks Hopen Hsub Hdis Hclosed]. cbn in *.
  split; cbn; rewrite ?Ht, ?Hc, ?Hf; done.
Qed.

Lemma sameShape_refl b : sameShape b b.
Proof. done. Qed.

Lemma sameShape_trans b1 b2 b3 : sameShape b1 b2 -> sameShape b2 b3 -> sameShape b1 b3.
Proof. intros (? & ? & ?) (? & ? & ?). repeat split; congruence. Qed.

Lemma sameShape_buffer b ch c c' :
  chans b !! ch = Some c -> chanClosed c' = chanClosed c ->
  sameShape b (withChans b (<[ch := c']> (chans b))).
Proof.
  intros Hc Heq. split; [done|]. split; [done|]. rewrite flags_insert, Heq.
  apply list_insert_id. apply flags_lookup. by exists c.
Qed.

Lemma deliver_open ctx payload ch b :
  flags b !! ch = Some false ->
  exists stop b', deliver sched ctx payload ch b = Go.Ret stop b' /\ sameShape b b'.
Proof.
  intros (c & Hc & Hopen)%flags_lookup. unfold deliver. rewrite Hc, Hopen. cbn [orb].
  destruct (length (buffer c) <? capacity c), (Auth.ctxDone ctx); cbn [andb];
    try destruct (pickDone sched ch);
    eauto using sameShape_refl, sameShape_buffer.
Qed.

Lemma deliverAll_open ctx payload chs : forall b,
  (forall ch, ch ∈ chs -> flags b !! ch = Some false) ->
  exists b', deliverAll sched ctx payload chs b = Go.Ret tt b' /\ sameShape b b'.
Proof.
  induction chs as [|ch chs IH]; intros b Hopen; [by exists b|].
  destruct (deliver_open ctx payload ch b) as (stop & b1 & Hrun & Hshape); [apply Hopen; left|].
  cbn [deliverAll]. rewrite Hrun. destruct stop; [by exists b1|].
  destruct (IH b1) as (b' & Hrun' & Hshape').
  { intros ch' Hin. destruct Hshape as (_ & _ & ->). apply Hopen. by right. }
  exists b'. split; [done|]. by eapply sameShape_trans.
Qed.

Lemma Publish_wellFormed ctx topic payload b sinks :
  wellFormed (b, sinks) ->
  exists b', Publish sched ctx topic payload b = Go.Ret tt b' /\ sameShape b b'.
Proof.
  intros Hwf. unfold Publish. apply deliverAll_open. intros ch Hin.
  rewrite (rangeSubs_perm _ laws) in Hin. apply elem_of_elements in Hin.
  destruct (topics b !! topic) as [subs|] eqn:Ht; cbn in Hin; [|by apply elem_of_empty in Hin].
  by apply (wf_open _ Hwf topic subs).
Qed.

Lemma receive_shape ch b : sameShape b (receive ch b).2.
Proof.
  unfold receive. destruct (chans b !! ch) as [c|] eqn:Hc; [|done].
  destruct (buffer c); [done|]. cbn. by eapply sameShape_buffer.
Qed.

Lemma Close_wellFormed b sinks :
  wellFormed (b, sinks) ->
  exists b', Close sched b = Go.Ret tt b' /\ topics b' = ∅ /\ closed b' = true /\
    (forall i, flags b' !! i = (fun _ => true) <$> flags b !! i) /\
    wellFormed (b', sinks).
Proof.
  intros [Hsinks Hopen Hsub Hdis Hclosed]. cbn in *.
  assert (Hfinal : forall b', topics b' = ∅ -> closed b' = true ->
            (forall i, flags b' !! i = (fun _ => true) <$> flags b !! i) ->
            wellFormed (b', sinks)).
  { intros b' Ht Hc Hf. split; cbn.
    - intros t i Hin. apply lookup_lt_is_Some. rewrite Hf.
      destruct (lookup_lt_is_Some_2 _ _ (Hsinks t i Hin)) as [f ->]. by eexists.
    - intros t s i Hts. by rewrite Ht, lookup_empty in Hts.
    - intros i Hi. rewrite Hf in Hi. by destruct (flags b !! i).
    - intros t1 t2 s1 s2 i Hts. by rewrite Ht, lookup_empty in Hts.
    - done. }
  unfold Close. destruct (closed b) eqn:Hc.
  - assert (Hf : forall i, flags b !! i = (fun _ => true) <$> flags b !! i).
    { intros i. destruct (flags b !! i) as [[|]|] eqn:Hf; [done| |done].
      destruct (Hsub i Hf) as (topic & subs & Ht & _).
      by rewrite Hclosed, lookup_empty in Ht. }
    exists b. split; [done|]. split; [by apply Hclosed|]. split; [done|]. split; [done|].
    apply Hfinal; auto.
  - set (entries := rangeTopics sched (topics (withClosed b true))).
    assert (Hperm : entries ≡ₚ map_to_list (topics b)) by apply (rangeTopics_perm _ laws).
    assert (Hentry : forall topic subs, (topic, subs) ∈ entries -> topics b !! topic = Some subs).
    { intros topic subs Hin. rewrite Hperm in Hin. by apply elem_of_map_to_list. }
    destruct (closeTopics_open entries (withClosed b true)) as (b' & Hrun & Ht & Hc' & Hf).
    { apply (NoDup_allChans (topics b)); [|done..].
      rewrite Hperm. apply NoDup_fst_map_to_list. }
    { intros ch (topic & subs & Hin & Hch)%elem_of_allChans. eapply Hopen; [|done].
      by apply Hentry. }
    assert (Ht' : topics b' = ∅) by (by rewrite Ht; apply delete_all).
    assert (Hf' : forall i, flags b' !! i = (fun _ => true) <$> flags b !! i).
    { intros i. rewrite Hf. change (flags (withClosed b true)) with (flags b).
      destruct (decide (i ∈ allChans sched entries)) as [Hin|Hnot].
      - apply elem_of_allChans in Hin as (topic & subs & Hin & Hch).
        by rewrite (Hopen topic subs i) by (try done; by apply Hentry).
      - destruct (flags b !! i) as [[|]|] eqn:Hfl; [done| |done].
        exfalso. apply Hnot. destruct (Hsub i Hfl) as (topic & subs & Htopic & Hch).
        apply elem_of_allChans. exists topic, subs. split; [|done].
        rewrite Hperm. by apply elem_of_map_to_list. }
    exists b'. split; [done|]. split; [done|]. split; [done|]. split; [done|].
    by apply Hfinal.
Qed.

Lemma Subscribe_returns topic b :
  exists b', Subscribe topic b = Go.Ret (length (flags b)) b' /\
    closed b' = closed b /\ flags b' = flags b ++ [closed b] /\
    topics b' =
      if closed b then topics b
      else <[topic := default ∅ (topics b !! topic) ∪ {[length (flags b)]}]> (topics b).
Proof.
  unfold Subscribe, makeChan, flags. rewrite length_fmap. cbn [closed withChans].
  destruct (closed b) eqn:Hc.
  - unfold closeChan. cbn [chans withChans]. rewrite list_lookup_middle by done.
    cbn [chanClosed]. eexists. split; [done|]. cbn.
    rewrite insert_app_r_alt, Nat.sub_diag, fmap_app by done. auto.
  - eexists. split; [done|]. cbn. rewrite fmap_app. auto.
Qed.

Lemma Subscribe_wellFormed topic b sinks :
  wellFormed (b, sinks) ->
  exists ch b', Subscribe topic b = Go.Ret ch b' /\ closed b' = closed b /\
    wellFormed (b', sinks ++ [(topic, ch)]) /\
    (closed b = true -> flags b' !! ch = Some true).
Proof.
  intros [Hsinks Hopen Hsub Hdis Hclosed]. cbn in *.
  destruct (Subscribe_returns topic b) as (b' & Hrun & Hc & Hf & Ht).
  set (ch := length (flags b)) in *.
  exists ch, b'. split; [done|]. split; [done|].
  assert (Hold : forall i f, flags b !! i = Some f -> flags b' !! i = Some f).
  { intros i f Hi. rewrite Hf. by apply lookup_app_l_Some. }
  assert (Hnew : flags b' !! ch = Some (closed b)).
  { rewrite Hf. by apply list_lookup_middle. }
  assert (Hlt : forall t s i, topics b !! t = Some s -> i ∈ s -> i < ch).
  { intros t s i Hts Hi. eapply lookup_lt_Some, Hopen; done. }
  split; [|intros Hcb; by rewrite Hnew, Hcb].
  destruct (closed b) eqn:Hcb.
  - split; cbn; rewrite ?Ht.
    + intros t i [Hin|[= -> ->]%list_elem_of_singleton]%elem_of_app.
      * rewrite Hf, length_app. cbn. specialize (Hsinks t i Hin). lia.
      * rewrite Hf, length_app. cbn. unfold ch. lia.
    + intros t s i Hts Hi. apply Hold. by eapply Hopen.
    + intros i Hi. apply Hsub. rewrite Hf in Hi.
      apply lookup_app_Some in Hi as [Hi|[_ Hi]]; [done|].
      destruct (i - length (flags b)) as [|n]; [done|]. by destruct n.
    + done.
    + intros _. by apply Hclosed.
  - set (subs := default ∅ (topics b !! topic)) in *.
    assert (Hsubs : forall i, i ∈ subs -> i < ch).
    { unfold subs. intros i Hi. destruct (topics b !! topic) as [s|] eqn:Hts; cbn in Hi.
      - by eapply Hlt. - by apply elem_of_empty in Hi. }
    assert (Hlook : forall t s, topics b' !! t = Some s ->
              (t = topic /\ s = subs ∪ {[ch]}) \/ (t <> topic /\ topics b !! t = Some s)).
    { intros t s. rewrite Ht. intros [[<- <-]|[? ?]]%lookup_insert_Some; auto. }
    split; cbn.
    + intros t i [Hin|[= -> ->]%list_elem_of_singleton]%elem_of_app.
      * rewrite Hf, length_app. cbn. specialize (Hsinks t i Hin). lia.
      * rewrite Hf, length_app. cbn. unfold ch. lia.
    + intros t s i [[-> ->]|[Hne Hts]]%Hlook Hi.
      * apply elem_of_union in Hi as [Hi|Hi%elem_of_singleton]; [|by rewrite Hi].
        apply Hold. unfold subs in Hi.
        destruct (topics b !! topic) as [s|] eqn:Hts; cbn in Hi;
          [by eapply Hopen|by apply elem_of_empty in Hi].
      * apply Hold. by eapply Hopen.
    + intros i Hi. rewrite Hf in Hi.
      apply lookup_app_Some in Hi as [Hi|[Hge Hi]].
      * destruct (Hsub i Hi) as (t & s & Hts & His).
        destruct (decide (t = topic)) as [->|Hne].
        -- exists topic, (subs ∪ {[ch]}). rewrite Ht, lookup_insert_eq. split; [done|].
           apply elem_of_union. left. unfold subs. by rewrite Hts.
        -- exists t, s. by rewrite Ht, lookup_insert_ne.
      * apply list_lookup_singleton_Some in Hi as [Hi _].
        assert (i = ch) as -> by (unfold ch; lia).
        exists topic, (subs ∪ {[ch]}). rewrite Ht, lookup_insert_eq. split; [done|].
        apply elem_of_union. right. by apply elem_of_singleton.
    + intros t1 t2 s1 s2 i [[-> ->]|[Hne1 Hts1]]%Hlook [[-> ->]|[Hne2 Hts2]]%Hlook Hi1 Hi2;
        [done| | |by eapply Hdis].
      * apply elem_of_union in Hi1 as [Hi1|Hi1%elem_of_singleton].
        -- unfold subs in Hi1. destruct (topics b !! topic) as [s|] eqn:Hts; cbn in Hi1;
             [by eapply Hdis|by apply elem_of_empty in Hi1].
        -- specialize (Hlt _ _ _ Hts2 Hi2). lia.
      * apply elem_of_union in Hi2 as [Hi2|Hi2%elem_of_singleton].
        -- unfold subs in Hi2. destruct (topics b !! topic) as [s|] eqn:Hts; cbn in Hi2;
             [by eapply Hdis|by apply elem_of_empty in Hi2].
        -- specialize (Hlt _ _ _ Hts1 Hi1). lia.
    + rewrite Hc. done.
Qed.

Lemma cancel_wellFormed topic ch b sinks :
  wellFormed (b, sinks) ->
  exists b', cancel topic ch b = Go.Ret tt b' /\ closed b' = closed b /\
    wellFormed (b', sinks).
Proof.
  intros Hwf. pose proof Hwf as [Hsinks Hopen Hsub Hdis Hclosed]. cbn in *.
  unfold cancel. destruct (topics b !! topic) as [subs|] eqn:Htopic; [|by exists b].
  destruct (decide (ch ∈ subs)) as [Hch|]; [|by exists b].
  set (subs' := subs ∖ {[ch]}).
  set (b0 := withTopics b (<[topic := subs']> (topics b))).
  destruct (closeChan_open ch b0) as (b1 & -> & Ht1 & Hc1 & Hf1).
  { change (flags b0) with (flags b). by eapply Hopen. }
  change (flags b0) with (flags b) in Hf1. cbn in Ht1, Hc1.
  set (b' := if size subs' =? 0 then withTopics b1 (delete topic (topics b1)) else b1).
  assert (Hf : flags b' = <[ch := true]> (flags b)).
  { unfold b'. by destruct (size subs' =? 0). }
  assert (Hc : closed b' = closed b).
  { unfold b'. by destruct (size subs' =? 0). }
  assert (F1 : forall t s, topics b' !! t = Some s ->
            exists s0, topics b !! t = Some s0 /\ s ⊆ s0 /\ ch ∉ s).
  { intros t s. unfold b'. destruct (size subs' =? 0); cbn; rewrite Ht1.
    - rewrite delete_insert_eq. intros [Hne Hts]%lookup_delete_Some.
      exists s. split; [done|]. split; [done|]. intros Hin. apply Hne. by eapply Hdis.
    - intros [[<- <-]|[Hne Hts]]%lookup_insert_Some.
      + exists subs. split; [done|]. unfold subs'. split.
        * intros i [? _]%elem_of_difference. done.
        * intros [_ Hn]%elem_of_difference. apply Hn. by apply elem_of_singleton.
      + exists s. split; [done|]. split; [done|]. intros Hin. apply Hne. by eapply Hdis. }
  assert (F2 : forall t s0 i, topics b !! t = Some s0 -> i ∈ s0 -> i <> ch ->
            exists s, topics b' !! t = Some s /\ i ∈ s).
  { intros t s0 i Hts Hi Hne. unfold b'.
    destruct (decide (t = topic)) as [->|Hnt].
    - assert (s0 = subs) as -> by congruence.
      assert (Hi' : i ∈ subs').
      { apply elem_of_difference. split; [done|]. by intros ?%elem_of_singleton. }
      destruct (Nat.eqb_spec (size subs') 0) as [Hz|_].
      + apply size_empty_inv in Hz. apply Hz in Hi'. by apply elem_of_empty in Hi'.
      + exists subs'. by rewrite Ht1, lookup_insert_eq.
    - exists s0. destruct (size subs' =? 0); cbn; rewrite Ht1.
      + by rewrite delete_insert_eq, lookup_delete_ne.
      + by rewrite lookup_insert_ne. }
  exists b'. split; [by unfold b'; destruct (size subs' =? 0)|]. split; [done|].
  split; cbn.
  - intros t i Hin. rewrite Hf, length_insert. by eapply Hsinks.
  - intros t s i (s0 & Hts & Hsub0 & Hnot)%F1 Hi.
    assert (ch <> i) by (by intros ->).
    rewrite Hf, list_lookup_insert_ne by done. eapply Hopen; [done|]. by apply Hsub0.
  - intros i Hi. rewrite Hf in Hi.
    destruct (decide (i = ch)) as [->|Hne].
    + rewrite list_lookup_insert_eq in Hi; [done|]. eapply lookup_lt_Some, Hopen; done.
    + rewrite list_lookup_insert_ne in Hi by done.
      destruct (Hsub i Hi) as (t & s0 & Hts & His). exists t. by eapply F2.
  - intros t1 t2 s1 s2 i (s01 & Hts1 & Hsub1 & _)%F1 (s02 & Hts2 & Hsub2 & _)%F1 Hi1 Hi2.
    eapply Hdis; [done|done|by apply Hsub1|by apply Hsub2].
  - rewrite Hc. intros Hcl. rewrite (Hclosed Hcl) in Htopic. by rewrite lookup_empty in Htopic.
Qed.

Lemma wellFormed_New : wellFormed (New, []).
Proof.
  split; cbn.
  - by intros ?? ?%elem_of_nil.
  - intros ??? Ht. by rewrite lookup_empty in Ht.
  - by intros ? ?.
  - intros ????? Ht. by rewrite lookup_empty in Ht.
  - done.
Qed.

Lemma step_wellFormed u u' :
  wellFormed u -> step sched u u' ->
  wellFormed u' /\ (closed u.1 = true -> closed u'.1 = true).
Proof.
  intros Hwf Hstep. destruct Hstep as
    [topic b sinks ch b' Hrun|topic ch b sinks b' Hin Hrun|ctx topic payload b sinks b' Hrun
    |b sinks b' Hrun|topic ch b sinks Hin]; cbn.
  - destruct (Subscribe_wellFormed topic b sinks Hwf) as (ch' & b'' & Hrun' & Hc & Hwf' & _).
    rewrite Hrun in Hrun'. simplify_eq. by rewrite Hc.
  - destruct (cancel_wellFormed topic ch b sinks Hwf) as (b'' & Hrun' & Hc & Hwf').
    rewrite Hrun in Hrun'. simplify_eq. by rewrite Hc.
  - destruct (Publish_wellFormed ctx topic payload b sinks Hwf) as (b'' & Hrun' & Hshape).
    rewrite Hrun in Hrun'. simplify_eq. split; [by eapply wellFormed_shape|].
    by destruct Hshape as (_ & -> & _).
  - destruct (Close_wellFormed b sinks Hwf) as (b'' & Hrun' & Ht & Hc & Hf & Hwf').
    rewrite Hrun in Hrun'. by simplify_eq.
  - pose proof (receive_shape ch b) as Hshape. split; [by eapply wellFormed_shape|].
    by destruct Hshape as (_ & -> & _).
Qed.

Lemma steps_wellFormed u u' :
  rtc (step sched) u u' -> wellFormed u ->
  wellFormed u' /\ (closed u.1 = true -> closed u'.1 = true).
Proof.
  induction 1 as [u|u1 u2 u3 Hstep _ IH]; intros Hwf; [done|].
  destruct (step_wellFormed _ _ Hwf Hstep) as [Hwf2 Hc2].
  destruct (IH Hwf2) as [Hwf3 Hc3]. auto.
Qed.

Lemma reachable_wellFormed u : reachable sched u -> wellFormed u.
Proof. intros Hr. by apply (steps_wellFormed _ _ Hr wellFormed_New). Qed.

Lemma Publish_closed ctx topic payload b :
  topics b = ∅ -> Publish sched ctx topic payload b = Go.Ret tt b.
Proof.
  intros Ht. unfold Publish. rewrite Ht, lookup_empty. cbn [default].
  assert (rangeSubs sched ∅ = []) as ->; [|done].
  apply Permutation_nil_r. rewrite (rangeSubs_perm _ laws). by rewrite elements_empty.
Qed.

(** C9. For every bus in use that is reachable from [New], whatever the
    schedule: [Close] returns; after it every sink that [Subscribe] had
    returned is closed and there is no topic left; and from then on,
    whatever further calls are made, [Subscribe] returns a sink that is
    already closed, [Publish] returns with the bus exactly as it was, and
    [Close] returns with the bus exactly as it was. *)
Theorem close_is_final b sinks :
  reachable sched (b, sinks) ->
  exists b1,
    Close sched b = Go.Ret tt b1 /\
    (forall topic ch, (topic, ch) ∈ sinks -> sinkClosed b1 ch) /\
    topics b1 = ∅ /\
    forall b2 sinks2, rtc (step sched) (b1, sinks) (b2, sinks2) ->
      topics b2 = ∅ /\
      (forall topic, exists ch b3, Subscribe topic b2 = Go.Ret ch b3 /\ sinkClosed b3 ch) /\
      (forall ctx topic payload, Publish sched ctx topic payload b2 = Go.Ret tt b2) /\
      Close sched b2 = Go.Ret tt b2.
Proof.
  intros Hwf%reachable_wellFormed.
  destruct (Close_wellFormed b sinks Hwf) as (b1 & Hrun & Ht & Hc & Hf & Hwf1).
  exists b1. split; [done|]. split; [|split; [done|]].
  - intros topic ch Hin. apply flags_lookup. rewrite Hf.
    pose proof (wf_sinks _ Hwf topic ch Hin) as Hlt. cbn in Hlt.
    destruct (lookup_lt_is_Some_2 _ _ Hlt) as [f ->]. done.
  - intros b2 sinks2 Hsteps.
    destruct (steps_wellFormed _ _ Hsteps Hwf1) as [Hwf2 Hc2]. specialize (Hc2 Hc). cbn in Hc2.
    pose proof (wf_closed _ Hwf2 Hc2) as Ht2. cbn in Ht2.
    split; [done|]. split; [|split].
    + intros topic.
      destruct (Subscribe_wellFormed topic b2 sinks2 Hwf2) as (ch & b3 & Hsub & _ & _ & Hfl).
      exists ch, b3. split; [done|]. apply flags_lookup. by apply Hfl.
    + intros ctx topic payload. by apply Publish_closed.
    + unfold Close. by rewrite Hc2.
Qed.

End Bus.

Lemma plainSchedule_laws : ScheduleLaws plainSchedule.
Proof. by split. Qed.

Lemma step_afterSubscribe sched topic u : step sched u (afterSubscribe topic u).
Proof.
  destruct u as [b sinks]. unfold afterSubscribe. cbn [fst snd].
  destruct (Subscribe_returns topic b) as (b' & Hrun & _). rewrite Hrun.
  by apply step_subscribe.
Qed.

Lemma twoSubscribers_reachable : reachable plainSchedule twoSubscribers.
Proof.
  unfold reachable, twoSubscribers.
  eapply rtc_l; [apply step_afterSubscribe|]. apply rtc_once, step_afterSubscribe.
Qed.

Lemma close_is_final_witness :
  exists b1,
    Close plainSchedule twoSubscribers.1 = Go.Ret tt b1 /\
    sinkClosed b1 0 /\ sinkClosed b1 1 /\ topics b1 = ∅ /\
    Publish plainSchedule Auth.Background "t" hello b1 = Go.Ret tt b1 /\
    Close plainSchedule b1 = Go.Ret tt b1.
Proof.
  destruct (close_is_final plainSchedule plainSchedule_laws
              twoSubscribers.1 twoSubscribers.2) as (b1 & Hrun & Hsinks & Ht & Hlater).
  { pose proof twoSubscribers_reachable as Hr. by destruct twoSubscribers. }
  destruct (Hlater b1 twoSubscribers.2 (rtc_refl _ _)) as (_ & _ & Hpub & Hclose).
  exists b1. split; [done|].
  split; [apply (Hsinks "t"); vm_compute; apply list_elem_of_here|].
  split; [apply (Hsinks "t"); vm_compute; apply list_elem_of_further, list_elem_of_here|].
  auto.
Defined.

Section Delivery.
Variable sched : Schedule.
Hypothesis laws : ScheduleLaws sched.

Lemma contents_lookup b ch evs cap :
  contents b !! ch = Some (evs, cap) <->
  exists c, chans b !! ch = Some c /\ buffer c = evs /\ capacity c = cap.
Proof.
  unfold contents. rewrite list_lookup_fmap. destruct (chans b !! ch) as [c|]; cbn.
  - split; [intros [= <- <-]; by exists c|intros (c' & [= <-] & <- & <-); done].
  - split; [done|intros (c' & [=] & _)].
Qed.

Lemma contents_insert b ch c :
  contents (withChans b (<[ch := c]> (chans b))) = <[ch := (buffer c, capacity c)]> (contents b).
Proof. unfold contents. cbn. by rewrite list_fmap_insert. Qed.

Lemma closeChan_contents ch b b' :
  closeChan ch b = Go.Ret tt b' ->
  contents b' = contents b /\ topics b' = topics b /\ closed b' = closed b.
Proof.
  unfold closeChan. destruct (chans b !! ch) as [c|] eqn:Hc; [|done].
  destruct (chanClosed c); [done|]. intros [= <-]. split; [|done].
  rewrite contents_insert. cbn. apply list_insert_id. apply contents_lookup. by exists c.
Qed.

Lemma closeChans_contents chs : forall b b',
  closeChans chs b = Go.Ret tt b' -> contents b' = contents b.
Proof.
  induction chs as [|ch chs IH]; intros b b'; cbn [closeChans]; [by intros [= <-]|].
  destruct (closeChan ch b) as [[] b1| | |] eqn:Hclose; try done.
  intros Hrest. apply closeChan_contents in Hclose as (<- & _). by apply IH.
Qed.

Lemma closeTopics_contents entries : forall b b',
  closeTopics sched entries b = Go.Ret tt b' -> contents b' = contents b.
Proof.
  induction entries as [|[topic subs] entries IH]; intros b b'; cbn [closeTopics];
    [by intros [= <-]|].
  destruct (closeChans (rangeSubs sched subs) b) as [[] b1| | |] eqn:Hclose; try done.
  intros Hrest. apply closeChans_contents in Hclose as <-. by apply IH in Hrest.
Qed.

Lemma Close_contents b b' : Close sched b = Go.Ret tt b' -> contents b' = contents b.
Proof.
  unfold Close. destruct (closed b); [by intros [= <-]|].
  intros Hrun. by apply closeTopics_contents in Hrun.
Qed.

Lemma cancel_contents topic ch b b' :
  cancel topic ch b = Go.Ret tt b' -> contents b' = contents b.
Proof.
  unfold cancel. destruct (topics b !! topic) as [subs|]; [|by intros [= <-]].
  destruct (decide (ch ∈ subs)); [|by intros [= <-]].
  destruct (closeChan ch _) as [[] b1| | |] eqn:Hclose; try done.
  apply closeChan_contents in Hclose as (Hc & _).
  destruct (size (subs ∖ {[ch]}) =? 0); intros [= <-]; done.
Qed.

(** The topics a call of [cancel] leaves are topics it found, with no
    subscriber added. *)
Lemma cancel_topics topic ch b b' :
  cancel topic ch b = Go.Ret tt b' ->
  forall t s, topics b' !! t = Some s ->
    exists s0, topics b !! t = Some s0 /\ s ⊆ s0.
Proof.
  unfold cancel. destruct (topics b !! topic) as [subs|] eqn:Htopic;
    [|intros [= <-]; by eauto].
  destruct (decide (ch ∈ subs)); [|intros [= <-]; by eauto].
  destruct (closeChan ch _) as [[] b1| | |] eqn:Hclose; try done.
  apply closeChan_contents in Hclose as (_ & Ht & _). cbn in Ht.
  intros Hrun t s Hts.
  assert (Hb' : topics b' !! t = Some s ->
            <[topic := subs ∖ {[ch]}]> (topics b) !! t = Some s).
  { destruct (size (subs ∖ {[ch]}) =? 0); simplify_eq; cbn; rewrite Ht; [|done].
    by intros [_ ?]%lookup_delete_Some. }
  apply Hb' in Hts. apply lookup_insert_Some in Hts as [[<- <-]|[_ Hts]].
  - exists subs. split; [done|]. by intros i [? _]%elem_of_difference.
  - by exists s.
Qed.

Lemma send_contents payload ch b c closedFlag :
  (forall i evs cap, contents b !! i = Some (evs, cap) -> cap = 16 /\ length evs <= 16) ->
  chans b !! ch = Some c -> (length (buffer c) <? capacity c) = true ->
  forall i evs cap,
    contents (withChans b
      (<[ch := {| buffer := buffer c ++ [payload]; capacity := capacity c;
                  chanClosed := closedFlag |}]> (chans b))) !! i = Some (evs, cap) ->
    cap = 16 /\ length evs <= 16.
Proof.
  intros Hb Hc Hroom%Nat.ltb_lt i evs cap. rewrite contents_insert. cbn.
  destruct (Hb ch (buffer c) (capacity c)) as [Hcap Hlen]; [apply contents_lookup; by exists c|].
  destruct (decide (i = ch)) as [->|Hne].
  - rewrite list_lookup_insert_eq.
    + intros [= <- <-]. rewrite length_app. cbn. lia.
    + unfold contents. rewrite length_fmap. by eapply lookup_lt_Some.
  - rewrite list_lookup_insert_ne by done. apply Hb.
Qed.

Lemma deliver_contents ctx payload ch b stop b' :
  (forall i evs cap, contents b !! i = Some (evs, cap) -> cap = 16 /\ length evs <= 16) ->
  deliver sched ctx payload ch b = Go.Ret stop b' ->
  topics b' = topics b /\
  forall i evs cap, contents b' !! i = Some (evs, cap) -> cap = 16 /\ length evs <= 16.
Proof.
  intros Hb. unfold deliver. destruct (chans b !! ch) as [c|] eqn:Hc; [|by intros [= _ <-]].
  destruct (chanClosed c) eqn:Hclosed;
    destruct (length (buffer c) <? capacity c) eqn:Hroom;
    destruct (Auth.ctxDone ctx); try destruct (pickDone sched ch);
    cbn [orb andb]; intros Hrun; simplify_eq; (split; [done|]); try done;
    by eapply send_contents.
Qed.

Lemma deliverAll_contents ctx payload chs : forall b b',
  (forall i evs cap, contents b !! i = Some (evs, cap) -> cap = 16 /\ length evs <= 16) ->
  deliverAll sched ctx payload chs b = Go.Ret tt b' ->
  topics b' = topics b /\
  forall i evs cap, contents b' !! i = Some (evs, cap) -> cap = 16 /\ length evs <= 16.
Proof.
  induction chs as [|ch chs IH]; intros b b' Hb; cbn [deliverAll]; [by intros [= <-]|].
  destruct (deliver sched ctx payload ch b) as [stop b1| | |] eqn:Hd; try done.
  apply deliver_contents in Hd as [Ht Hb1]; [|done].
  destruct stop; [by intros [= <-]|]. intros Hrest.
  apply IH in Hrest as [Ht' Hb']; [|done]. split; [congruence|done].
Qed.

Lemma receive_contents ch b :
  (forall i evs cap, contents b !! i = Some (evs, cap) -> cap = 16 /\ length evs <= 16) ->
  topics (receive ch b).2 = topics b /\
  forall i evs cap, contents (receive ch b).2 !! i = Some (evs, cap) ->
    cap = 16 /\ length evs <= 16.
Proof.
  intros Hb. unfold receive. destruct (chans b !! ch) as [c|] eqn:Hc; [|done].
  destruct (buffer c) as [|ev rest] eqn:Hbuf; [done|]. cbn [snd]. split; [done|].
  intros i evs cap. rewrite contents_insert. cbn.
  destruct (Hb ch (buffer c) (capacity c)) as [Hcap Hlen]; [apply contents_lookup; by exists c|].
  rewrite Hbuf in Hlen. cbn in Hlen.
  destruct (decide (i = ch)) as [->|Hne].
  - rewrite list_lookup_insert_eq.
    + intros [= <- <-]. lia.
    + unfold contents. rewrite length_fmap. by eapply lookup_lt_Some.
  - rewrite list_lookup_insert_ne by done. apply Hb.
Qed.

Lemma Subscribe_contents topic b ch b' :
  Subscribe topic b = Go.Ret ch b' -> contents b' = contents b ++ [([], 16)].
Proof.
  unfold Subscribe, makeChan. cbn [closed withChans]. destruct (closed b).
  - destruct (closeChan _ _) as [[] b2| | |] eqn:Hclose; try done. intros [= _ <-].
    apply closeChan_contents in Hclose as (-> & _). unfold contents. cbn. by rewrite fmap_app.
  - intros [= _ <-]. unfold contents. cbn. by rewrite fmap_app.
Qed.

Lemma tracked_New : tracked (New, []).
Proof. split; cbn; [by intros ???? ?%elem_of_nil|by intros ???]. Qed.

Lemma step_tracked u u' :
  wellFormed u -> tracked u -> step sched u u' -> tracked u'.
Proof.
  intros Hwf [Htopic Hbound] Hstep. destruct Hstep as
    [topic b sinks ch b' Hrun|topic ch b sinks b' Hin Hrun|ctx topic payload b sinks b' Hrun
    |b sinks b' Hrun|topic ch b sinks Hin]; cbn [fst snd] in *.
  - destruct (Subscribe_returns topic b) as (b'' & Hrun' & Hc & Hf & Ht).
    rewrite Hrun in Hrun'. injection Hrun' as -> <-.
    pose proof (Subscribe_contents _ _ _ _ Hrun) as Hcont.
    assert (Hfresh : forall t subs, topics b !! t = Some subs -> length (flags b) ∉ subs).
    { intros t subs Hts Hi. pose proof (wf_open _ Hwf t subs _ Hts Hi) as Hopen. cbn in Hopen.
      apply lookup_lt_Some in Hopen. lia. }
    split; cbn.
    + intros topic' ch' t subs [Hold|Hnew%list_elem_of_singleton]%elem_of_app Hts Hi.
      * pose proof (wf_sinks _ Hwf _ _ Hold) as Hlt. cbn in Hlt.
        rewrite Ht in Hts. destruct (closed b); [by eapply Htopic|].
        apply lookup_insert_Some in Hts as [[<- <-]|[_ Hts]]; [|by eapply Htopic].
        apply elem_of_union in Hi as [Hi|Hi%elem_of_singleton]; [|lia].
        destruct (topics b !! topic) as [subs0|] eqn:Ht0; cbn in Hi;
          [by eapply Htopic|by apply elem_of_empty in Hi].
      * injection Hnew as -> ->. rewrite Ht in Hts.
        destruct (closed b); [by apply Hfresh in Hts|].
        apply lookup_insert_Some in Hts as [[<- _]|[_ Hts]]; [done|by apply Hfresh in Hts].
    + intros i evs cap. rewrite Hcont. intros [Hi|[_ Hi]]%lookup_app_Some; [by eapply Hbound|].
      destruct (i - length (contents b)); [|done]. injection Hi as <- <-. cbn. lia.
  - split; cbn.
    + intros topic' ch' t s Hin' Hts Hi.
      destruct (cancel_topics _ _ _ _ Hrun t s Hts) as (s0 & Hts0 & Hsub).
      eapply Htopic; [done|done|by apply Hsub].
    + rewrite (cancel_contents _ _ _ _ Hrun). apply Hbound.
  - unfold Publish in Hrun. apply deliverAll_contents in Hrun as [Ht Hb']; [|done].
    split; cbn; [rewrite Ht; apply Htopic|done].
  - split; cbn.
    + destruct (Close_wellFormed sched laws b sinks Hwf) as (b'' & Hrun' & Ht & _).
      rewrite Hrun in Hrun'. injection Hrun' as <-.
      intros ???? _ Hts. by rewrite Ht, lookup_empty in Hts.
    + rewrite (Close_contents _ _ Hrun). apply Hbound.
  - destruct (receive_contents ch b Hbound) as [Ht Hb'].
    split; cbn; [rewrite Ht; apply Htopic|done].
Qed.

Lemma reachable_tracked u : reachable sched u -> wellFormed u /\ tracked u.
Proof.
  unfold reachable. intros Hr.
  assert (Hgen : forall u0, rtc (step sched) u0 u -> wellFormed u0 -> tracked u0 ->
            wellFormed u /\ tracked u).
  { clear Hr. induction 1 as [u|u1 u2 u3 Hstep _ IH]; intros Hwf Htr; [done|].
    apply IH; [by apply (step_wellFormed sched laws u1 u2)|by eapply step_tracked]. }
  apply (Hgen _ Hr); [apply wellFormed_New|apply tracked_New].
Qed.

Lemma withChans_same b : withChans b (chans b) = b.
Proof. by destruct b. Qed.

Lemma deliver_live ctx payload ch b c :
  Auth.ctxDone ctx = false -> chans b !! ch = Some c -> chanClosed c = false ->
  deliver sched ctx payload ch b
    = Go.Ret false (withChans b (<[ch := offer payload c]> (chans b))).
Proof.
  intros Hlive Hc Hopen. unfold deliver, offer. rewrite Hc, Hopen, Hlive. cbn [orb].
  destruct (length (buffer c) <? capacity c); cbn [andb]; [done|].
  by rewrite list_insert_id, withChans_same.
Qed.

Lemma deliverAll_live ctx payload chs : forall b,
  Auth.ctxDone ctx = false -> NoDup chs ->
  (forall ch, ch ∈ chs -> flags b !! ch = Some false) ->
  exists b', deliverAll sched ctx payload chs b = Go.Ret tt b' /\
    topics b' = topics b /\ closed b' = closed b /\
    forall i, chans b' !! i =
      if decide (i ∈ chs) then offer payload <$> chans b !! i else chans b !! i.
Proof.
  induction chs as [|ch chs IH]; intros b Hlive Hnd Hopen.
  - exists b. split; [done|]. split; [done|]. split; [done|]. intros i.
    by rewrite decide_False by (by intros ?%elem_of_nil).
  - apply NoDup_cons in Hnd as [Hch Hnd].
    destruct (proj1 (flags_lookup b ch false) (Hopen ch ltac:(left))) as (c & Hc & Hcopen).
    cbn [deliverAll]. rewrite (deliver_live ctx payload ch b c) by done.
    set (b1 := withChans b (<[ch := offer payload c]> (chans b))).
    assert (Hoffer : chanClosed (offer payload c) = chanClosed c).
    { unfold offer. by destruct (length (buffer c) <? capacity c). }
    destruct (IH b1 Hlive Hnd) as (b' & Hrun & Ht & Hcl & Hchans).
    { intros ch' Hin. unfold b1. rewrite flags_insert, list_lookup_insert_ne; [|by intros ->].
      apply Hopen. by right. }
    exists b'. split; [done|]. split; [done|]. split; [done|].
    intros i. rewrite Hchans. unfold b1. cbn [chans withChans].
    destruct (decide (i = ch)) as [->|Hne].
    + rewrite decide_False by done. rewrite decide_True by left.
      rewrite list_lookup_insert_eq by (by eapply lookup_lt_Some). by rewrite Hc.
    + rewrite list_lookup_insert_ne by done.
      destruct (decide (i ∈ chs)).
      * by rewrite decide_True by (by right).
      * rewrite decide_False; [done|]. by intros [?|?]%elem_of_cons.
Qed.

Lemma Publish_live ctx topic payload b sinks :
  wellFormed (b, sinks) ->
  Auth.ctxDone ctx = false ->
  exists b', Publish sched ctx topic payload b = Go.Ret tt b' /\
    topics b' = topics b /\ closed b' = closed b /\
    forall ch, chans b' !! ch =
      if decide (ch ∈ default ∅ (topics b !! topic))
      then offer payload <$> chans b !! ch
      else chans b !! ch.
Proof.
  intros Hwf Hlive. unfold Publish.
  set (subs := default ∅ (topics b !! topic)).
  destruct (deliverAll_live ctx payload (rangeSubs sched subs) b Hlive)
    as (b' & Hrun & Ht & Hc & Hchans).
  - rewrite (rangeSubs_perm _ laws). apply NoDup_elements.
  - intros ch Hin. rewrite (rangeSubs_perm _ laws) in Hin. apply elem_of_elements in Hin.
    unfold subs in Hin.
    destruct (topics b !! topic) as [s|] eqn:Hts; cbn in Hin; [|by apply elem_of_empty in Hin].
    by apply (wf_open _ Hwf topic s).
  - exists b'. split; [done|]. split; [done|]. split; [done|].
    intros ch. rewrite Hchans.
    destruct (decide (ch ∈ subs)) as [Hin|Hnin].
    + rewrite decide_True; [done|]. rewrite (rangeSubs_perm _ laws). by apply elem_of_elements.
    + rewrite decide_False; [done|]. rewrite (rangeSubs_perm _ laws).
      by intros ?%elem_of_elements.
Qed.

(** X8. On a bus reached from [New], [Publish] under a context that is not
    done gives the payload to every subscriber of the topic whose sink has
    room, at the end of what the sink holds, and drops it for a subscriber
    whose sink is full; the sinks of other topics, the topics and the closed
    flag stay as they were. *)
Theorem Publish_delivers ctx topic payload b sinks :
  reachable sched (b, sinks) ->
  Auth.ctxDone ctx = false ->
  exists b', Publish sched ctx topic payload b = Go.Ret tt b' /\
    topics b' = topics b /\ closed b' = closed b /\
    forall ch, chans b' !! ch =
      if decide (ch ∈ default ∅ (topics b !! topic))
      then offer payload <$> chans b !! ch
      else chans b !! ch.
Proof.
  intros Hwf%(reachable_wellFormed sched laws) Hlive. by eapply Publish_live.
Qed.

(** X9. On a bus reached from [New], every sink has room for 16 events and
    never holds more, whatever is published and however slowly the
    subscribers receive. *)
Theorem sinks_hold_at_most_16 b sinks :
  reachable sched (b, sinks) ->
  forall ch c, chans b !! ch = Some c -> capacity c = 16 /\ length (buffer c) <= 16.
Proof.
  intros [_ Htr]%reachable_tracked ch c Hc.
  apply (tr_bounded _ Htr ch). apply contents_lookup. by exists c.
Qed.

Lemma closeChan_effect ch b c :
  chans b !! ch = Some c -> chanClosed c = false ->
  closeChan ch b = Go.Ret tt (withChans b
    (<[ch := {| buffer := buffer c; capacity := capacity c; chanClosed := true |}]> (chans b))).
Proof. intros Hc Hopen. unfold closeChan. by rewrite Hc, Hopen. Qed.

(** X10. On a bus reached from [New], the cancel function returned with a
    sink closes that sink and takes it out of its topic, leaves every other
    sink as it was, and does nothing when called again. *)
Theorem cancel_closes_its_sink topic ch b sinks :
  reachable sched (b, sinks) ->
  (topic, ch) ∈ sinks ->
  exists b', cancel topic ch b = Go.Ret tt b' /\
    sinkClosed b' ch /\
    (forall t subs, topics b' !! t = Some subs -> ch ∉ subs) /\
    (forall ch', ch' <> ch -> chans b' !! ch' = chans b !! ch') /\
    closed b' = closed b /\
    cancel topic ch b' = Go.Ret tt b'.
Proof.
  intros [Hwf Htr]%reachable_tracked Hin.
  destruct (cancel_wellFormed topic ch b sinks Hwf) as (b' & Hrun & Hcl & Hwf').
  exists b'. split; [done|].
  assert (Hclosed : sinkClosed b' ch /\
            forall ch', ch' <> ch -> chans b' !! ch' = chans b !! ch').
  { pose proof (wf_sinks _ Hwf topic ch Hin) as Hlt. cbn in Hlt.
    destruct (lookup_lt_is_Some_2 _ _ Hlt) as [f Hf].
    pose proof Hf as (c & Hc & Hcf)%flags_lookup.
    destruct f.
    - assert (b' = b) as ->; [|split; [by exists c|done]].
      revert Hrun. unfold cancel.
      destruct (topics b !! topic) as [subs|] eqn:Hts; [|by intros [= <-]].
      destruct (decide (ch ∈ subs)) as [Hsub|]; [|by intros [= <-]].
      pose proof (wf_open _ Hwf topic subs ch Hts Hsub) as Hopen. cbn in Hopen. congruence.
    - destruct (wf_subscribed _ Hwf ch Hf) as (t & subs & Hts & Hsub). cbn in Hts.
      assert (t = topic) as -> by (by eapply (tr_topic _ Htr)).
      revert Hrun. unfold cancel. rewrite Hts, decide_True by done.
      rewrite (closeChan_effect ch _ c) by done.
      assert (Hlen : ch < length (chans b)) by (by eapply lookup_lt_Some).
      destruct (size (subs ∖ {[ch]}) =? 0); intros [= <-]; (split;
        [eexists; split; [by apply list_lookup_insert_eq|done]
        |intros ch' Hne; cbn; apply list_lookup_insert_ne; congruence]). }
  destruct Hclosed as [Hsink Hothers].
  assert (Hgone : forall t subs, topics b' !! t = Some subs -> ch ∉ subs).
  { intros t subs Hts Hsub. pose proof (wf_open _ Hwf' t subs ch Hts Hsub) as Hopen.
    cbn in Hopen. apply flags_lookup in Hopen as (c & Hc & Hopen).
    destruct Hsink as (c' & Hc' & Hclosed). congruence. }
  split; [done|]. split; [done|]. split; [done|]. split; [done|].
  unfold cancel. destruct (topics b' !! topic) as [subs|] eqn:Hts; [|done].
  rewrite decide_False; [done|]. by eapply Hgone.
Qed.

(** X11. On an open bus reached from [New], under a context that is not done:
    [Subscribe] returns a sink that was not returned before; a [Publish] on
    its topic right after puts the payload in that sink, and the subscriber
    receives it once. *)
Theorem subscribe_publish_receive ctx topic payload b sinks :
  reachable sched (b, sinks) ->
  closed b = false ->
  Auth.ctxDone ctx = false ->
  exists ch b1 b2,
    Subscribe topic b = Go.Ret ch b1 /\
    (forall t, (t, ch) ∉ sinks) /\
    Publish sched ctx topic payload b1 = Go.Ret tt b2 /\
    (receive ch b2).1 = Some payload /\
    (receive ch (receive ch b2).2).1 = None.
Proof.
  intros Hreach Hopen Hlive. pose proof (reachable_wellFormed sched laws _ Hreach) as Hwf.
  destruct (Subscribe_returns topic b) as (b1 & Hsub & _ & _ & Ht). rewrite Hopen in Ht.
  set (ch := length (flags b)) in *.
  assert (Hreach1 : reachable sched (b1, sinks ++ [(topic, ch)])).
  { eapply rtc_r; [exact Hreach|]. by constructor. }
  pose proof (reachable_wellFormed sched laws _ Hreach1) as Hwf1.
  destruct (Publish_live ctx topic payload b1 _ Hwf1 Hlive) as (b2 & Hpub & _ & _ & Hchans).
  exists ch, b1, b2. split; [done|]. split.
  { intros t Hin. pose proof (wf_sinks _ Hwf t ch Hin) as Hlt. cbn in Hlt. unfold ch in Hlt. lia. }
  split; [done|].
  assert (Hnew : contents b1 !! ch = Some ([], 16)).
  { rewrite (Subscribe_contents _ _ _ _ Hsub). unfold ch, flags, contents.
    rewrite !length_fmap. rewrite lookup_app_r by (rewrite length_fmap; lia).
    by rewrite length_fmap, Nat.sub_diag. }
  apply contents_lookup in Hnew as (c & Hc & Hbuf & Hcap).
  specialize (Hchans ch). rewrite Ht, lookup_insert_eq in Hchans. cbn [default] in Hchans.
  unfold id in Hchans.
  rewrite decide_True in Hchans by (apply elem_of_union; right; by apply elem_of_singleton).
  rewrite Hc in Hchans. cbn in Hchans. unfold offer in Hchans.
  rewrite Hbuf, Hcap in Hchans. cbn in Hchans.
  assert (Hr : receive ch b2 =
            (Some payload,
             withChans b2 (<[ch := {| buffer := []; capacity := 16;
                                      chanClosed := chanClosed c |}]> (chans b2)))).
  { unfold receive. by rewrite Hchans. }
  rewrite Hr. cbn [fst snd]. split; [done|].
  unfold receive. cbn [chans withChans].
  rewrite list_lookup_insert_eq by (by eapply lookup_lt_Some). done.
Qed.

Lemma flags_offer b ch c payload :
  chans b !! ch = Some c ->
  flags (withChans b (<[ch := offer payload c]> (chans b))) = flags b.
Proof.
  intros Hc. unfold flags. cbn. rewrite list_fmap_insert.
  apply list_insert_id. rewrite list_lookup_fmap, Hc. cbn.
  unfold offer. by destruct (_ <? _).
Qed.

(** Sends that meet a closed channel: the first of them panics. *)
Lemma deliverAll_closed ctx payload chs : forall b,
  Auth.ctxDone ctx = false ->
  (forall x, x ∈ chs -> is_Some (flags b !! x)) ->
  (exists x, x ∈ chs /\ flags b !! x = Some true) ->
  exists v b', deliverAll sched ctx payload chs b = Go.Panic v b'.
Proof.
  intros b Hctx. revert b.
  induction chs as [|x chs IH]; intros b Hall (x0 & Hin & Hclosed);
    [by apply elem_of_nil in Hin|].
  cbn [deliverAll].
  destruct (Hall x) as [f Hf]; [by left|].
  pose proof Hf as (c & Hc & Hcf)%flags_lookup. destruct f.
  - unfold deliver. rewrite Hc, Hcf, Hctx. cbn. by eexists _, _.
  - rewrite (deliver_live ctx payload x b c) by done.
    apply IH.
    + intros y Hy. rewrite flags_offer by done. apply Hall. by right.
    + exists x0. rewrite flags_offer by done. split; [|done].
      apply elem_of_cons in Hin as [->|Hin]; [congruence|done].
Qed.

Lemma cancel_flags topic ch b sinks subs b1 :
  wellFormed (b, sinks) ->
  topics b !! topic = Some subs -> ch ∈ subs ->
  cancel topic ch b = Go.Ret tt b1 ->
  flags b1 = <[ch := true]> (flags b).
Proof.
  intros Hwf Hts Hsub. pose proof (wf_open _ Hwf topic subs ch Hts Hsub) as Hopen.
  cbn in Hopen. apply flags_lookup in Hopen as (c & Hc & Hopen).
  unfold cancel. rewrite Hts, decide_True by done.
  rewrite (closeChan_effect ch _ c) by done.
  destruct (size (subs ∖ {[ch]}) =? 0); intros [= <-]; unfold flags; cbn;
    by rewrite list_fmap_insert.
Qed.

(** X7. On a bus reached from [New], a call that no other call overlaps
    returns: [Subscribe], a cancel function, [Publish] and [Close] do not
    panic, whatever was called before and however often.  A [Publish] that a
    cancel function or [Close] overlaps does panic: it sends after it has
    released the lock, so when a subscriber of its topic is cancelled, or the
    bus closed, between its snapshot and its sends, and the context is not
    done, it sends on a closed channel. *)
Theorem bus_calls_return_unless_overlapped b sinks :
  reachable sched (b, sinks) ->
  (forall topic, exists ch b', Subscribe topic b = Go.Ret ch b') /\
  (forall topic ch, exists b', cancel topic ch b = Go.Ret tt b') /\
  (forall ctx topic payload, exists b', Publish sched ctx topic payload b = Go.Ret tt b') /\
  (exists b', Close sched b = Go.Ret tt b') /\
  (forall ctx topic payload, PublishOverlapped sched ctx topic payload b b
     = Publish sched ctx topic payload b) /\
  (forall ctx topic payload subs ch b1,
     Auth.ctxDone ctx = false ->
     topics b !! topic = Some subs -> ch ∈ subs ->
     cancel topic ch b = Go.Ret tt b1 \/ Close sched b = Go.Ret tt b1 ->
     exists v b2, PublishOverlapped sched ctx topic payload b b1 = Go.Panic v b2).
Proof.
  intros Hwf%(reachable_wellFormed sched laws). split; [|split; [|split; [|split; [|split]]]].
  - intros topic. destruct (Subscribe_wellFormed topic b sinks Hwf) as (ch & b' & Hrun & _).
    by exists ch, b'.
  - intros topic ch. destruct (cancel_wellFormed topic ch b sinks Hwf) as (b' & Hrun & _).
    by exists b'.
  - intros ctx topic payload.
    destruct (Publish_wellFormed sched laws ctx topic payload b sinks Hwf) as (b' & Hrun & _).
    by exists b'.
  - destruct (Close_wellFormed sched laws b sinks Hwf) as (b' & Hrun & _). by exists b'.
  - reflexivity.
  - intros ctx topic payload subs ch b1 Hctx Hts Hsub Hover.
    unfold PublishOverlapped. rewrite Hts. cbn [default].
    assert (Hin : ch ∈ rangeSubs sched subs).
    { rewrite (rangeSubs_perm _ laws). by apply elem_of_elements. }
    assert (Hopen : forall x, x ∈ rangeSubs sched subs -> flags b !! x = Some false).
    { intros x Hx. rewrite (rangeSubs_perm _ laws) in Hx. apply elem_of_elements in Hx.
      exact (wf_open _ Hwf topic subs x Hts Hx). }
    assert (Hflags : (forall x, x ∈ rangeSubs sched subs -> is_Some (flags b1 !! x)) /\
                     flags b1 !! ch = Some true).
    { destruct Hover as [Hcancel|Hclose].
      - rewrite (cancel_flags topic ch b sinks subs b1) by done.
        assert (Hlt : ch < length (flags b)) by (eapply lookup_lt_Some; by apply Hopen).
        split; [|by apply list_lookup_insert_eq].
        intros x Hx. apply lookup_lt_is_Some. rewrite length_insert.
        eapply lookup_lt_Some. by apply Hopen.
      - destruct (Close_wellFormed sched laws b sinks Hwf) as (b' & Hrun & _ & _ & Hf & _).
        assert (b' = b1) as -> by congruence.
        split; [|by rewrite Hf, Hopen].
        intros x Hx. by rewrite Hf, Hopen. }
    destruct Hflags as [Hall Hclosed].
    apply deliverAll_closed; [done|done|by exists ch].
Qed.

End Delivery.

Lemma bus_calls_return_unless_overlapped_witness :
  (exists ch b', Subscribe "t" twoSubscribers.1 = Go.Ret ch b') /\
  (exists b', cancel "t" 0 twoSubscribers.1 = Go.Ret tt b') /\
  (exists b', Publish plainSchedule Auth.Background "t" hello twoSubscribers.1 = Go.Ret tt b') /\
  (exists b', Close plainSchedule twoSubscribers.1 = Go.Ret tt b') /\
  (exists b1 v b2,
     cancel "t" 1 twoSubscribers.1 = Go.Ret tt b1 /\
     PublishOverlapped plainSchedule Auth.Background "t" hello twoSubscribers.1 b1
       = Go.Panic v b2).
Proof.
  destruct (bus_calls_return_unless_overlapped plainSchedule plainSchedule_laws
              twoSubscribers.1 twoSubscribers.2) as (Hs & Hc & Hp & Hcl & _ & Hover).
  { exact twoSubscribers_reachable. }
  split; [apply Hs|]. split; [apply Hc|]. split; [apply Hp|]. split; [apply Hcl|].
  destruct (Hc "t" 1) as [b1 Hb1]. exists b1.
  destruct (Hover Auth.Background "t" hello {[0; 1]} 1 b1) as (v & b2 & Hpanic);
    [reflexivity|by vm_compute|set_solver|by left|].
  by exists v, b2.
Defined.

Lemma Publish_delivers_witness :
  exists b', Publish plainSchedule Auth.Background "t" hello twoSubscribers.1 = Go.Ret tt b' /\
    (buffer <$> chans b' !! 0) = Some [hello] /\ (buffer <$> chans b' !! 1) = Some [hello].
Proof.
  destruct (Publish_delivers plainSchedule plainSchedule_laws Auth.Background "t" hello
              twoSubscribers.1 twoSubscribers.2) as (b' & Hrun & _ & _ & Hchans).
  { exact twoSubscribers_reachable. }
  { reflexivity. }
  exists b'. split; [exact Hrun|].
  split; rewrite Hchans; vm_compute; reflexivity.
Defined.

Lemma sinks_hold_at_most_16_witness :
  exists c, chans twoSubscribers.1 !! 0 = Some c /\ capacity c = 16 /\ length (buffer c) <= 16.
Proof.
  eexists. split; [reflexivity|].
  apply (sinks_hold_at_most_16 plainSchedule plainSchedule_laws twoSubscribers.1
           twoSubscribers.2 twoSubscribers_reachable 0).
  reflexivity.
Defined.

Lemma cancel_closes_its_sink_witness :
  exists b', cancel "t" 0 twoSubscribers.1 = Go.Ret tt b' /\
    sinkClosed b' 0 /\ chans b' !! 1 = chans twoSubscribers.1 !! 1 /\
    cancel "t" 0 b' = Go.Ret tt b'.
Proof.
  destruct (cancel_closes_its_sink plainSchedule plainSchedule_laws "t" 0
              twoSubscribers.1 twoSubscribers.2) as (b' & Hrun & Hsink & _ & Hothers & _ & Hagain).
  { exact twoSubscribers_reachable. }
  { vm_compute. left. }
  exists b'. split; [exact Hrun|]. split; [exact Hsink|]. split; [|exact Hagain].
  apply Hothers. lia.
Defined.

Lemma subscribe_publish_receive_witness :
  exists ch b1 b2,
    Subscribe "t" twoSubscribers.1 = Go.Ret ch b1 /\
    Publish plainSchedule Auth.Background "t" hello b1 = Go.Ret tt b2 /\
    (receive ch b2).1 = Some hello.
Proof.
  destruct (subscribe_publish_receive plainSchedule plainSchedule_laws Auth.Background "t" hello
              twoSubscribers.1 twoSubscribers.2) as (ch & b1 & b2 & Hs & _ & Hp & Hr & _).
  { exact twoSubscribers_reachable. }
  { reflexivity. }
  { reflexivity. }
  exists ch, b1, b2. split; [exact Hs|]. split; [exact Hp|exact Hr].
Defined.

End EventsFacts.
